(** * Corona validation, compact notation and rotation keys

    A shallow embedding of [corona.ts] (the [Corona] class: [validate],
    [toCompact], [fromCompact]) and of [corona-finder.ts]
    ([canonicalRotationEdges], [enumerateUniqueCoronasCenter1]), with the
    properties the specification states about them. *)

From Stdlib Require Import ZArith List String Ascii Bool Lia.
From Stdlib Require Import Permutation Sorted.
From Stdlib Require Import DecimalString DecimalZ DecimalN DecimalPos DecimalFacts.
Import ListNotations.

Local Open Scope string_scope.
Local Open Scope list_scope.
Local Open Scope Z_scope.

(* ================================================================= *)
(** ** Numbers *)

(** A JavaScript [number] as this program observes it.  Integer values are
    carried as [Z] (the program only adds, subtracts and compares them, which
    is exact on integer-valued doubles below 2^53).  [NaN] is what [parseInt]
    answers when it finds no digits.  Every other double (a finite
    non-integer, an infinity) is carried with its [toString] rendering, the
    only thing besides [Number.isInteger] that this code reads from it. *)
Inductive number : Type :=
| Int (z : Z)
| NaN
| NonInteger (shown : string).

Definition Number_isInteger (n : number) : bool :=
  match n with
  | Int _ => true
  | _ => false
  end.

(** The integer a [number] holds, read where the program has made sure
    that it holds one. *)
Definition integerOf (n : number) : Z :=
  match n with
  | Int z => z
  | _ => 0
  end.

(* ================================================================= *)
(** ** Data structures *)

(** [interface EdgeSeg { readonly size: number; readonly offset: number }].
    Sizes and offsets are integer-valued. *)
Record EdgeSeg : Type := mkSeg { size : Z; offset : Z }.

(** The [where] field of a result is typed [any]; these are the shapes the
    validator stores there. *)
Inductive Where : Type :=
| WhereEdge (ei : nat)
| WhereSeg (ei : nat) (seg : EdgeSeg)
| WherePair (ei : nat) (a b : EdgeSeg)
| WhereLastSegSizes (lastSegSizes : list Z).

(** [interface ValidationResult { ok: boolean; reason?: string; where?: any }] *)
Record ValidationResult : Type := mkResult {
  ok : bool;
  reason : option string;
  where_ : option Where
}.

(** [class Corona { readonly center: number; readonly edges: EdgeSeg[][] }] *)
Record Corona : Type := mkCorona {
  center : number;
  edges : list (list EdgeSeg)
}.

(* ================================================================= *)
(** ** Completions: early return and thrown faults *)

Inductive Error : Type :=
| TypeError                 (* property read on [undefined] *)
| ErrorMsg (message : string).  (* [throw new Error(message)] *)

(** The outcome of running a block of statements in a function whose
    [return] type is [R]: the block falls through with a value, or the
    function returns, or a fault is thrown. *)
Inductive Control (R A : Type) : Type :=
| Next (a : A)
| Return (r : R)
| Throw (e : Error).
Arguments Next {R A} a.
Arguments Return {R A} r.
Arguments Throw {R A} e.

Definition bind {R A B} (m : Control R A) (k : A -> Control R B) : Control R B :=
  match m with
  | Next a => k a
  | Return r => Return r
  | Throw e => Throw e
  end.

Notation "x <- m ;; k" := (bind m (fun x => k))
  (at level 61, m at next level, right associativity).
Notation "m ;;; k" := (bind m (fun _ => k))
  (at level 61, right associativity).

(** The outcome of a whole call. *)
Inductive Completion (R : Type) : Type :=
| Normal (r : R)
| Raised (e : Error).
Arguments Normal {R} r.
Arguments Raised {R} e.

(** A function body always ends in a [return]. *)
Definition call {R} (body : Control R R) : Completion R :=
  match body with
  | Next r => Normal r
  | Return r => Normal r
  | Throw e => Raised e
  end.

(** [if (cond) return r;] *)
Definition returnIf {R} (cond : bool) (r : R) : Control R unit :=
  if cond then Return r else Next tt.

(** [a[i].field]: reading a property of [a[i]] throws a [TypeError] when
    the index is out of range, since [a[i]] is then [undefined]. *)
Definition at_ {R A} (a : list A) (i : nat) : Control R A :=
  match nth_error a i with
  | Some x => Next x
  | None => Throw TypeError
  end.

(* ================================================================= *)
(** ** Array.prototype.sort *)

(** [[...a].sort(cmp)]: a new array holding the elements of [a] in the order
    the comparator asks for.  The sort is stable, so with a consistent
    comparator the result is the one of a stable insertion sort. *)
Section Sort.
Context {A : Type} (cmp : A -> A -> Z).

Fixpoint insertBy (x : A) (l : list A) : list A :=
  match l with
  | [] => [x]
  | y :: l' => if cmp x y <=? 0 then x :: l else y :: insertBy x l'
  end.

Fixpoint sortBy (l : list A) : list A :=
  match l with
  | [] => []
  | x :: l' => insertBy x (sortBy l')
  end.
End Sort.

(** [(a, b) => a.offset !== b.offset ? a.offset - b.offset : a.size - b.size] *)
Definition byOffsetThenSize (a b : EdgeSeg) : Z :=
  if negb (offset a =? offset b) then offset a - offset b else size a - size b.

(** [(a, b) => a.offset - b.offset] *)
Definition byOffset (a b : EdgeSeg) : Z := offset a - offset b.

(* ================================================================= *)
(** ** Corona.validate *)

Definition failure (why : string) (w : option Where) : ValidationResult :=
  mkResult false (Some why) w.

Definition success : ValidationResult := mkResult true None None.

(** [allowedSizes.includes(x)] *)
Definition includes (l : list Z) (x : Z) : bool := existsb (Z.eqb x) l.

Section Validate.
Variable c : Z.
Variable allowedSizes : list Z.

(** [for (const seg of segs) { ... }]: sizes, offsets and the
    center-aligned rule, segment by segment. *)
Fixpoint checkSegs (ei : nat) (segs : list EdgeSeg) : Control ValidationResult unit :=
  match segs with
  | [] => Next tt
  | seg :: rest =>
      returnIf (negb (includes allowedSizes (size seg)) || (size seg <=? 0))
               (failure "invalid segment size" (Some (WhereSeg ei seg))) ;;;
      returnIf ((offset seg <? 0) || (offset seg >? c))
               (failure "offset out of range" (Some (WhereSeg ei seg))) ;;;
      returnIf ((size seg =? c) && (offset seg =? 0))
               (failure "not unilateral (center-sized aligned)" (Some (WhereSeg ei seg))) ;;;
      checkSegs ei rest
  end.

(** [for (let i = 0; i < segs.length - 1; i++)] over [segs[i]], [segs[i+1]]:
    no equal sizes consecutively. *)
Fixpoint checkAdjacent (ei : nat) (segs : list EdgeSeg) : Control ValidationResult unit :=
  match segs with
  | a :: (b :: _) as rest =>
      returnIf (size a =? size b)
               (failure "not unilateral (equal adjacent sizes)" (Some (WherePair ei a b))) ;;;
      checkAdjacent ei rest
  | _ => Next tt
  end.

(** The second loop over consecutive pairs: a real walk.
    [prev.offset + prev.size] is the integer sum, which is the double sum
    of the source when it is a safe integer. *)
Fixpoint checkWalk (ei : nat) (segs : list EdgeSeg) : Control ValidationResult unit :=
  match segs with
  | prev :: (nxt :: _) as rest =>
      returnIf (negb (offset nxt =? offset prev + size prev))
               (failure "invalid edge walk" (Some (WherePair ei prev nxt))) ;;;
      checkWalk ei rest
  | _ => Next tt
  end.

(** The checks of one edge on its sorted copy [segs]. *)
Definition checkSorted (ei : nat) (segs : list EdgeSeg) : Control ValidationResult unit :=
  checkSegs ei segs ;;;
  checkAdjacent ei segs ;;;
  s0 <- at_ segs 0 ;;
  returnIf (negb (offset s0 =? 0)) (failure "edge does not start at 0" (Some (WhereEdge ei))) ;;;
  checkWalk ei segs ;;;
  sl <- at_ segs (List.length segs - 1) ;;
  let currentEnd := offset sl + size sl in
  returnIf (currentEnd <? c)
           (failure "edge does not reach center length" (Some (WhereEdge ei))).

(** The body of the loop over the edges. *)
Definition checkEdge (ei : nat) (edge : list EdgeSeg) : Control ValidationResult unit :=
  returnIf (List.length edge =? 0)%nat (failure "edge empty" (Some (WhereEdge ei))) ;;;
  let segs := sortBy byOffsetThenSize edge in
  checkSorted ei segs.

(** [for (let ei = 0; ei < this.edges.length; ei++)], from index [ei] on. *)
Fixpoint checkEdges (ei : nat) (es : list (list EdgeSeg)) : Control ValidationResult unit :=
  match es with
  | [] => Next tt
  | edge :: rest => checkEdge ei edge ;;; checkEdges (S ei) rest
  end.

(** One round of the corner loop, once both sorted copies are made: the
    state is ([hasCornerGap], [lastSegSizes]).  The overhang is the integer
    [offset + size - c], which is what the source computes in doubles when
    the sum and the difference are safe integers. *)
Definition cornerRead (st : bool * list Z) (segs nextSegs : list EdgeSeg)
  : Control ValidationResult (bool * list Z) :=
  lastSeg <- at_ segs (List.length segs - 1) ;;
  let overhang := offset lastSeg + size lastSeg - c in
  firstSeg <- at_ nextSegs 0 ;;
  let firstSegSize := size firstSeg in
  let lastSegSizes := snd st ++ [size lastSeg] in
  Next (if (overhang =? 1) && (firstSegSize =? 1) then (true, lastSegSizes)
        else (fst st, lastSegSizes)).

Definition cornerStep (es : list (list EdgeSeg)) (st : bool * list Z) (ei : nat)
  : Control ValidationResult (bool * list Z) :=
  edge <- at_ es ei ;;
  nextEdge <- at_ es ((ei + 1) mod 4)%nat ;;
  let segs := sortBy byOffset edge in
  let nextSegs := sortBy byOffset nextEdge in
  cornerRead st segs nextSegs.

(** [for (let ei = 0; ei < 4; ei++)] *)
Fixpoint cornerLoop (es : list (list EdgeSeg)) (st : bool * list Z) (eis : list nat)
  : Control ValidationResult (bool * list Z) :=
  match eis with
  | [] => Next st
  | ei :: rest => st' <- cornerStep es st ei ;; cornerLoop es st' rest
  end.

(** [lastSegSizes.every(s => s === lastSegSizes[0])] *)
Definition allSame (l : list Z) : bool :=
  forallb (fun s => match nth_error l 0 with
                    | Some s0 => s =? s0
                    | None => false
                    end) l.

(** [if (hasCornerGap) { ... }] *)
Definition cornerVerdict (st : bool * list Z) : Control ValidationResult unit :=
  let '(hasCornerGap, lastSegSizes) := st in
  if hasCornerGap then
    returnIf (negb (allSame lastSegSizes))
             (failure "1x1 corner gap with asymmetric edges"
                      (Some (WhereLastSegSizes lastSegSizes)))
  else Next tt.

(** The corner gap check, from [let hasCornerGap = false] to the end. *)
Definition cornerGapCheck (es : list (list EdgeSeg)) : Control ValidationResult unit :=
  st <- cornerLoop es (false, []) [0; 1; 2; 3]%nat ;;
  cornerVerdict st.

(** Everything after the center check. *)
Definition validateBody (es : list (list EdgeSeg)) : Control ValidationResult ValidationResult :=
  returnIf (negb (List.length es =? 4)%nat) (failure "edges must have length 4" None) ;;;
  checkEdges 0 es ;;;
  cornerGapCheck es ;;;
  Return success.
End Validate.

(** [validate(allowedSizes: number[] = [1, 2, 3, 4]): ValidationResult].
    Past the first test [c] is a positive integer. *)
Definition validate (cor : Corona) (allowedSizes : list Z) : Completion ValidationResult :=
  let c := center cor in
  if negb (Number_isInteger c) || (integerOf c <=? 0)
  then Normal (failure "center must be a positive integer" None)
  else call (validateBody (integerOf c) allowedSizes (edges cor)).

Definition defaultSizes : list Z := [1; 2; 3; 4].

(** The copy of [validate] in [generate.js] (and in the older one-file
    version of the enumerator) is the same code without the corner gap
    check. *)
Module GenerateJs.

Definition validate (cor : Corona) (allowedSizes : list Z) : Completion ValidationResult :=
  let c := center cor in
  if negb (Number_isInteger c) || (integerOf c <=? 0)
  then Normal (failure "center must be a positive integer" None)
  else call (returnIf (negb (List.length (edges cor) =? 4)%nat)
                      (failure "edges must have length 4" None) ;;;
             checkEdges (integerOf c) allowedSizes 0 (edges cor) ;;;
             Return success).

End GenerateJs.

(* ================================================================= *)
(** ** Strings *)

(** A string is a sequence of code units; the model covers the code units
    below 256, which is where every character this program looks for
    lives. *)

Definition codeOf (ch : ascii) : N := N_of_ascii ch.

(** [\d] *)
Definition isDigit (ch : ascii) : bool :=
  ((48 <=? codeOf ch) && (codeOf ch <=? 57))%N.

(** [\s], and what [trim] removes: tab, line feed, vertical tab, form feed,
    carriage return, space, no-break space. *)
Definition isSpace (ch : ascii) : bool :=
  (((9 <=? codeOf ch) && (codeOf ch <=? 13)) || (codeOf ch =? 32) || (codeOf ch =? 160))%N.

Definition isEmpty (s : string) : bool :=
  match s with
  | EmptyString => true
  | String _ _ => false
  end.

Fixpoint trimStart (s : string) : string :=
  match s with
  | EmptyString => EmptyString
  | String ch rest => if isSpace ch then trimStart rest else s
  end.

Fixpoint trimEnd (s : string) : string :=
  match s with
  | EmptyString => EmptyString
  | String ch rest =>
      let rest' := trimEnd rest in
      if isSpace ch && isEmpty rest' then EmptyString else String ch rest'
  end.

(** [s.trim()] *)
Definition trim (s : string) : string := trimEnd (trimStart s).

(** [s.replace(/\s/g, '')]: every white space character removed *)
Fixpoint removeSpaces (s : string) : string :=
  match s with
  | EmptyString => EmptyString
  | String ch rest => if isSpace ch then removeSpaces rest else String ch (removeSpaces rest)
  end.

(** [s.split(sep)] for a one-character separator: never an empty array. *)
Fixpoint split (sep : ascii) (s : string) : list string :=
  match s with
  | EmptyString => [EmptyString]
  | String ch rest =>
      if Ascii.eqb ch sep then EmptyString :: split sep rest
      else match split sep rest with
           | cur :: more => String ch cur :: more
           | [] => [String ch EmptyString]
           end
  end.

(** [parts.join(sep)] *)
Definition join (sep : string) (parts : list string) : string := String.concat sep parts.

(** The longest prefix of digits, and what follows it. *)
Fixpoint spanDigits (s : string) : string * string :=
  match s with
  | EmptyString => (EmptyString, EmptyString)
  | String ch rest =>
      if isDigit ch then let (ds, tail) := spanDigits rest in (String ch ds, tail)
      else (EmptyString, s)
  end.

(** The integer a string of decimal digits denotes. *)
Definition digitsValue (ds : string) : Z :=
  match NilEmpty.uint_of_string ds with
  | Some u => Z.of_uint u
  | None => 0
  end.

(** An optional sign at the start of a numeral. *)
Definition splitSign (s : string) : bool * string :=
  match s with
  | String ch rest =>
      if Ascii.eqb ch "-" then (true, rest)
      else if Ascii.eqb ch "+" then (false, rest)
      else (false, s)
  | EmptyString => (false, s)
  end.

(** [parseInt(s, 10)]: leading white space, an optional sign, then the
    longest run of digits; [NaN] when there is no digit.  The value is the
    integer the digits denote; the source answers the nearest double, which
    is that integer when it is a safe integer. *)
Definition parseInt (s : string) : number :=
  let (negative, s2) := splitSign (trimStart s) in
  let (ds, _) := spanDigits s2 in
  if isEmpty ds then NaN
  else Int (if negative then - digitsValue ds else digitsValue ds).

(** [n.toString()] and [`${n}`] of an integer below 1e21 in magnitude, the
    range in which the source writes every digit; from 1e21 on it writes an
    exponent, which this function does not. *)
Definition Z_toString (z : Z) : string := NilZero.string_of_int (Z.to_int z).

Definition number_toString (n : number) : string :=
  match n with
  | Int z => Z_toString z
  | NaN => "NaN"
  | NonInteger shown => shown
  end.

(** [tok.match(/^(\d+)\^(-?\d+)$/)]: the two groups of the match, if any.
    The first group is the whole run of digits at the start, since a caret
    must follow it; the second is an optional minus sign and digits up to the
    end of the token. *)
Definition matchSegPat (tok : string) : option (string * string) :=
  let (g1, rest) := spanDigits tok in
  if isEmpty g1 then None
  else match rest with
       | String ch rest' =>
           if Ascii.eqb ch "^" then
             let (sign, body) :=
               match rest' with
               | String ch' b => if Ascii.eqb ch' "-" then ("-", b) else (EmptyString, rest')
               | EmptyString => (EmptyString, rest')
               end in
             let (ds, tail) := spanDigits body in
             if negb (isEmpty ds) && isEmpty tail then Some (g1, (sign ++ ds)%string)
             else None
           else None
       | EmptyString => None
       end.

(* ================================================================= *)
(** ** Corona.toCompact and Corona.fromCompact *)

(** [`${seg.size}^${seg.offset}`] *)
Definition segToken (s : EdgeSeg) : string :=
  (Z_toString (size s) ++ "^" ++ Z_toString (offset s))%string.

(** One edge of the compact notation. *)
Definition edgeText (edge : list EdgeSeg) : string :=
  let edgeSorted := sortBy byOffsetThenSize edge in
  join "," (map segToken edgeSorted).

(** [toCompact(): string]; [parts] grows by one [push] per edge. *)
Definition toCompact (cor : Corona) : string :=
  let parts := fold_left (fun parts edge => parts ++ [edgeText edge])
                         (edges cor) [number_toString (center cor)] in
  join "|" parts.

(** [for (const tok of edgeTxt.split(","))], with [segs] as built so far. *)
Fixpoint parseTokens (toks : list string) (segs : list EdgeSeg)
  : Control Corona (list EdgeSeg) :=
  match toks with
  | [] => Next segs
  | tok :: rest =>
      match matchSegPat tok with
      | None => Throw (ErrorMsg ("Bad segment token: " ++ tok))
      | Some (m1, m2) =>
          parseTokens rest
            (segs ++ [mkSeg (integerOf (parseInt m1)) (integerOf (parseInt m2))])
      end
  end.

(** [for (let i = 1; i < parts.length; i++)], with [edges] as built so far. *)
Fixpoint parseEdges (edgeTxts : list string) (es : list (list EdgeSeg))
  : Control Corona (list (list EdgeSeg)) :=
  match edgeTxts with
  | [] => Next es
  | edgeTxt :: rest =>
      segs <- parseTokens (split "," edgeTxt) [] ;;
      parseEdges rest (es ++ [segs])
  end.

(** The text [fromCompact] splits. *)
Definition stripped (s : string) : string := removeSpaces (trim s).

(** [static fromCompact(s: string): Corona] *)
Definition fromCompact (s : string) : Completion Corona :=
  call (
    let text := stripped s in
    let parts := split "|" text in
    (if negb (List.length parts =? 5)%nat
     then Throw (ErrorMsg "Expected center + 4 edges") else Next tt) ;;;
    let center := parseInt (nth 0 parts EmptyString) in
    es <- parseEdges (skipn 1 parts) [] ;;
    Return (mkCorona center es)).

(* ================================================================= *)
(** ** canonicalRotationEdges *)

(** [JSON.stringify] of an array of arrays of integers: no white space. *)
Definition JSON_stringify (v : list (list Z)) : string :=
  ("[" ++ join "," (map (fun a => "[" ++ join "," (map Z_toString a) ++ "]") v) ++ "]")%string.

(** The inner function [edgeKey]. *)
Definition edgeKey (e : list EdgeSeg) : string :=
  let sorted := sortBy byOffsetThenSize e in
  JSON_stringify (map (fun seg => [size seg; offset seg]) sorted).

(** The comparator [sort()] uses when it is given none: strings by code
    units. *)
Definition byCodeUnits (a b : string) : Z :=
  match String.compare a b with
  | Lt => -1
  | Eq => 0
  | Gt => 1
  end.

(** [[...edges.slice(k), ...edges.slice(0, k)]] *)
Definition rotation {A : Type} (k : nat) (es : list A) : list A :=
  skipn k es ++ firstn k es.

(** [canonicalRotationEdges(edges): string].  The loop pushes one key per
    [k] in 0..3; [keys[0]] is read from the sorted array, which always holds
    four strings. *)
Definition canonicalRotationEdges (es : list (list EdgeSeg)) : string :=
  let keys :=
    fold_left (fun keys k =>
                 let rot := rotation k es in
                 let rotKey := join ";" (map edgeKey rot) in
                 keys ++ [rotKey])
              [0; 1; 2; 3]%nat [] in
  nth 0 (sortBy byCodeUnits keys) EmptyString.

(* ================================================================= *)
(** ** enumerateUniqueCoronasCenter1 *)

(** [for (const x of xs) body], threading the variables the body updates. *)
Fixpoint forEach {A S : Type} (xs : list A) (body : A -> S -> Completion S) (s : S)
  : Completion S :=
  match xs with
  | [] => Normal s
  | x :: rest =>
      match body x s with
      | Normal s' => forEach rest body s'
      | Raised e => Raised e
      end
  end.

Definition edgeChoices : list (list EdgeSeg) :=
  [[mkSeg 2 0]; [mkSeg 3 0]; [mkSeg 4 0]].

(** The body of the innermost loop.  [seen] is a [Set<string>], kept as the
    list of its members in insertion order; [unique] is the result array. *)
Definition enumBody (allowedSizes : list Z) (cor : Corona)
           (st : list string * list Corona) : Completion (list string * list Corona) :=
  let (seen, unique) := st in
  match validate cor allowedSizes with
  | Raised e => Raised e
  | Normal r =>
      if negb (ok r) then Normal st
      else
        let key := canonicalRotationEdges (edges cor) in
        if existsb (String.eqb key) seen then Normal st
        else Normal (seen ++ [key], unique ++ [cor])
  end.

(** [enumerateUniqueCoronasCenter1(): Corona[]] *)
Definition enumerateUniqueCoronasCenter1 : Completion (list Corona) :=
  let c := Int 1 in
  let allowedSizes := [1; 2; 3; 4] in
  match
    forEach edgeChoices (fun e0 =>
    forEach edgeChoices (fun e1 =>
    forEach edgeChoices (fun e2 =>
    forEach edgeChoices (fun e3 =>
      enumBody allowedSizes (mkCorona c [e0; e1; e2; e3]))))) ([], [])
  with
  | Normal (_, unique) => Normal unique
  | Raised e => Raised e
  end.

(* ================================================================= *)
(** ** Arrays as objects *)

(** The functions above treat arrays as values.  To say that a call leaves
    the caller's arrays alone, this part runs the same code on a store of
    array objects.  An array the caller passes in, or one the code sorts in
    place or pushes to, is an object; a reference is its index in the store,
    and [new] objects are added at the end.  Arrays that an expression builds
    and the code only reads stay values. *)
Module Objects.

Definition loc : Type := nat.

Inductive object : Type :=
| SegArray (segs : list EdgeSeg)
| EdgeArray (es : list loc)
| StringArray (strs : list string)
| NumberArray (nums : list Z).

Definition heap : Type := list object.

(** [class Corona]: two read-only fields, the second a reference to the
    array of references to the edge arrays. *)
Record CoronaObj : Type := mkCoronaObj {
  centerOf : number;
  edgesRef : loc
}.

(** A block that runs on the store. *)
Definition Run (R A : Type) : Type := heap -> Control R A * heap.

Definition ret {R A} (a : A) : Run R A := fun h => (Next a, h).

(** A block that does not touch the store. *)
Definition pure {R A} (m : Control R A) : Run R A := fun h => (m, h).

Definition bindH {R A B} (m : Run R A) (k : A -> Run R B) : Run R B :=
  fun h =>
    match m h with
    | (Next a, h') => k a h'
    | (Return r, h') => (Return r, h')
    | (Throw e, h') => (Throw e, h')
    end.

Notation "x <~ m ;; k" := (bindH m (fun x => k))
  (at level 61, m at next level, right associativity).
Notation "m ~;; k" := (bindH m (fun _ => k))
  (at level 61, right associativity).

Definition runCall {R} (body : Run R R) (h : heap) : Completion R * heap :=
  let (m, h') := body h in (call m, h').

(** A new array object. *)
Definition allocate {R} (o : object) : Run R loc :=
  fun h => (Next (List.length h), h ++ [o]).

(** Overwriting the contents of an array object. *)
Fixpoint update (h : heap) (l : loc) (o : object) : heap :=
  match h, l with
  | [], _ => []
  | _ :: rest, O => o :: rest
  | x :: rest, S l' => x :: update rest l' o
  end.

Definition store {R} (l : loc) (o : object) : Run R unit :=
  fun h => (Next tt, update h l o).

(** Reading the elements of an array of a given element type. *)
Definition getSegs {R} (l : loc) : Run R (list EdgeSeg) :=
  fun h => match nth_error h l with
           | Some (SegArray segs) => (Next segs, h)
           | _ => (Throw TypeError, h)
           end.

Definition getEdges {R} (l : loc) : Run R (list loc) :=
  fun h => match nth_error h l with
           | Some (EdgeArray es) => (Next es, h)
           | _ => (Throw TypeError, h)
           end.

Definition getStrings {R} (l : loc) : Run R (list string) :=
  fun h => match nth_error h l with
           | Some (StringArray strs) => (Next strs, h)
           | _ => (Throw TypeError, h)
           end.

Definition getNumbers {R} (l : loc) : Run R (list Z) :=
  fun h => match nth_error h l with
           | Some (NumberArray nums) => (Next nums, h)
           | _ => (Throw TypeError, h)
           end.

(** [[...a]]: a new array with the elements of [a]. *)
Definition spread {R} (a : loc) : Run R loc :=
  segs <~ getSegs a ;;
  allocate (SegArray segs).

(** [a.sort(cmp)]: sorts [a] in place and answers [a] itself. *)
Definition sortInPlace {R} (cmp : EdgeSeg -> EdgeSeg -> Z) (a : loc) : Run R loc :=
  segs <~ getSegs a ;;
  store a (SegArray (sortBy cmp segs)) ~;;
  ret a.

(** [keys.sort()] *)
Definition sortStringsInPlace {R} (a : loc) : Run R loc :=
  strs <~ getStrings a ;;
  store a (StringArray (sortBy byCodeUnits strs)) ~;;
  ret a.

(** [a.push(x)] *)
Definition pushString {R} (a : loc) (x : string) : Run R unit :=
  strs <~ getStrings a ;;
  store a (StringArray (strs ++ [x])).

(** [Corona.validate], on objects *)
Section Validate.
Variable c : Z.
Variable allowedSizes : list Z.

Definition checkEdge (ei : nat) (edge : loc) : Run ValidationResult unit :=
  elems <~ getSegs edge ;;
  pure (returnIf (List.length elems =? 0)%nat
                 (failure "edge empty" (Some (WhereEdge ei)))) ~;;
  copy <~ spread edge ;;
  sorted <~ sortInPlace byOffsetThenSize copy ;;
  segs <~ getSegs sorted ;;
  pure (checkSorted c allowedSizes ei segs).

Fixpoint checkEdges (ei : nat) (es : list loc) : Run ValidationResult unit :=
  match es with
  | [] => ret tt
  | edge :: rest => checkEdge ei edge ~;; checkEdges (S ei) rest
  end.

(** One round of the corner loop; [lastSegSizes] is the array the round
    pushes to. *)
Definition cornerStep (es : list loc) (lastSegSizes : loc) (hasCornerGap : bool) (ei : nat)
  : Run ValidationResult bool :=
  edge <~ pure (at_ es ei) ;;
  nextEdge <~ pure (at_ es ((ei + 1) mod 4)%nat) ;;
  copy <~ spread edge ;;
  sorted <~ sortInPlace byOffset copy ;;
  nextCopy <~ spread nextEdge ;;
  nextSorted <~ sortInPlace byOffset nextCopy ;;
  segs <~ getSegs sorted ;;
  nextSegs <~ getSegs nextSorted ;;
  sizes <~ getNumbers lastSegSizes ;;
  st <~ pure (cornerRead c (hasCornerGap, sizes) segs nextSegs) ;;
  store lastSegSizes (NumberArray (snd st)) ~;;
  ret (fst st).

Fixpoint cornerLoop (es : list loc) (lastSegSizes : loc) (hasCornerGap : bool)
         (eis : list nat) : Run ValidationResult bool :=
  match eis with
  | [] => ret hasCornerGap
  | ei :: rest =>
      g <~ cornerStep es lastSegSizes hasCornerGap ei ;;
      cornerLoop es lastSegSizes g rest
  end.

Definition validateBody (edgesLoc : loc) : Run ValidationResult ValidationResult :=
  es <~ getEdges edgesLoc ;;
  pure (returnIf (negb (List.length es =? 4)%nat)
                 (failure "edges must have length 4" None)) ~;;
  checkEdges 0 es ~;;
  lastSegSizes <~ allocate (NumberArray []) ;;
  hasCornerGap <~ cornerLoop es lastSegSizes false [0; 1; 2; 3]%nat ;;
  sizes <~ getNumbers lastSegSizes ;;
  pure (cornerVerdict (hasCornerGap, sizes)) ~;;
  pure (Return success).
End Validate.

Definition validate (cor : CoronaObj) (allowedSizes : list Z) (h : heap)
  : Completion ValidationResult * heap :=
  let c := centerOf cor in
  if negb (Number_isInteger c) || (integerOf c <=? 0)
  then (Normal (failure "center must be a positive integer" None), h)
  else runCall (validateBody (integerOf c) allowedSizes (edgesRef cor)) h.

(** [canonicalRotationEdges], on objects *)
Definition edgeKey (e : loc) : Run string string :=
  copy <~ spread e ;;
  sorted <~ sortInPlace byOffsetThenSize copy ;;
  segs <~ getSegs sorted ;;
  ret (JSON_stringify (map (fun seg => [size seg; offset seg]) segs)).

(** [rot.map(e => edgeKey(e))] *)
Fixpoint edgeKeys (rot : list loc) : Run string (list string) :=
  match rot with
  | [] => ret []
  | e :: rest =>
      key <~ edgeKey e ;;
      keys <~ edgeKeys rest ;;
      ret (key :: keys)
  end.

Fixpoint rotationLoop (es : list loc) (keys : loc) (ks : list nat) : Run string unit :=
  match ks with
  | [] => ret tt
  | k :: rest =>
      let rot := rotation k es in
      parts <~ edgeKeys rot ;;
      let rotKey := join ";" parts in
      pushString keys rotKey ~;;
      rotationLoop es keys rest
  end.

Definition canonicalRotationEdges (edgesLoc : loc) (h : heap) : Completion string * heap :=
  runCall (
    es <~ getEdges edgesLoc ;;
    keys <~ allocate (StringArray []) ;;
    rotationLoop es keys [0; 1; 2; 3]%nat ~;;
    sorted <~ sortStringsInPlace keys ;;
    strs <~ getStrings sorted ;;
    pure (Return (nth 0 strs EmptyString))) h.

(** The store holds the corona value [v] at the object [cor]: the edges
    array holds references to arrays with the segments of [v]'s edges.  Two
    edges may be one and the same array. *)
Definition holdsEdge (h : heap) (l : loc) (edge : list EdgeSeg) : Prop :=
  nth_error h l = Some (SegArray edge).

Definition holds (h : heap) (cor : CoronaObj) (v : Corona) : Prop :=
  centerOf cor = center v /\
  exists ls, nth_error h (edgesRef cor) = Some (EdgeArray ls) /\
             Forall2 (holdsEdge h) ls (edges v).

(** Every object of [h] is in [h'], with the same contents. *)
Definition unchanged (h h' : heap) : Prop :=
  forall l o, nth_error h l = Some o -> nth_error h' l = Some o.

End Objects.

(* ================================================================= *)
(** ** The specification's vocabulary *)

(** Adjacent elements are in the comparator's order. *)
Definition ordered {A : Type} (cmp : A -> A -> Z) : list A -> Prop :=
  Sorted (fun a b => cmp a b <= 0).

(** The order the comparator [byOffsetThenSize] stands for:
    [(offset, size)] ascending. *)
Definition offsetSizeLe (a b : EdgeSeg) : Prop :=
  offset a < offset b \/ (offset a = offset b /\ size a <= size b).


(** First and last element of an array; [noSeg] stands for [undefined]. *)
Definition noSeg : EdgeSeg := mkSeg 0 0.
Definition firstOf (segs : list EdgeSeg) : EdgeSeg := hd noSeg segs.
Definition lastOf (segs : list EdgeSeg) : EdgeSeg := last segs noSeg.


(** A relation that holds between every two consecutive elements. *)
Fixpoint consecutive {A : Type} (R : A -> A -> Prop) (l : list A) : Prop :=
  match l with
  | a :: (b :: _) as rest => R a b /\ consecutive R rest
  | _ => True
  end.

Fixpoint consecutiveb {A : Type} (f : A -> A -> bool) (l : list A) : bool :=
  match l with
  | a :: (b :: _) as rest => f a b && consecutiveb f rest
  | _ => true
  end.

(** The edge-local rules 3a to 3g of the validator, on the edge's segments
    sorted by [(offset, size)]. *)
Definition EdgePasses (c : Z) (allowedSizes : list Z) (edge : list EdgeSeg) : Prop :=
  let segs := sortBy byOffsetThenSize edge in
  edge <> [] /\
  Forall (fun s => In (size s) allowedSizes /\ 0 < size s /\ 0 <= offset s <= c) segs /\
  Forall (fun s => ~ (size s = c /\ offset s = 0)) segs /\
  consecutive (fun a b => size a <> size b) segs /\
  offset (firstOf segs) = 0 /\
  consecutive (fun a b => offset b = offset a + size a) segs /\
  c <= offset (lastOf segs) + size (lastOf segs).

(** The quantities of the corner rule, on the edge's segments sorted by
    offset. *)
Definition overhang (c : Z) (edge : list EdgeSeg) : Z :=
  let lastSegment := lastOf (sortBy byOffset edge) in
  offset lastSegment + size lastSegment - c.

Definition firstSegmentSize (edge : list EdgeSeg) : Z :=
  size (firstOf (sortBy byOffset edge)).

Definition lastSegmentSize (edge : list EdgeSeg) : Z :=
  size (lastOf (sortBy byOffset edge)).

(** Edge [i] of a corona, and its cyclic successor. *)
Definition edgeAt (es : list (list EdgeSeg)) (i : nat) : list EdgeSeg := nth i es [].
Definition nextEdgeAt (es : list (list EdgeSeg)) (i : nat) : list EdgeSeg :=
  nth ((i + 1) mod 4) es [].

(** Corner [i] has a 1x1 gap. *)
Definition cornerGapAt (c : Z) (es : list (list EdgeSeg)) (i : nat) : Prop :=
  overhang c (edgeAt es i) = 1 /\ firstSegmentSize (nextEdgeAt es i) = 1.

Definition lastSizesIdentical (es : list (list EdgeSeg)) : Prop :=
  forall i j, (i < 4)%nat -> (j < 4)%nat ->
              lastSegmentSize (edgeAt es i) = lastSegmentSize (edgeAt es j).

(** *** Checks as a list, in the order they are evaluated *)

(** A check passes ([None]) or fails with a reason. *)
Definition failsWith (passes : bool) (why : string) : option string :=
  if passes then None else Some why.

Fixpoint firstFailure (checks : list (option string)) : option string :=
  match checks with
  | [] => None
  | Some why :: _ => Some why
  | None :: rest => firstFailure rest
  end.

Definition centerCheck (n : number) : option string :=
  failsWith (match n with Int z => 0 <? z | _ => false end)
            "center must be a positive integer".

Definition countCheck (es : list (list EdgeSeg)) : option string :=
  failsWith (List.length es =? 4)%nat "edges must have length 4".

Definition nonEmptyCheck (edge : list EdgeSeg) : option string :=
  failsWith (negb (List.length edge =? 0)%nat) "edge empty".

Definition sizeCheck (allowedSizes : list Z) (s : EdgeSeg) : option string :=
  failsWith (includes allowedSizes (size s) && (0 <? size s)) "invalid segment size".

Definition offsetCheck (c : Z) (s : EdgeSeg) : option string :=
  failsWith ((0 <=? offset s) && (offset s <=? c)) "offset out of range".

Definition alignedCheck (c : Z) (s : EdgeSeg) : option string :=
  failsWith (negb ((size s =? c) && (offset s =? 0)))
            "not unilateral (center-sized aligned)".

Definition adjacentCheck (segs : list EdgeSeg) : option string :=
  failsWith (consecutiveb (fun a b => negb (size a =? size b)) segs)
            "not unilateral (equal adjacent sizes)".

Definition startCheck (segs : list EdgeSeg) : option string :=
  failsWith (offset (firstOf segs) =? 0) "edge does not start at 0".

Definition walkCheck (segs : list EdgeSeg) : option string :=
  failsWith (consecutiveb (fun a b => offset b =? offset a + size a) segs)
            "invalid edge walk".

Definition reachCheck (c : Z) (segs : list EdgeSeg) : option string :=
  failsWith (c <=? offset (lastOf segs) + size (lastOf segs))
            "edge does not reach center length".

Definition cornerGapb (c : Z) (es : list (list EdgeSeg)) (i : nat) : bool :=
  (overhang c (edgeAt es i) =? 1) && (firstSegmentSize (nextEdgeAt es i) =? 1).

Definition anyCornerGap (c : Z) (es : list (list EdgeSeg)) : bool :=
  existsb (cornerGapb c es) [0; 1; 2; 3]%nat.

Definition lastSizesSame (es : list (list EdgeSeg)) : bool :=
  forallb (fun i => lastSegmentSize (edgeAt es i) =? lastSegmentSize (edgeAt es 0))
          [0; 1; 2; 3]%nat.

Definition cornerCheck (c : Z) (es : list (list EdgeSeg)) : option string :=
  failsWith (negb (anyCornerGap c es) || lastSizesSame es)
            "1x1 corner gap with asymmetric edges".

(** The checks of one edge as the code runs them: the three per-segment
    checks are made segment by segment. *)
Definition edgeChecks (c : Z) (allowedSizes : list Z) (edge : list EdgeSeg)
  : list (option string) :=
  let segs := sortBy byOffsetThenSize edge in
  nonEmptyCheck edge
  :: flat_map (fun s => [sizeCheck allowedSizes s; offsetCheck c s; alignedCheck c s]) segs
  ++ [adjacentCheck segs; startCheck segs; walkCheck segs; reachCheck c segs].

Definition checksAsEvaluated (cor : Corona) (allowedSizes : list Z) : list (option string) :=
  let c := integerOf (center cor) in
  centerCheck (center cor) :: countCheck (edges cor)
  :: flat_map (edgeChecks c allowedSizes) (edges cor)
  ++ [cornerCheck c (edges cor)].

(** The checks of one edge in the order the specification lists them in
    section 4.1: (a), then (b) for every segment, then (c) for every segment,
    then (d) to (g). *)
Definition edgeChecksAsListed (c : Z) (allowedSizes : list Z) (edge : list EdgeSeg)
  : list (option string) :=
  let segs := sortBy byOffsetThenSize edge in
  nonEmptyCheck edge
  :: flat_map (fun s => [sizeCheck allowedSizes s; offsetCheck c s]) segs
  ++ map (alignedCheck c) segs
  ++ [adjacentCheck segs; startCheck segs; walkCheck segs; reachCheck c segs].

Definition checksAsListed (cor : Corona) (allowedSizes : list Z) : list (option string) :=
  let c := integerOf (center cor) in
  centerCheck (center cor) :: countCheck (edges cor)
  :: flat_map (edgeChecksAsListed c allowedSizes) (edges cor)
  ++ [cornerCheck c (edges cor)].

(** A block of the validator agrees with a check: it falls through when the
    check passes and returns [ok: false] with the check's reason when it
    fails. *)
Definition agrees {A : Type} (m : Control ValidationResult A) (chk : option string) : Prop :=
  match m, chk with
  | Next _, None => True
  | Return r, Some why => ok r = false /\ reason r = Some why
  | _, _ => False
  end.

(** The verdict of a call is the one of the first failing check. *)
Definition verdictOf (checks : list (option string)) (r : ValidationResult) : Prop :=
  match firstFailure checks with
  | None => r = success
  | Some why => ok r = false /\ reason r = Some why
  end.

(** The corona of the ordering example: its first segment is center-sized
    and aligned, its second has a size that is not allowed. *)
Definition misorderedCorona : Corona :=
  mkCorona (Int 2) [[mkSeg 2 0; mkSeg 5 2]; [mkSeg 3 0]; [mkSeg 3 0]; [mkSeg 3 0]].

(** Four single-segment edges for the corona with center 0. *)
Definition zeroCenterEdges : list (list EdgeSeg) :=
  [[mkSeg 2 0]; [mkSeg 2 0]; [mkSeg 2 0]; [mkSeg 2 0]].

Definition cornerReason : string := "1x1 corner gap with asymmetric edges".


(** *** Vocabulary for the compact notation *)

(** Every character of a string is in a class. *)
Fixpoint allChars (p : ascii -> bool) (s : string) : bool :=
  match s with
  | EmptyString => true
  | String ch rest => p ch && allChars p rest
  end.

Definition notChar (sep : ascii) (ch : ascii) : bool := negb (Ascii.eqb ch sep).
Definition notSpace (ch : ascii) : bool := negb (isSpace ch).

(** The characters of a token: digits, minus sign, caret. *)
Definition isTokenChar (ch : ascii) : bool :=
  isDigit ch || Ascii.eqb ch "-" || Ascii.eqb ch "^".

(** Neither a separator nor white space. *)
Definition isPlain (ch : ascii) : bool :=
  notChar "|" ch && notChar "," ch && notSpace ch.

(** The pattern of a segment token in words: digits, a caret, an optional
    minus sign, digits. *)
Definition allDigits (s : string) : Prop := s <> EmptyString /\ allChars isDigit s = true.

Definition SegPattern (tok : string) : Prop :=
  exists ds sign ds',
    tok = (ds ++ "^" ++ sign ++ ds')%string /\
    allDigits ds /\ (sign = EmptyString \/ sign = "-") /\ allDigits ds'.

(** The tokens of the four edge parts of a split input. *)
Definition edgeTokens (parts : list string) : list string :=
  flat_map (split ",") (skipn 1 parts).

(** Coronas the compact notation can carry: an integer or [NaN] center,
    four non-empty edges, no negative size. *)
Definition Representable (cor : Corona) : Prop :=
  (center cor = NaN \/ exists z, center cor = Int z) /\
  List.length (edges cor) = 4%nat /\
  Forall (fun edge => edge <> [] /\ Forall (fun s => 0 <= size s) edge) (edges cor).

(** Well-formed segment data in the words of the round-trip law: a positive
    integer center, four non-empty edges, positive sizes. *)
Definition WellFormed (cor : Corona) : Prop :=
  (exists z, center cor = Int z /\ 0 < z) /\
  List.length (edges cor) = 4%nat /\
  Forall (fun edge => edge <> [] /\ Forall (fun s => 0 < size s) edge) (edges cor).

(** Every edge is already sorted by [(offset, size)]. *)
Definition SortedEdges (cor : Corona) : Prop :=
  Forall (ordered byOffsetThenSize) (edges cor).

(** The corona with each edge sorted. *)
Definition sortedCorona (cor : Corona) : Corona :=
  mkCorona (center cor) (map (sortBy byOffsetThenSize) (edges cor)).

(** [toCompact(fromCompact(t))] is [t]. *)
Definition RoundTrips (t : string) : Prop :=
  exists cor, fromCompact t = Normal cor /\ toCompact cor = t.

(** A string that does not go on with a digit. *)
Definition stopsDigits (s : string) : bool :=
  match s with
  | EmptyString => true
  | String ch _ => negb (isDigit ch)
  end.

(** The token matches the segment pattern. *)
Definition matches (tok : string) : bool :=
  match matchSegPat tok with
  | Some _ => true
  | None => false
  end.

(** *** Vocabulary for the enumeration *)

(** The 81 combinations of edge choices, in the order of the four loops. *)
Definition candidates : list Corona :=
  flat_map (fun e0 =>
  flat_map (fun e1 =>
  flat_map (fun e2 =>
  map (fun e3 => mkCorona (Int 1) [e0; e1; e2; e3]) edgeChoices)
  edgeChoices) edgeChoices) edgeChoices.

Definition keyOf (cor : Corona) : string := canonicalRotationEdges (edges cor).

(** The elements whose key no earlier element has, in their order. *)
Fixpoint firstEncountered {A : Type} (key : A -> string) (seen : list string) (l : list A)
  : list A :=
  match l with
  | [] => []
  | x :: rest =>
      if existsb (String.eqb (key x)) seen then firstEncountered key seen rest
      else x :: firstEncountered key (key x :: seen) rest
  end.

Fixpoint distinctb (l : list string) : bool :=
  match l with
  | [] => true
  | x :: rest => negb (existsb (String.eqb x) rest) && distinctb rest
  end.

(** The corona of the reflection example and its mirror image. *)
Definition chiralCorona : Corona :=
  mkCorona (Int 1) [[mkSeg 2 0]; [mkSeg 3 0]; [mkSeg 4 0]; [mkSeg 2 0]].

Definition mirrored (cor : Corona) : Corona :=
  mkCorona (center cor) (rev (edges cor)).

(** *** Vocabulary for the store *)

(** Every object of [h] other than [l] is in [h'], with the same contents. *)
Definition unchangedBut (l : Objects.loc) (h h' : Objects.heap) : Prop :=
  forall l' o, l' <> l -> nth_error h l' = Some o -> nth_error h' l' = Some o.

(** The first component of a block's outcome. *)
Definition mapNext {R A B} (f : A -> B) (m : Control R A) : Control R B :=
  match m with
  | Next a => Next (f a)
  | Return r => Return r
  | Throw e => Throw e
  end.

Definition isSuccess (c : Completion ValidationResult) : bool :=
  match c with
  | Normal (mkResult true None None) => true
  | _ => false
  end.

(** A store with a corona whose first edge is not sorted and whose other
    three edges are one and the same array. *)
Definition sharedStore : Objects.heap :=
  [Objects.SegArray [mkSeg 2 1; mkSeg 1 0];
   Objects.SegArray [mkSeg 3 0];
   Objects.EdgeArray [0; 1; 1; 1]%nat].

Definition sharedCorona : Objects.CoronaObj := Objects.mkCoronaObj (Int 2) 2%nat.

Definition sharedValue : Corona :=
  mkCorona (Int 2) [[mkSeg 2 1; mkSeg 1 0]; [mkSeg 3 0]; [mkSeg 3 0]; [mkSeg 3 0]].

(* ================================================================= *)
(** ** Where integer arithmetic is the program's arithmetic *)

(** The embedding adds, subtracts and prints integers exactly.  The program
    works on doubles: a sum or difference of integers is the exact one when
    it is a safe integer, and [toString], template literals and
    [JSON.stringify] write an integer digit by digit below 1e21, which every
    safe integer is; [parseInt] reads digits that denote a safe integer
    exactly.  The properties that depend on the value of a sum or on the
    digits of a number are stated for the inputs below. *)

(** [Number.MAX_SAFE_INTEGER], 2^53 - 1. *)
Definition maxSafeInteger : Z := 9007199254740991.

(** [Number.isSafeInteger], on integers. *)
Definition safeInteger (z : Z) : Prop := - maxSafeInteger <= z <= maxSafeInteger.

(** The numbers [validate] computes from a segment around a center of side
    [c]: [offset + size] in the walk and the reach check, and
    [offset + size - c] in the corner step. *)
Definition safeSeg (c : Z) (s : EdgeSeg) : Prop :=
  safeInteger (size s) /\ safeInteger (offset s) /\
  safeInteger (offset s + size s) /\ safeInteger (offset s + size s - c).

(** Every number [validate] reads or computes is a safe integer. *)
Definition SafeSegments (c : Z) (es : list (list EdgeSeg)) : Prop :=
  safeInteger c /\ Forall (Forall (safeSeg c)) es.

(** The same for a corona; a center that is not an integer is rejected
    before anything is computed. *)
Definition ExactFor (cor : Corona) : Prop :=
  match center cor with
  | Int c => SafeSegments c (edges cor)
  | _ => True
  end.

(** Every integer of the corona is a safe integer, so it is written digit
    by digit and read back exactly. *)
Definition SafeNumbers (cor : Corona) : Prop :=
  match center cor with
  | Int c => safeInteger c
  | _ => True
  end /\
  Forall (Forall (fun s => safeInteger (size s) /\ safeInteger (offset s))) (edges cor).

(* ================================================================= *)
(** ** Vocabulary for further properties *)

(** The conditions under which the validator accepts four edges around a
    center of side [c]. *)
Definition Accepted (c : Z) (allowedSizes : list Z) (es : list (list EdgeSeg)) : Prop :=
  0 < c /\
  List.length es = 4%nat /\
  Forall (EdgePasses c allowedSizes) es /\
  (anyCornerGap c es = false \/ lastSizesSame es = true).

(** A result of [validate] as the copy without the corner step gives it:
    the corner step's failure becomes a success. *)
Definition withoutCornerRule (r : ValidationResult) : ValidationResult :=
  match reason r with
  | Some why => if String.eqb why cornerReason then success else r
  | None => r
  end.

(** Equality of segments and of lists, as a test. *)
Definition segEqb (a b : EdgeSeg) : bool :=
  (size a =? size b) && (offset a =? offset b).

Fixpoint listEqb {A : Type} (eqb : A -> A -> bool) (l1 l2 : list A) : bool :=
  match l1, l2 with
  | [], [] => true
  | x :: r1, y :: r2 => eqb x y && listEqb eqb r1 r2
  | _, _ => false
  end.

Definition edgesEqb : list (list EdgeSeg) -> list (list EdgeSeg) -> bool :=
  listEqb (listEqb segEqb).

(** Some rotation of [es'] by fewer than four places is [es]. *)
Definition isRotationOf (es es' : list (list EdgeSeg)) : bool :=
  existsb (fun k => edgesEqb es (rotation k es')) [0; 1; 2; 3]%nat.

(** The key of the rotation by [k]: what the loop of
    [canonicalRotationEdges] pushes in round [k]. *)
Definition rotKey (es : list (list EdgeSeg)) (k : nat) : string :=
  join ";" (map edgeKey (rotation k es)).

(** The text of one pair [[size, offset]] and of a sequence of pairs, as
    [JSON.stringify] writes them. *)
Definition pairText (s : EdgeSeg) : string :=
  ("[" ++ Z_toString (size s) ++ "," ++ Z_toString (offset s) ++ "]")%string.

Definition bodyText (segs : list EdgeSeg) : string := join "," (map pairText segs).

(** What follows the first pair of a sequence, up to the closing bracket. *)
Definition tailText (rest : list EdgeSeg) (t : string) : string :=
  match rest with
  | [] => String "]" t
  | _ :: _ => String "," (bodyText rest ++ String "]" t)
  end.

(** The characters of a key of an edge. *)
Definition isKeyChar (ch : ascii) : bool :=
  isTokenChar ch || Ascii.eqb ch "[" || Ascii.eqb ch "]" || Ascii.eqb ch ",".

(** The first token, in reading order, that does not match the segment
    pattern. *)
Definition firstBadToken (toks : list string) : option string :=
  find (fun tok => negb (matches tok)) toks.

(** The segment lies over the unit of the side that starts at [p]. *)
Definition covers (s : EdgeSeg) (p : Z) : Prop :=
  offset s <= p < offset s + size s.

(** The sizes of an edge's segments, added up. *)
Definition totalSize (edge : list EdgeSeg) : Z :=
  fold_right (fun s acc => size s + acc) 0 edge.

(* ================================================================= *)
(** ** loadCoronasFromFile and the data the generator saves *)

(** A value [JSON.parse] returns.  The fields of an object are its own
    properties, each key once. *)
#[warnings="-register-all"] Inductive Json : Type :=
| JNull
| JBool (b : bool)
| JNumber (n : number)
| JString (s : string)
| JArray (items : list Json)
| JObject (fields : list (string * Json)).

(** [fields[name]], [None] for [undefined]. *)
Fixpoint lookupField (name : string) (fields : list (string * Json)) : option Json :=
  match fields with
  | [] => None
  | (key, v) :: rest => if String.eqb key name then Some v else lookupField name rest
  end.

(** [v[name]] on a value that is not [null]. *)
Definition getField (name : string) (v : Json) : option Json :=
  match v with
  | JObject fields => lookupField name fields
  | _ => None
  end.

(** [data.coronas]: reading a property of [null] throws; a value that is
    not an object with that field gives [undefined]. *)
Definition getCoronas (data : Json) : Completion (option Json) :=
  match data with
  | JNull => Raised TypeError
  | _ => Normal (getField "coronas" data)
  end.

(** [Corona.fromCompact(compact)] on an element of the parsed array:
    [s.trim()] throws a [TypeError] unless [s] is a string. *)
Definition fromCompactJson (compact : Json) : Completion Corona :=
  match compact with
  | JString s => fromCompact s
  | _ => Raised TypeError
  end.

(** [items.map(f)], element by element; the first fault ends it. *)
Fixpoint mapItems (f : Json -> Completion Corona) (items : list Json)
  : Completion (list Corona) :=
  match items with
  | [] => Normal []
  | item :: rest =>
      match f item with
      | Raised e => Raised e
      | Normal cor =>
          match mapItems f rest with
          | Raised e => Raised e
          | Normal cors => Normal (cor :: cors)
          end
      end
  end.

(** [data.coronas.map(...)]: only an array has a [map] to call. *)
Definition mapCoronas (v : option Json) : Completion (list Corona) :=
  match v with
  | Some (JArray items) => mapItems fromCompactJson items
  | _ => Raised TypeError
  end.

(** The [try] block, given the outcome [parsed] of
    [JSON.parse(fs.readFileSync(filename, 'utf-8'))]. *)
Definition loadBody (parsed : Completion Json) : Completion (list Corona) :=
  match parsed with
  | Raised e => Raised e
  | Normal data =>
      match getCoronas data with
      | Raised e => Raised e
      | Normal v => mapCoronas v
      end
  end.

(** [loadCoronasFromFile(filename): Corona[]]: the array returned and the
    fault written with [console.error], if any. *)
Definition loadCoronasFromFile (parsed : Completion Json) : list Corona * option Error :=
  match loadBody parsed with
  | Normal cors => (cors, None)
  | Raised e => ([], Some e)
  end.

(** [outputData] of the generator's [main], with [generated] for
    [new Date().toISOString()]. *)
Definition outputData (generated : string) (coronas : list Corona) : Json :=
  JObject [("center", JNumber (Int 1));
           ("count", JNumber (Int (Z.of_nat (List.length coronas))));
           ("generated", JString generated);
           ("coronas", JArray (map (fun c => JString (toCompact c)) coronas))].

(** An element of the array is the notation of a corona. *)
Definition ReadsAs (item : Json) (cor : Corona) : Prop :=
  exists s, item = JString s /\ fromCompact s = Normal cor.

(* ================================================================= *)
(** ** drawCorona (web-app.js) *)

(** A rectangle as [fillRect] and [strokeRect] take it. *)
Record Rect : Type := mkRect { rx : Z; ry : Z; rw : Z; rh : Z }.

(** A call on the 2D context, with the style in force when it is made. *)
Inductive DrawOp : Type :=
| FillRect (fillStyle : string) (r : Rect)
| StrokeRect (strokeStyle : string) (lineWidth : Z) (r : Rect).

(** The canvas after the call: its size and the calls made on its context,
    in order. *)
Record Canvas : Type := mkCanvas { canvasWidth : Z; canvasHeight : Z; drawn : list DrawOp }.

Definition scale : Z := 20.
Definition padding : Z := 80.

(** [maxExtent = Math.max(maxExtent, seg.offset + seg.size)] over the
    segments of an edge. *)
Definition edgeExtent (maxExtent : Z) (edge : list EdgeSeg) : Z :=
  fold_left (fun m seg => Z.max m (offset seg + size seg)) edge maxExtent.

(** The two loops that compute [maxExtent], from [corona.center]. *)
Definition maxExtentOf (c : Z) (es : list (list EdgeSeg)) : Z :=
  fold_left edgeExtent es c.

(** [colors[seg.size] || '#999'] *)
Definition colorOf (sz : Z) : string :=
  if sz =? 1 then "#ffb74d"
  else if sz =? 2 then "#81c784"
  else if sz =? 3 then "#64b5f6"
  else if sz =? 4 then "#e57373"
  else "#999".

(** The [switch] on [edgeIdx]: the square of a segment; [None] is the
    [default] branch.  [centerSize] is a multiple of 20, so its half is
    exact. *)
Definition segRect (centerX centerY centerSize : Z) (edgeIdx : nat) (seg : EdgeSeg)
  : option Rect :=
  let size := size seg * scale in
  let offset := offset seg * scale in
  match edgeIdx with
  | 0%nat => Some (mkRect (centerX - centerSize / 2 + offset)
                          (centerY - centerSize / 2 - size) size size)
  | 1%nat => Some (mkRect (centerX + centerSize / 2)
                          (centerY - centerSize / 2 + offset) size size)
  | 2%nat => Some (mkRect (centerX + centerSize / 2 - offset - size)
                          (centerY + centerSize / 2) size size)
  | 3%nat => Some (mkRect (centerX - centerSize / 2 - size)
                          (centerY + centerSize / 2 - offset - size) size size)
  | _ => None
  end.

(** The calls made for one segment. *)
Definition segOps (centerX centerY centerSize : Z) (edgeIdx : nat) (seg : EdgeSeg)
  : list DrawOp :=
  match segRect centerX centerY centerSize edgeIdx seg with
  | Some r => [FillRect (colorOf (size seg)) r; StrokeRect "#333" 2 r]
  | None => []
  end.

(** The body of [for (const seg of sortedSegs)], on the calls made so far. *)
Definition drawSeg (centerX centerY centerSize : Z) (edgeIdx : nat)
           (ops : list DrawOp) (seg : EdgeSeg) : list DrawOp :=
  ops ++ segOps centerX centerY centerSize edgeIdx seg.

(** [for (let edgeIdx = 0; edgeIdx < 4; edgeIdx++)]: spreading
    [corona.edges[edgeIdx]] throws a [TypeError] when there is no such
    edge; the calls made before stay made. *)
Fixpoint drawEdges (centerX centerY centerSize : Z) (es : list (list EdgeSeg))
         (edgeIdxs : list nat) (ops : list DrawOp) : list DrawOp * option Error :=
  match edgeIdxs with
  | [] => (ops, None)
  | edgeIdx :: rest =>
      match nth_error es edgeIdx with
      | None => (ops, Some TypeError)
      | Some edge =>
          let sortedSegs := sortBy byOffset edge in
          drawEdges centerX centerY centerSize es rest
                    (fold_left (drawSeg centerX centerY centerSize edgeIdx) sortedSegs ops)
      end
  end.

(** [(maxExtent * 2 + corona.center) * scale + padding * 2], in integers:
    the double the source computes when this value is a safe integer. *)
Definition canvasSizeOf (c : Z) (es : list (list EdgeSeg)) : Z :=
  (maxExtentOf c es * 2 + c) * scale + padding * 2.

(** The square of the center. *)
Definition centerRect (c : Z) (es : list (list EdgeSeg)) : Rect :=
  let centerSize := c * scale in
  let canvasSize := canvasSizeOf c es in
  let centerX := canvasSize / 2 in
  let centerY := canvasSize / 2 in
  mkRect (centerX - centerSize / 2) (centerY - centerSize / 2) centerSize centerSize.

(** [drawCorona(corona, canvas)] for a corona with the integer center [c],
    on a canvas that gives a 2D context: the canvas afterwards and the fault
    thrown, if any.  [canvasSize] is even, so its half is exact. *)
Definition drawCorona (c : Z) (es : list (list EdgeSeg)) : Canvas * option Error :=
  let centerSize := c * scale in
  let canvasSize := canvasSizeOf c es in
  let centerX := canvasSize / 2 in
  let centerY := canvasSize / 2 in
  let ops := [FillRect "#f8f9fa" (mkRect 0 0 canvasSize canvasSize);
              FillRect "#667eea" (centerRect c es);
              StrokeRect "#333" 2 (centerRect c es)] in
  let (ops', fault) := drawEdges centerX centerY centerSize es [0; 1; 2; 3]%nat ops in
  (mkCanvas canvasSize canvasSize ops', fault).

(** *** Vocabulary for the drawing *)

Definition rectOf (op : DrawOp) : Rect :=
  match op with
  | FillRect _ r => r
  | StrokeRect _ _ r => r
  end.

(** The rectangle lies in the square from [lo] to [hi] in both directions. *)
Definition within (lo hi : Z) (r : Rect) : Prop :=
  lo <= rx r /\ rx r + rw r <= hi /\ lo <= ry r /\ ry r + rh r <= hi.

(** The interiors of two rectangles do not meet. *)
Definition apart (a b : Rect) : Prop :=
  rx a + rw a <= rx b \/ rx b + rw b <= rx a \/
  ry a + rh a <= ry b \/ ry b + rh b <= ry a.

(** The rectangles filled after the canvas was cleared. *)

(** The rectangles a list of calls fills. *)
Definition fills (ops : list DrawOp) : list Rect :=
  flat_map (fun op => match op with
                      | FillRect _ r => [r]
                      | StrokeRect _ _ _ => []
                      end) ops.

(** The rectangles filled after the canvas was cleared. *)
Definition filled (cv : Canvas) : list Rect := fills (skipn 1 (drawn cv)).

(** The largest value the [width] and [height] attributes of a canvas
    hold (an unsigned long limited to 2^31 - 1).  For a center and segments
    that are not negative, every coordinate [drawCorona] computes lies
    between 0 and the canvas size, so up to this size they are safe integers
    and the source's double arithmetic is the integer one. *)
Definition maxCanvasSize : Z := 2147483647.

(** Segments with no negative size or offset. *)
Definition Placed (es : list (list EdgeSeg)) : Prop :=
  Forall (Forall (fun s => 0 <= offset s /\ 0 <= size s)) es.

(** Where the squares of side [edgeIdx] go, around a center square from
    [centerX - half] to [centerX + half] and from [centerY - half] to
    [centerY + half]: above it and not left of its left side, right of it
    and not above its top, below it and not right of its right side, left of
    it and not below its bottom. *)
Definition sideRegion (centerX centerY half : Z) (edgeIdx : nat) (r : Rect) : Prop :=
  match edgeIdx with
  | 0%nat => ry r + rh r <= centerY - half /\ centerX - half <= rx r
  | 1%nat => centerX + half <= rx r /\ centerY - half <= ry r
  | 2%nat => centerY + half <= ry r /\ rx r + rw r <= centerX + half
  | _ => rx r + rw r <= centerX - half /\ ry r + rh r <= centerY + half
  end.

(** The square drawn for a segment of side [edgeIdx]. *)
Definition squareOf (centerX centerY centerSize : Z) (edgeIdx : nat) (seg : EdgeSeg) : Rect :=
  match segRect centerX centerY centerSize edgeIdx seg with
  | Some r => r
  | None => mkRect 0 0 0 0
  end.

(* ================================================================= *)
(** ** Facts about the sort *)

Section SortFacts.
Context {A : Type} (cmp : A -> A -> Z).

Lemma insertBy_perm (x : A) (l : list A) : Permutation (x :: l) (insertBy cmp x l).
Proof.
  induction l as [|y l IH]; simpl.
  - apply Permutation_refl.
  - destruct (cmp x y <=? 0).
    + apply Permutation_refl.
    + eapply perm_trans; [apply perm_swap|]. apply perm_skip, IH.
Qed.

Lemma sortBy_perm (l : list A) : Permutation l (sortBy cmp l).
Proof.
  induction l as [|x l IH]; simpl.
  - apply perm_nil.
  - eapply perm_trans; [apply perm_skip, IH | apply insertBy_perm].
Qed.

Lemma sortBy_length (l : list A) : List.length (sortBy cmp l) = List.length l.
Proof. symmetry. apply Permutation_length, sortBy_perm. Qed.

Lemma sortBy_nil_iff (l : list A) : sortBy cmp l = [] <-> l = [].
Proof.
  split; intros H.
  - apply length_zero_iff_nil. rewrite <- sortBy_length, H. reflexivity.
  - subst. reflexivity.
Qed.

Lemma sortBy_ordered_id (l : list A) : ordered cmp l -> sortBy cmp l = l.
Proof.
  induction 1 as [|x l Hs IH Hh]; simpl; [reflexivity|].
  rewrite IH. destruct Hh as [|y l' Hxy]; simpl; [reflexivity|].
  apply Z.leb_le in Hxy. rewrite Hxy. reflexivity.
Qed.

Hypothesis cmp_total : forall a b, 0 < cmp a b -> cmp b a <= 0.

Lemma insertBy_ordered (x : A) (l : list A) : ordered cmp l -> ordered cmp (insertBy cmp x l).
Proof.
  induction 1 as [|y l Hs IH Hh]; simpl.
  - repeat constructor.
  - destruct (cmp x y <=? 0) eqn:E.
    + apply Z.leb_le in E. repeat constructor; assumption.
    + apply Z.leb_gt in E. constructor; [exact IH|].
      destruct Hh as [|z l' Hyz]; simpl.
      * constructor. apply cmp_total, E.
      * destruct (cmp x z <=? 0); constructor; [apply cmp_total, E | exact Hyz].
Qed.

Lemma sortBy_ordered (l : list A) : ordered cmp (sortBy cmp l).
Proof.
  induction l as [|x l IH]; simpl; [constructor | apply insertBy_ordered, IH].
Qed.

Lemma sortBy_idempotent (l : list A) : sortBy cmp (sortBy cmp l) = sortBy cmp l.
Proof. apply sortBy_ordered_id, sortBy_ordered. Qed.
End SortFacts.

Lemma byOffsetThenSize_total (a b : EdgeSeg) :
  0 < byOffsetThenSize a b -> byOffsetThenSize b a <= 0.
Proof.
  unfold byOffsetThenSize.
  destruct (Z.eqb_spec (offset a) (offset b)) as [E|E]; simpl.
  - rewrite E, Z.eqb_refl. simpl. lia.
  - destruct (Z.eqb_spec (offset b) (offset a)); simpl; lia.
Qed.

Lemma byOffsetThenSize_le (a b : EdgeSeg) :
  byOffsetThenSize a b <= 0 <-> offsetSizeLe a b.
Proof.
  unfold byOffsetThenSize, offsetSizeLe.
  destruct (Z.eqb_spec (offset a) (offset b)); simpl; lia.
Qed.

(* ================================================================= *)
(** ** First and last element of a sorted copy *)

Lemma at_first {R} (segs : list EdgeSeg) :
  segs <> [] -> @at_ R _ segs 0 = Next (firstOf segs).
Proof. destruct segs; [congruence | reflexivity]. Qed.

Lemma nth_error_last {A} (l : list A) (d : A) :
  l <> [] -> nth_error l (List.length l - 1) = Some (last l d).
Proof.
  induction l as [|x l IH]; [congruence|]. intros _.
  destruct l as [|y l]; [reflexivity|].
  assert (H : y :: l <> []) by discriminate. specialize (IH H).
  change (last (x :: y :: l) d) with (last (y :: l) d). rewrite <- IH.
  simpl. rewrite Nat.sub_0_r. reflexivity.
Qed.

Lemma at_last {R} (segs : list EdgeSeg) :
  segs <> [] -> @at_ R _ segs (List.length segs - 1) = Next (lastOf segs).
Proof. intros H. unfold at_, lastOf. rewrite (nth_error_last segs noSeg H). reflexivity. Qed.

(* ================================================================= *)
(** ** The validator on the scenarios of the test file *)

Example validate_2_3333 :
  validate (mkCorona (Int 2) [[mkSeg 3 0]; [mkSeg 3 0]; [mkSeg 3 0]; [mkSeg 3 0]]) defaultSizes
  = Normal success.
Proof. reflexivity. Qed.

Example validate_sym_gap :
  validate (mkCorona (Int 2) [[mkSeg 1 0; mkSeg 2 1]; [mkSeg 1 0; mkSeg 2 1];
                              [mkSeg 1 0; mkSeg 2 1]; [mkSeg 1 0; mkSeg 2 1]]) defaultSizes
  = Normal success.
Proof. reflexivity. Qed.

Example validate_asym_gap :
  validate (mkCorona (Int 2) [[mkSeg 1 0; mkSeg 2 1]; [mkSeg 1 0; mkSeg 2 1];
                              [mkSeg 1 0; mkSeg 4 1]; [mkSeg 1 0; mkSeg 4 1]]) defaultSizes
  = Normal (failure "1x1 corner gap with asymmetric edges"
                    (Some (WhereLastSegSizes [2; 2; 4; 4]))).
Proof. reflexivity. Qed.

Example validate_test_scenarios :
  validate (mkCorona (Int 2) [[mkSeg 2 0]; [mkSeg 2 0]; [mkSeg 2 0]; [mkSeg 2 0]]) defaultSizes
  = Normal (failure "not unilateral (center-sized aligned)" (Some (WhereSeg 0 (mkSeg 2 0))))
  /\ validate (mkCorona (Int 4) [[mkSeg 1 0]; [mkSeg 4 0]; [mkSeg 4 0]; [mkSeg 4 0]]) defaultSizes
     = Normal (failure "edge does not reach center length" (Some (WhereEdge 0)))
  /\ validate (mkCorona (Int 3) [[mkSeg 1 0; mkSeg 1 1; mkSeg 2 2]; [mkSeg 4 0]; [mkSeg 4 0];
                                 [mkSeg 4 0]]) defaultSizes
     = Normal (failure "not unilateral (equal adjacent sizes)"
                       (Some (WherePair 0 (mkSeg 1 0) (mkSeg 1 1))))
  /\ validate (mkCorona (Int 4) [[mkSeg 1 0; mkSeg 2 3]; [mkSeg 4 0]; [mkSeg 4 0]; [mkSeg 4 0]])
              defaultSizes
     = Normal (failure "invalid edge walk" (Some (WherePair 0 (mkSeg 1 0) (mkSeg 2 3))))
  /\ validate (mkCorona (Int 2) [[mkSeg 2 1]; [mkSeg 3 0]; [mkSeg 3 0]; [mkSeg 3 0]]) defaultSizes
     = Normal (failure "edge does not start at 0" (Some (WhereEdge 0)))
  /\ validate (mkCorona (Int 2) [[mkSeg 2 (-1)]; [mkSeg 2 0]; [mkSeg 2 0]; [mkSeg 2 0]])
              defaultSizes
     = Normal (failure "offset out of range" (Some (WhereSeg 0 (mkSeg 2 (-1)))))
  /\ validate (mkCorona (Int 1) [[mkSeg 2 0]; [mkSeg 2 0]; [mkSeg 2 0]]) defaultSizes
     = Normal (failure "edges must have length 4" None)
  /\ validate (mkCorona (Int 0) [[mkSeg 2 0]; [mkSeg 2 0]; [mkSeg 2 0]; [mkSeg 2 0]]) defaultSizes
     = Normal (failure "center must be a positive integer" None).
Proof. repeat split; reflexivity. Qed.

(** The copy without the corner step accepts the asymmetric corona. *)
Example validate_without_corner_rule :
  GenerateJs.validate (mkCorona (Int 2) [[mkSeg 1 0; mkSeg 2 1]; [mkSeg 1 0; mkSeg 2 1];
                                         [mkSeg 1 0; mkSeg 4 1]; [mkSeg 1 0; mkSeg 4 1]])
                      defaultSizes
  = Normal success.
Proof. reflexivity. Qed.

(* ================================================================= *)
(** ** The validator runs its checks in order *)

Lemma firstFailure_app (l1 l2 : list (option string)) :
  firstFailure (l1 ++ l2) =
  match firstFailure l1 with Some why => Some why | None => firstFailure l2 end.
Proof.
  induction l1 as [|[why|] l1 IH]; simpl; auto.
Qed.

Lemma firstFailure_None (l : list (option string)) :
  firstFailure l = None <-> Forall (fun chk => chk = None) l.
Proof.
  induction l as [|[why|] l IH]; simpl.
  - split; auto.
  - split; [discriminate | intros H; inversion H; discriminate].
  - rewrite IH. split; [auto | intros H; inversion H; auto].
Qed.

Lemma agrees_returnIf (passes : bool) (cond : bool) (why : string) (w : option Where) :
  cond = negb passes ->
  agrees (returnIf cond (failure why w)) (failsWith passes why).
Proof. intros ->. destruct passes; simpl; auto. Qed.

Lemma agrees_cons {A B} (m1 : Control ValidationResult A)
      (m2 : A -> Control ValidationResult B) (chk : option string)
      (l : list (option string)) :
  agrees m1 chk ->
  (forall a, m1 = Next a -> agrees (m2 a) (firstFailure l)) ->
  agrees (bind m1 m2) (firstFailure (chk :: l)).
Proof.
  destruct m1 as [a|r|e], chk as [why|]; simpl; try contradiction; auto.
Qed.

Lemma agrees_app {A B} (m1 : Control ValidationResult A)
      (m2 : A -> Control ValidationResult B) (l1 l2 : list (option string)) :
  agrees m1 (firstFailure l1) ->
  (forall a, m1 = Next a -> agrees (m2 a) (firstFailure l2)) ->
  agrees (bind m1 m2) (firstFailure (l1 ++ l2)).
Proof.
  rewrite firstFailure_app.
  destruct m1 as [a|r|e], (firstFailure l1) as [why|]; simpl; try contradiction; auto.
Qed.

Lemma agrees_single {A} (m : Control ValidationResult A) (chk : option string) :
  agrees m chk -> agrees m (firstFailure [chk]).
Proof. destruct chk; auto. Qed.

Lemma agrees_Next_iff {A} (m : Control ValidationResult A) (chk : option string) :
  agrees m chk -> ((exists a, m = Next a) <-> chk = None).
Proof.
  destruct m, chk; simpl; try contradiction; intros _; split;
    try discriminate; eauto; intros [a' H]; discriminate.
Qed.

Section ValidateOrder.
Variable c : Z.
Variable allowedSizes : list Z.

Lemma checkSegs_agrees (ei : nat) (segs : list EdgeSeg) :
  agrees (checkSegs c allowedSizes ei segs)
         (firstFailure (flat_map (fun s => [sizeCheck allowedSizes s; offsetCheck c s;
                                            alignedCheck c s]) segs)).
Proof.
  induction segs as [|s rest IH]; simpl flat_map; [exact I|].
  cbn [checkSegs app].
  apply agrees_cons; [|intros _ _].
  { apply agrees_returnIf. rewrite negb_andb. f_equal.
    rewrite Z.leb_antisym. reflexivity. }
  apply agrees_cons; [|intros _ _].
  { apply agrees_returnIf. rewrite negb_andb. f_equal.
    - rewrite Z.ltb_antisym. reflexivity.
    - rewrite Z.gtb_ltb, Z.ltb_antisym. reflexivity. }
  apply agrees_cons; [|intros _ _; exact IH].
  apply agrees_returnIf. rewrite negb_involutive. reflexivity.
Qed.

Lemma checkAdjacent_agrees (ei : nat) (segs : list EdgeSeg) :
  agrees (checkAdjacent ei segs) (adjacentCheck segs).
Proof.
  unfold adjacentCheck.
  induction segs as [|a [|b rest] IH]; try exact I.
  cbn [checkAdjacent consecutiveb].
  destruct (size a =? size b); simpl; [auto | exact IH].
Qed.

Lemma checkWalk_agrees (ei : nat) (segs : list EdgeSeg) :
  agrees (checkWalk ei segs) (walkCheck segs).
Proof.
  unfold walkCheck.
  induction segs as [|a [|b rest] IH]; try exact I.
  cbn [checkWalk consecutiveb].
  destruct (offset b =? offset a + size a); simpl; [exact IH | auto].
Qed.

Lemma checkEdge_agrees (ei : nat) (edge : list EdgeSeg) :
  agrees (checkEdge c allowedSizes ei edge)
         (firstFailure (edgeChecks c allowedSizes edge)).
Proof.
  unfold checkEdge, checkSorted, edgeChecks.
  apply agrees_cons.
  { apply agrees_returnIf. rewrite negb_involutive. reflexivity. }
  intros u Hne.
  assert (Hsegs : sortBy byOffsetThenSize edge <> []).
  { rewrite sortBy_nil_iff. intros ->. discriminate. }
  apply agrees_app; [apply checkSegs_agrees | intros _ _].
  apply agrees_cons; [apply checkAdjacent_agrees | intros _ _].
  rewrite at_first by exact Hsegs. cbn [bind].
  apply agrees_cons; [|intros _ _].
  { apply agrees_returnIf. reflexivity. }
  apply agrees_cons; [apply checkWalk_agrees | intros _ _].
  rewrite at_last by exact Hsegs. cbn [bind].
  apply agrees_single, agrees_returnIf.
  rewrite Z.ltb_antisym. reflexivity.
Qed.

Lemma checkEdges_agrees (es : list (list EdgeSeg)) (ei : nat) :
  agrees (checkEdges c allowedSizes ei es)
         (firstFailure (flat_map (edgeChecks c allowedSizes) es)).
Proof.
  revert ei. induction es as [|edge rest IH]; intros ei; [exact I|].
  cbn [checkEdges flat_map].
  apply agrees_app; [apply checkEdge_agrees | intros _ _; apply IH].
Qed.

(** Passing every check of an edge is the property [EdgePasses]. *)
Lemma consecutiveb_true {A} (f : A -> A -> bool) (R : A -> A -> Prop) (l : list A) :
  (forall a b, f a b = true <-> R a b) ->
  consecutiveb f l = true <-> consecutive R l.
Proof.
  intros Hf. induction l as [|a [|b rest] IH]; simpl; try tauto.
  rewrite andb_true_iff, Hf. simpl in IH. tauto.
Qed.

Lemma failsWith_None (b : bool) (why : string) : failsWith b why = None <-> b = true.
Proof. destruct b; simpl; split; congruence. Qed.

Lemma includes_In (l : list Z) (x : Z) : includes l x = true <-> In x l.
Proof.
  unfold includes. rewrite existsb_exists. split.
  - intros [y [Hy E]]. apply Z.eqb_eq in E. subst. exact Hy.
  - intros H. exists x. split; [exact H | apply Z.eqb_refl].
Qed.

Lemma segChecks_None (segs : list EdgeSeg) :
  firstFailure (flat_map (fun s => [sizeCheck allowedSizes s; offsetCheck c s;
                                    alignedCheck c s]) segs) = None <->
  Forall (fun s => In (size s) allowedSizes /\ 0 < size s /\ 0 <= offset s <= c) segs /\
  Forall (fun s => ~ (size s = c /\ offset s = 0)) segs.
Proof.
  induction segs as [|s rest IH]; simpl.
  - split; auto.
  - rewrite !Forall_cons_iff.
    unfold sizeCheck at 1, offsetCheck at 1, alignedCheck at 1.
    rewrite <- (includes_In allowedSizes (size s)).
    destruct (includes allowedSizes (size s));
      destruct (Z.ltb_spec 0 (size s)) as [Hs|Hs];
      destruct (Z.leb_spec 0 (offset s)) as [Ho|Ho];
      destruct (Z.leb_spec (offset s) c) as [Hc|Hc];
      destruct (Z.eqb_spec (size s) c) as [Esc|Esc];
      destruct (Z.eqb_spec (offset s) 0) as [Eo|Eo]; simpl;
      try rewrite IH;
      (split;
       [ try discriminate; intros [F1 F2]; repeat split; auto; lia
       | intros [[(Hi & Hp & Hlo & Hhi) F1] [Hna F2]];
         try discriminate; try lia; try tauto; auto ]).
Qed.

Lemma edgeChecks_None (edge : list EdgeSeg) :
  firstFailure (edgeChecks c allowedSizes edge) = None <-> EdgePasses c allowedSizes edge.
Proof.
  unfold edgeChecks, EdgePasses. cbv zeta.
  set (segs := sortBy byOffsetThenSize edge).
  change (firstFailure (?x :: ?l)) with (firstFailure ([x] ++ l)).
  rewrite firstFailure_app. simpl firstFailure at 1.
  unfold nonEmptyCheck.
  destruct edge as [|s0 edge0] eqn:Eedge; simpl failsWith.
  { split; [discriminate | intros [H _]; congruence]. }
  rewrite <- Eedge in *.
  rewrite firstFailure_app.
  destruct (firstFailure (flat_map _ segs)) eqn:Esegs.
  { split; [discriminate|]. intros (_ & Hleg & Hali & _).
    assert (Hn : Some s = None) by (rewrite <- Esegs; apply segChecks_None; auto).
    discriminate. }
  apply segChecks_None in Esegs. destruct Esegs as [Hleg Hali].
  simpl firstFailure.
  unfold adjacentCheck, startCheck, walkCheck, reachCheck.
  destruct (consecutiveb (fun a b => negb (size a =? size b)) segs) eqn:Ea; simpl.
  2:{ split; [discriminate|]. intros (_ & _ & _ & H & _).
      apply (consecutiveb_true (fun a b => negb (size a =? size b))) in H.
      - congruence.
      - intros a b. rewrite negb_true_iff, Z.eqb_neq. tauto. }
  apply (consecutiveb_true _ (fun a b => size a <> size b)) in Ea.
  2:{ intros a b. rewrite negb_true_iff, Z.eqb_neq. tauto. }
  destruct (Z.eqb_spec (offset (firstOf segs)) 0) as [Est|Est]; simpl.
  2:{ split; [discriminate|]. intros (_ & _ & _ & _ & H & _). congruence. }
  destruct (consecutiveb (fun a b => offset b =? offset a + size a) segs) eqn:Ew; simpl.
  2:{ split; [discriminate|]. intros (_ & _ & _ & _ & _ & H & _).
      apply (consecutiveb_true (fun a b => offset b =? offset a + size a)) in H.
      - congruence.
      - intros a b. apply Z.eqb_eq. }
  apply (consecutiveb_true _ (fun a b => offset b = offset a + size a)) in Ew.
  2:{ intros a b. apply Z.eqb_eq. }
  destruct (Z.leb_spec c (offset (lastOf segs) + size (lastOf segs))) as [Hr|Hr]; simpl.
  - split; [intros _ | reflexivity]. rewrite Eedge. repeat split; auto; discriminate.
  - split; [discriminate|]. intros (_ & _ & _ & _ & _ & _ & H). lia.
Qed.

Lemma checkEdge_Next_iff (ei : nat) (edge : list EdgeSeg) :
  checkEdge c allowedSizes ei edge = Next tt <-> EdgePasses c allowedSizes edge.
Proof.
  rewrite <- edgeChecks_None.
  rewrite <- (agrees_Next_iff _ _ (checkEdge_agrees ei edge)).
  split; [eauto | intros [[] H]; exact H].
Qed.

Lemma edgesChecks_None (es : list (list EdgeSeg)) :
  firstFailure (flat_map (edgeChecks c allowedSizes) es) = None <->
  Forall (EdgePasses c allowedSizes) es.
Proof.
  induction es as [|edge rest IH]; cbn [flat_map].
  - split; auto.
  - rewrite firstFailure_app.
    destruct (firstFailure (edgeChecks c allowedSizes edge)) eqn:E.
    + split; [discriminate|]. intros H. inversion H as [|? ? Hp _]; subst.
      apply edgeChecks_None in Hp. congruence.
    + apply edgeChecks_None in E. rewrite IH.
      split; [auto | intros H; inversion H; auto].
Qed.
End ValidateOrder.

(* ================================================================= *)
(** ** The corner rule and the whole validator *)

Lemma EdgePasses_nonempty (c : Z) (allowedSizes : list Z) (edge : list EdgeSeg) :
  EdgePasses c allowedSizes edge -> edge <> [].
Proof. intros [H _]. exact H. Qed.

Lemma four_edges (es : list (list EdgeSeg)) :
  List.length es = 4%nat -> exists e0 e1 e2 e3, es = [e0; e1; e2; e3].
Proof.
  destruct es as [|e0 [|e1 [|e2 [|e3 [|e4 rest]]]]]; try discriminate.
  intros _. eauto.
Qed.

Lemma cornerGapCheck_agrees (c : Z) (es : list (list EdgeSeg)) :
  List.length es = 4%nat ->
  Forall (fun edge => edge <> []) es ->
  agrees (cornerGapCheck c es) (cornerCheck c es).
Proof.
  intros Hlen Hne.
  destruct (four_edges es Hlen) as (e0 & e1 & e2 & e3 & ->).
  inversion Hne as [|? ? H0 Hne1]; subst.
  inversion Hne1 as [|? ? H1 Hne2]; subst.
  inversion Hne2 as [|? ? H2 Hne3]; subst.
  inversion Hne3 as [|? ? H3 _]; subst.
  assert (S0 : sortBy byOffset e0 <> []) by (rewrite sortBy_nil_iff; exact H0).
  assert (S1 : sortBy byOffset e1 <> []) by (rewrite sortBy_nil_iff; exact H1).
  assert (S2 : sortBy byOffset e2 <> []) by (rewrite sortBy_nil_iff; exact H2).
  assert (S3 : sortBy byOffset e3 <> []) by (rewrite sortBy_nil_iff; exact H3).
  unfold cornerGapCheck, cornerVerdict, cornerCheck, cornerLoop, cornerStep, cornerRead.
  unfold anyCornerGap, lastSizesSame, cornerGapb, overhang, firstSegmentSize,
    lastSegmentSize, edgeAt, nextEdgeAt.
  change (at_ [e0; e1; e2; e3] 0) with (@Next ValidationResult _ e0).
  change (at_ [e0; e1; e2; e3] 1) with (@Next ValidationResult _ e1).
  change (at_ [e0; e1; e2; e3] 2) with (@Next ValidationResult _ e2).
  change (at_ [e0; e1; e2; e3] 3) with (@Next ValidationResult _ e3).
  change (at_ [e0; e1; e2; e3] ((0 + 1) mod 4)) with (@Next ValidationResult _ e1).
  change (at_ [e0; e1; e2; e3] ((1 + 1) mod 4)) with (@Next ValidationResult _ e2).
  change (at_ [e0; e1; e2; e3] ((2 + 1) mod 4)) with (@Next ValidationResult _ e3).
  change (at_ [e0; e1; e2; e3] ((3 + 1) mod 4)) with (@Next ValidationResult _ e0).
  cbn [bind].
  rewrite !at_last, !at_first by assumption.
  cbn [bind existsb forallb].
  change (nth ((0 + 1) mod 4) [e0; e1; e2; e3] []) with e1.
  change (nth ((1 + 1) mod 4) [e0; e1; e2; e3] []) with e2.
  change (nth ((2 + 1) mod 4) [e0; e1; e2; e3] []) with e3.
  change (nth ((3 + 1) mod 4) [e0; e1; e2; e3] []) with e0.
  cbn [nth]. cbv zeta.
  set (l0 := lastOf (sortBy byOffset e0)). set (l1 := lastOf (sortBy byOffset e1)).
  set (l2 := lastOf (sortBy byOffset e2)). set (l3 := lastOf (sortBy byOffset e3)).
  set (g0 := (offset l0 + size l0 - c =? 1) && (size (firstOf (sortBy byOffset e1)) =? 1)).
  set (g1 := (offset l1 + size l1 - c =? 1) && (size (firstOf (sortBy byOffset e2)) =? 1)).
  set (g2 := (offset l2 + size l2 - c =? 1) && (size (firstOf (sortBy byOffset e3)) =? 1)).
  set (g3 := (offset l3 + size l3 - c =? 1) && (size (firstOf (sortBy byOffset e0)) =? 1)).
  set (same := (size l0 =? size l0) && ((size l1 =? size l0) && ((size l2 =? size l0)
              && ((size l3 =? size l0) && true)))).
  assert (Hsame : allSame [size l0; size l1; size l2; size l3] = same) by reflexivity.
  clearbody g0 g1 g2 g3 same.
  destruct g0, g1, g2, g3; cbn [fst snd app orb negb]; rewrite ?Hsame;
    destruct same; simpl; auto.
Qed.

Lemma validateBody_agrees (c : Z) (allowedSizes : list Z) (es : list (list EdgeSeg)) :
  exists r,
    call (validateBody c allowedSizes es) = Normal r /\
    verdictOf (countCheck es :: flat_map (edgeChecks c allowedSizes) es
               ++ [cornerCheck c es]) r.
Proof.
  unfold validateBody, verdictOf, countCheck.
  destruct (Nat.eqb_spec (List.length es) 4) as [Hlen|Hlen]; simpl returnIf.
  2:{ eexists. split; [reflexivity|]. simpl. auto. }
  cbn [bind failsWith firstFailure]. rewrite firstFailure_app.
  pose proof (checkEdges_agrees c allowedSizes es 0) as Hedges.
  destruct (checkEdges c allowedSizes 0 es) as [[]|r|e];
    destruct (firstFailure (flat_map (edgeChecks c allowedSizes) es)) as [why|] eqn:Hff;
    simpl in Hedges; try contradiction.
  - apply edgesChecks_None in Hff.
    assert (Hne : Forall (fun edge => edge <> []) es).
    { eapply Forall_impl; [|exact Hff]. intros e. apply EdgePasses_nonempty. }
    pose proof (cornerGapCheck_agrees c es Hlen Hne) as Hcorner.
    cbn [bind firstFailure].
    destruct (cornerGapCheck c es) as [[]|r|e];
      destruct (cornerCheck c es) as [why|]; simpl in Hcorner; try contradiction.
    + eexists. split; reflexivity.
    + eexists. split; [reflexivity | exact Hcorner].
  - eexists. split; [reflexivity | exact Hedges].
Qed.

Lemma validate_agrees (cor : Corona) (allowedSizes : list Z) :
  exists r,
    validate cor allowedSizes = Normal r /\
    verdictOf (checksAsEvaluated cor allowedSizes) r.
Proof.
  unfold validate, checksAsEvaluated, centerCheck. cbv zeta.
  destruct (center cor) as [z| |shown]; cbn [Number_isInteger integerOf negb orb].
  - rewrite Z.leb_antisym.
    destruct (Z.ltb_spec 0 z) as [Hz|Hz]; cbn [negb failsWith].
    + apply validateBody_agrees.
    + eexists. split; [reflexivity|]. unfold verdictOf. simpl. auto.
  - eexists. split; [reflexivity|]. unfold verdictOf. simpl. auto.
  - eexists. split; [reflexivity|]. unfold verdictOf. simpl. auto.
Qed.

(* ================================================================= *)
(** ** The compact notation on examples *)

Example toCompact_example :
  toCompact (mkCorona (Int 2) [[mkSeg 2 1; mkSeg 1 0]; [mkSeg 3 0]; [mkSeg 3 0]; [mkSeg 4 0]])
  = "2|1^0,2^1|3^0|3^0|4^0".
Proof. reflexivity. Qed.

Example fromCompact_example :
  fromCompact " 2 | 1^0, 2^1 |3^0|3^0|4^-1"
  = Normal (mkCorona (Int 2) [[mkSeg 1 0; mkSeg 2 1]; [mkSeg 3 0]; [mkSeg 3 0]; [mkSeg 4 (-1)]]).
Proof. reflexivity. Qed.

Example fromCompact_bad_token :
  fromCompact "2|1^0,x|3^0|3^0|4^0" = Raised (ErrorMsg "Bad segment token: x").
Proof. reflexivity. Qed.

Example fromCompact_empty_edge :
  fromCompact "2||3^0|3^0|4^0" = Raised (ErrorMsg "Bad segment token: ").
Proof. reflexivity. Qed.

Example fromCompact_parts :
  fromCompact "2|3^0|3^0|4^0" = Raised (ErrorMsg "Expected center + 4 edges").
Proof. reflexivity. Qed.

Example parseInt_examples :
  parseInt "12abc" = Int 12 /\ parseInt "-7" = Int (-7) /\ parseInt "abc" = NaN
  /\ parseInt EmptyString = NaN /\ parseInt "007" = Int 7 /\ parseInt "NaN" = NaN
  /\ Z_toString 0 = "0" /\ Z_toString (-15) = "-15" /\ Z_toString 120 = "120".
Proof. repeat split; reflexivity. Qed.

(* ================================================================= *)
(** ** Characters and strings *)

Lemma digit_facts (ch : ascii) :
  isDigit ch = true ->
  isSpace ch = false /\ Ascii.eqb ch "-" = false /\ Ascii.eqb ch "+" = false /\
  Ascii.eqb ch "^" = false /\ Ascii.eqb ch "," = false /\ Ascii.eqb ch "|" = false.
Proof.
  destruct ch as [[] [] [] [] [] [] [] []]; intros H;
    try discriminate H; repeat split; reflexivity.
Qed.

Lemma tokenChar_plain (ch : ascii) : isTokenChar ch = true -> isPlain ch = true.
Proof.
  destruct ch as [[] [] [] [] [] [] [] []]; intros H;
    try discriminate H; reflexivity.
Qed.

Lemma allChars_impl (p q : ascii -> bool) (s : string) :
  (forall ch, p ch = true -> q ch = true) -> allChars p s = true -> allChars q s = true.
Proof.
  intros Hpq. induction s as [|ch s IH]; simpl; [auto|].
  rewrite !andb_true_iff. intros [H1 H2]. auto.
Qed.

Lemma allChars_app (p : ascii -> bool) (s t : string) :
  allChars p (s ++ t) = allChars p s && allChars p t.
Proof.
  induction s as [|ch s IH]; simpl; [reflexivity|].
  rewrite IH, andb_assoc. reflexivity.
Qed.

Lemma removeSpaces_id (s : string) : allChars notSpace s = true -> removeSpaces s = s.
Proof.
  induction s as [|ch s IH]; simpl; [reflexivity|].
  unfold notSpace at 1. rewrite andb_true_iff, negb_true_iff. intros [-> H].
  rewrite IH by exact H. reflexivity.
Qed.

Lemma trimEnd_id (s : string) : allChars notSpace s = true -> trimEnd s = s.
Proof.
  induction s as [|ch s IH]; simpl; [reflexivity|].
  unfold notSpace at 1. rewrite andb_true_iff, negb_true_iff. intros [-> H].
  rewrite IH by exact H. reflexivity.
Qed.

Lemma trimStart_id (s : string) : allChars notSpace s = true -> trimStart s = s.
Proof.
  destruct s as [|ch s]; simpl; [reflexivity|].
  unfold notSpace at 1. rewrite andb_true_iff, negb_true_iff. intros [-> _]. reflexivity.
Qed.

Lemma stripped_id (s : string) : allChars notSpace s = true -> stripped s = s.
Proof.
  intros H. unfold stripped, trim.
  rewrite trimStart_id, trimEnd_id, removeSpaces_id by exact H. reflexivity.
Qed.

Lemma split_nonempty (sep : ascii) (s : string) : split sep s <> [].
Proof.
  destruct s as [|ch s]; simpl; [discriminate|].
  destruct (Ascii.eqb ch sep); [discriminate|].
  destruct (split sep s); discriminate.
Qed.

Lemma split_plain (sep : ascii) (s : string) :
  allChars (notChar sep) s = true -> split sep s = [s].
Proof.
  induction s as [|ch s IH]; simpl; [reflexivity|].
  unfold notChar at 1. rewrite andb_true_iff, negb_true_iff. intros [-> H].
  rewrite IH by exact H. reflexivity.
Qed.

Lemma split_app (sep : ascii) (s t : string) :
  allChars (notChar sep) s = true ->
  split sep (s ++ String sep t) = s :: split sep t.
Proof.
  induction s as [|ch s IH]; simpl.
  - rewrite Ascii.eqb_refl. reflexivity.
  - unfold notChar at 1. rewrite andb_true_iff, negb_true_iff. intros [-> H].
    rewrite IH by exact H. reflexivity.
Qed.

Lemma split_join (sep : ascii) (parts : list string) :
  parts <> [] ->
  Forall (fun p => allChars (notChar sep) p = true) parts ->
  split sep (join (String sep EmptyString) parts) = parts.
Proof.
  induction parts as [|p [|q rest] IH]; [congruence| |]; intros _ Hall.
  - simpl. apply split_plain. inversion Hall; assumption.
  - inversion Hall as [|? ? Hp Hrest]; subst.
    change (join (String sep EmptyString) (p :: q :: rest))
      with (p ++ String sep (join (String sep EmptyString) (q :: rest)))%string.
    rewrite split_app by exact Hp. f_equal. apply IH; [discriminate | exact Hrest].
Qed.

Lemma allChars_join (p : ascii -> bool) (sep : ascii) (parts : list string) :
  p sep = true ->
  Forall (fun s => allChars p s = true) parts ->
  allChars p (join (String sep EmptyString) parts) = true.
Proof.
  intros Hsep. induction parts as [|s [|t rest] IH]; intros Hall.
  - reflexivity.
  - inversion Hall; assumption.
  - inversion Hall as [|? ? Hs Hrest]; subst.
    change (join (String sep EmptyString) (s :: t :: rest))
      with (s ++ String sep (join (String sep EmptyString) (t :: rest)))%string.
    rewrite allChars_app. simpl. rewrite Hs, Hsep. simpl. apply IH, Hrest.
Qed.

(* ================================================================= *)
(** ** Printing and reading integers *)

Lemma digits_allDigits (u : Decimal.uint) :
  allChars isDigit (NilEmpty.string_of_uint u) = true.
Proof. induction u; simpl; auto. Qed.

Lemma digits_nonempty (u : Decimal.uint) :
  u <> Decimal.Nil -> isEmpty (NilEmpty.string_of_uint u) = false.
Proof. destruct u; simpl; congruence. Qed.

Lemma digitsValue_digits (u : Decimal.uint) :
  digitsValue (NilEmpty.string_of_uint u) = Z.of_uint u.
Proof. unfold digitsValue. rewrite NilEmpty.usu. reflexivity. Qed.

Lemma digitsValue_nonneg (ds : string) : 0 <= digitsValue ds.
Proof.
  unfold digitsValue. destruct (NilEmpty.uint_of_string ds); [|lia].
  unfold Z.of_uint. apply N2Z.is_nonneg.
Qed.

Lemma spanDigits_app (ds tail : string) :
  allChars isDigit ds = true -> stopsDigits tail = true ->
  spanDigits (ds ++ tail) = (ds, tail).
Proof.
  intros Hds Htail. induction ds as [|ch ds IH]; simpl.
  - destruct tail as [|ch tail]; [reflexivity|]. simpl in *.
    apply negb_true_iff in Htail. rewrite Htail. reflexivity.
  - simpl in Hds. apply andb_true_iff in Hds. destruct Hds as [Hch Hds].
    rewrite Hch, IH by exact Hds. reflexivity.
Qed.

Lemma spanDigits_digits (ds : string) :
  allChars isDigit ds = true -> spanDigits ds = (ds, EmptyString).
Proof.
  intros H. rewrite <- (spanDigits_app ds EmptyString H eq_refl).
  f_equal. induction ds as [|ch ds IH]; simpl; [reflexivity|].
  simpl in H. apply andb_true_iff in H. rewrite <- IH at 1 by apply H. reflexivity.
Qed.

Lemma spanDigits_spec (s ds tail : string) :
  spanDigits s = (ds, tail) ->
  s = (ds ++ tail)%string /\ allChars isDigit ds = true /\ stopsDigits tail = true.
Proof.
  revert ds tail. induction s as [|ch s IH]; simpl; intros ds tail H.
  - injection H as <- <-. auto.
  - destruct (isDigit ch) eqn:Hch.
    + destruct (spanDigits s) as [ds' tail'] eqn:Hs. injection H as <- <-.
      destruct (IH _ _ eq_refl) as (-> & Hds & Htail). simpl. rewrite Hch. auto.
    + injection H as <- <-. simpl. rewrite Hch. auto.
Qed.

(** The rendering of an integer: digits, after a minus sign when it is
    negative. *)
Lemma Z_toString_nonneg (z : Z) :
  0 <= z ->
  exists u, u <> Decimal.Nil /\ Z_toString z = NilEmpty.string_of_uint u /\ Z.of_uint u = z.
Proof.
  intros Hz. destruct z as [|p|p]; [| |lia].
  - exists Decimal.zero. repeat split. discriminate.
  - exists (Pos.to_uint p).
    pose proof (DecimalPos.Unsigned.to_uint_nonnil p) as Hnn.
    repeat split; [exact Hnn | |].
    + unfold Z_toString. simpl. destruct (Pos.to_uint p); try reflexivity. congruence.
    + unfold Z.of_uint. rewrite DecimalPos.Unsigned.of_to. reflexivity.
Qed.

Lemma Z_toString_neg (z : Z) :
  z < 0 ->
  exists u, u <> Decimal.Nil /\
            Z_toString z = String "-" (NilEmpty.string_of_uint u) /\ Z.of_uint u = - z.
Proof.
  intros Hz. destruct z as [|p|p]; [lia|lia|].
  exists (Pos.to_uint p).
  pose proof (DecimalPos.Unsigned.to_uint_nonnil p) as Hnn.
  repeat split; [exact Hnn | |].
  - unfold Z_toString. simpl. destruct (Pos.to_uint p); try reflexivity. congruence.
  - unfold Z.of_uint. rewrite DecimalPos.Unsigned.of_to. reflexivity.
Qed.

Lemma digits_head (u : Decimal.uint) :
  u <> Decimal.Nil ->
  exists ch rest, NilEmpty.string_of_uint u = String ch rest /\ isDigit ch = true.
Proof.
  pose proof (digits_allDigits u) as H. intros Hu.
  destruct (NilEmpty.string_of_uint u) as [|ch rest] eqn:E.
  - destruct u; simpl in E; congruence.
  - simpl in H. apply andb_true_iff in H. exists ch, rest. split; [reflexivity | apply H].
Qed.

Lemma parseInt_digits (ds : string) :
  allChars isDigit ds = true -> isEmpty ds = false ->
  parseInt ds = Int (digitsValue ds).
Proof.
  intros Hds Hne. destruct ds as [|ch rest]; [discriminate|].
  pose proof Hds as Hall. simpl in Hds. apply andb_true_iff in Hds. destruct Hds as [Hch _].
  destruct (digit_facts ch Hch) as (Hsp & Hm & Hp & _).
  unfold parseInt. simpl trimStart. rewrite Hsp. unfold splitSign. rewrite Hm, Hp.
  rewrite spanDigits_digits by exact Hall. reflexivity.
Qed.

Lemma parseInt_minus_digits (ds : string) :
  allChars isDigit ds = true -> isEmpty ds = false ->
  parseInt (String "-" ds) = Int (- digitsValue ds).
Proof.
  intros Hds Hne. unfold parseInt. simpl trimStart. unfold splitSign.
  rewrite Ascii.eqb_refl. rewrite spanDigits_digits by exact Hds.
  rewrite Hne. reflexivity.
Qed.

Lemma parseInt_toString (z : Z) : parseInt (Z_toString z) = Int z.
Proof.
  destruct (Z.lt_ge_cases z 0) as [Hz|Hz].
  - destruct (Z_toString_neg z Hz) as (u & Hu & -> & Hval).
    rewrite parseInt_minus_digits by auto using digits_allDigits, digits_nonempty.
    rewrite digitsValue_digits, Hval. f_equal. lia.
  - destruct (Z_toString_nonneg z Hz) as (u & Hu & -> & Hval).
    rewrite parseInt_digits by auto using digits_allDigits, digits_nonempty.
    rewrite digitsValue_digits, Hval. reflexivity.
Qed.

Lemma parseInt_number_toString (n : number) :
  (n = NaN \/ exists z, n = Int z) -> parseInt (number_toString n) = n.
Proof.
  intros [->|[z ->]]; [reflexivity | apply parseInt_toString].
Qed.

Lemma Z_toString_tokenChars (z : Z) : allChars isTokenChar (Z_toString z) = true.
Proof.
  assert (Hd : forall u, allChars isTokenChar (NilEmpty.string_of_uint u) = true).
  { intros u. apply (allChars_impl isDigit); [|apply digits_allDigits].
    intros ch H. unfold isTokenChar. rewrite H. reflexivity. }
  destruct (Z.lt_ge_cases z 0) as [Hz|Hz].
  - destruct (Z_toString_neg z Hz) as (u & _ & -> & _). simpl. apply Hd.
  - destruct (Z_toString_nonneg z Hz) as (u & _ & -> & _). apply Hd.
Qed.

(* ================================================================= *)
(** ** Reading back what [toCompact] writes *)

Lemma segToken_tokenChars (s : EdgeSeg) : allChars isTokenChar (segToken s) = true.
Proof.
  unfold segToken. rewrite !allChars_app, !Z_toString_tokenChars. reflexivity.
Qed.

Lemma matchSegPat_segToken (s : EdgeSeg) :
  0 <= size s ->
  matchSegPat (segToken s) = Some (Z_toString (size s), Z_toString (offset s)).
Proof.
  intros Hs. unfold segToken, matchSegPat.
  destruct (Z_toString_nonneg (size s) Hs) as (u & Hu & -> & _).
  rewrite spanDigits_app; [|apply digits_allDigits | reflexivity].
  rewrite digits_nonempty by exact Hu.
  simpl append at 1. cbn iota. rewrite Ascii.eqb_refl.
  destruct (Z.lt_ge_cases (offset s) 0) as [Ho|Ho].
  - destruct (Z_toString_neg (offset s) Ho) as (v & Hv & -> & _).
    rewrite Ascii.eqb_refl.
    rewrite spanDigits_digits by apply digits_allDigits.
    rewrite digits_nonempty by exact Hv. reflexivity.
  - destruct (Z_toString_nonneg (offset s) Ho) as (v & Hv & -> & _).
    destruct (digits_head v Hv) as (ch & rest & E & Hch). rewrite E.
    destruct (digit_facts ch Hch) as (_ & -> & _). rewrite <- E.
    rewrite spanDigits_digits by apply digits_allDigits.
    rewrite digits_nonempty by exact Hv. reflexivity.
Qed.

Lemma parseTokens_segTokens (segs acc : list EdgeSeg) :
  Forall (fun s => 0 <= size s) segs ->
  parseTokens (map segToken segs) acc = Next (acc ++ segs).
Proof.
  intros H. revert acc. induction H as [|s segs Hs _ IH]; intros acc; simpl.
  - rewrite List.app_nil_r. reflexivity.
  - rewrite matchSegPat_segToken by exact Hs.
    rewrite !parseInt_toString. simpl integerOf.
    rewrite IH, <- List.app_assoc. destruct s; reflexivity.
Qed.

Lemma edgeText_plain (p : ascii -> bool) (edge : list EdgeSeg) :
  p ","%char = true -> (forall ch, isTokenChar ch = true -> p ch = true) ->
  allChars p (edgeText edge) = true.
Proof.
  intros Hc Hp. unfold edgeText. apply allChars_join; [exact Hc|].
  apply Forall_map, Forall_forall. intros s _.
  apply (allChars_impl isTokenChar); [exact Hp | apply segToken_tokenChars].
Qed.

Lemma tokenChar_notChar (sep : ascii) :
  isTokenChar sep = false -> forall ch, isTokenChar ch = true -> notChar sep ch = true.
Proof.
  intros Hsep ch Hch. unfold notChar. apply negb_true_iff, Ascii.eqb_neq.
  intros ->. congruence.
Qed.

Lemma tokenChar_notSpace (ch : ascii) : isTokenChar ch = true -> notSpace ch = true.
Proof.
  intros H. apply tokenChar_plain in H. unfold isPlain in H.
  apply andb_true_iff in H. apply H.
Qed.

Lemma split_edgeText (edge : list EdgeSeg) :
  edge <> [] ->
  split "," (edgeText edge) = map segToken (sortBy byOffsetThenSize edge).
Proof.
  intros Hne. unfold edgeText. apply split_join.
  - intros H. apply map_eq_nil in H. apply sortBy_nil_iff in H. contradiction.
  - apply Forall_map, Forall_forall. intros s _.
    apply (allChars_impl isTokenChar); [|apply segToken_tokenChars].
    apply tokenChar_notChar. reflexivity.
Qed.

Lemma parseEdges_edgeTexts (es acc : list (list EdgeSeg)) :
  Forall (fun edge => edge <> [] /\ Forall (fun s => 0 <= size s) edge) es ->
  parseEdges (map edgeText es) acc = Next (acc ++ map (sortBy byOffsetThenSize) es).
Proof.
  intros H. revert acc. induction H as [|edge es [Hne Hsz] _ IH]; intros acc; simpl.
  - rewrite List.app_nil_r. reflexivity.
  - rewrite split_edgeText by exact Hne.
    rewrite parseTokens_segTokens.
    + cbn [bind app]. rewrite IH, <- List.app_assoc. reflexivity.
    + eapply Permutation_Forall; [apply sortBy_perm | exact Hsz].
Qed.

(** [toCompact] without the loop. *)
Lemma fold_push {A B} (f : A -> B) (l : list A) (acc : list B) :
  fold_left (fun parts x => parts ++ [f x]) l acc = acc ++ map f l.
Proof.
  revert acc. induction l as [|x l IH]; intros acc; simpl.
  - rewrite List.app_nil_r. reflexivity.
  - rewrite IH, <- List.app_assoc. reflexivity.
Qed.

Lemma toCompact_parts (cor : Corona) :
  toCompact cor = join "|" (number_toString (center cor) :: map edgeText (edges cor)).
Proof. unfold toCompact. rewrite fold_push. reflexivity. Qed.

Lemma number_toString_plain (n : number) :
  (n = NaN \/ exists z, n = Int z) -> allChars isPlain (number_toString n) = true.
Proof.
  intros [->|[z ->]]; [reflexivity|]. simpl.
  apply (allChars_impl isTokenChar); [apply tokenChar_plain | apply Z_toString_tokenChars].
Qed.

Lemma isPlain_notBar (ch : ascii) : isPlain ch = true -> notChar "|" ch = true.
Proof. unfold isPlain. rewrite !andb_true_iff. tauto. Qed.

Lemma isPlain_notSpace (ch : ascii) : isPlain ch = true -> notSpace ch = true.
Proof. unfold isPlain. rewrite !andb_true_iff. tauto. Qed.

(** Reading back the notation of a representable corona gives the corona
    with each edge sorted. *)
Lemma fromCompact_toCompact (cor : Corona) :
  Representable cor -> fromCompact (toCompact cor) = Normal (sortedCorona cor).
Proof.
  intros (Hcenter & Hlen & Hedges).
  set (parts := number_toString (center cor) :: map edgeText (edges cor)).
  assert (Hbar : Forall (fun p => allChars (notChar "|") p = true) parts).
  { constructor.
    - apply (allChars_impl isPlain); [apply isPlain_notBar|].
      apply number_toString_plain, Hcenter.
    - apply Forall_map, Forall_forall. intros e _. apply edgeText_plain; [reflexivity|].
      apply tokenChar_notChar. reflexivity. }
  assert (Hsp : allChars notSpace (toCompact cor) = true).
  { rewrite toCompact_parts. apply allChars_join; [reflexivity|]. constructor.
    - apply (allChars_impl isPlain); [apply isPlain_notSpace|].
      apply number_toString_plain, Hcenter.
    - apply Forall_map, Forall_forall. intros e _. apply edgeText_plain; [reflexivity|].
      apply tokenChar_notSpace. }
  unfold fromCompact. rewrite stripped_id by exact Hsp.
  rewrite toCompact_parts. fold parts.
  rewrite split_join; [|discriminate | exact Hbar].
  assert (Hl : List.length parts = 5%nat).
  { unfold parts. simpl. rewrite length_map, Hlen. reflexivity. }
  rewrite Hl. cbn [Nat.eqb negb bind].
  change (skipn 1 parts) with (map edgeText (edges cor)).
  change (nth 0 parts EmptyString) with (number_toString (center cor)).
  rewrite parseEdges_edgeTexts by exact Hedges.
  cbn [bind app call].
  rewrite parseInt_number_toString by exact Hcenter. reflexivity.
Qed.

Lemma toCompact_sortedCorona (cor : Corona) : toCompact (sortedCorona cor) = toCompact cor.
Proof.
  rewrite !toCompact_parts. unfold sortedCorona. cbn [center edges].
  rewrite map_map. do 2 f_equal. apply map_ext. intros e.
  unfold edgeText. rewrite (sortBy_idempotent _ byOffsetThenSize_total). reflexivity.
Qed.

Lemma WellFormed_Representable (cor : Corona) : WellFormed cor -> Representable cor.
Proof.
  intros ([z [Hz _]] & Hlen & Hedges). repeat split.
  - right. eauto.
  - exact Hlen.
  - eapply Forall_impl; [|exact Hedges]. intros e [Hne Hsz]. split; [exact Hne|].
    eapply Forall_impl; [|exact Hsz]. intros s. simpl. lia.
Qed.

(* ================================================================= *)
(** ** What [fromCompact] accepts *)

Lemma isEmpty_false (s : string) : isEmpty s = false <-> s <> EmptyString.
Proof. destruct s; simpl; split; congruence. Qed.

Lemma isEmpty_true (s : string) : isEmpty s = true <-> s = EmptyString.
Proof. destruct s; simpl; split; congruence. Qed.

Lemma string_app_nil_r (s : string) : (s ++ EmptyString)%string = s.
Proof. induction s as [|ch s IH]; simpl; [reflexivity | rewrite IH; reflexivity]. Qed.

Lemma matchSegPat_Some (tok m1 m2 : string) :
  matchSegPat tok = Some (m1, m2) ->
  exists sign ds,
    allDigits m1 /\ allDigits ds /\ (sign = EmptyString \/ sign = "-") /\
    m2 = (sign ++ ds)%string /\ tok = (m1 ++ "^" ++ m2)%string.
Proof.
  unfold matchSegPat.
  destruct (spanDigits tok) as [g1 rest] eqn:Hspan.
  apply spanDigits_spec in Hspan. destruct Hspan as (-> & Hg1 & _).
  destruct (isEmpty g1) eqn:Eg1; [discriminate|].
  destruct rest as [|ch rest']; [discriminate|].
  destruct (Ascii.eqb_spec ch "^") as [->|_]; [|discriminate].
  set (sb := match rest' with
             | EmptyString => (EmptyString, rest')
             | String ch' b => if Ascii.eqb ch' "-" then ("-", b) else (EmptyString, rest')
             end).
  assert (Hsb : rest' = (fst sb ++ snd sb)%string /\ (fst sb = EmptyString \/ fst sb = "-")).
  { subst sb. destruct rest' as [|ch' b]; [auto|].
    destruct (Ascii.eqb_spec ch' "-") as [->|_]; simpl; auto. }
  destruct sb as [sign body]. simpl in Hsb. destruct Hsb as [-> Hsign].
  destruct (spanDigits body) as [ds tail] eqn:Hbody.
  apply spanDigits_spec in Hbody. destruct Hbody as (-> & Hds & _).
  destruct (isEmpty ds) eqn:Eds; [discriminate|].
  destruct (isEmpty tail) eqn:Etail; [|discriminate].
  apply isEmpty_true in Etail. subst tail. simpl.
  intros H. injection H as <- <-.
  exists sign, ds. rewrite string_app_nil_r.
  apply isEmpty_false in Eg1, Eds. repeat split; auto.
Qed.

Lemma allDigits_head (ds : string) :
  allDigits ds -> exists ch rest, ds = String ch rest /\ isDigit ch = true.
Proof.
  intros [Hne Hall]. destruct ds as [|ch rest]; [congruence|].
  simpl in Hall. apply andb_true_iff in Hall. exists ch, rest. split; [reflexivity | apply Hall].
Qed.

Lemma matches_iff (tok : string) : matches tok = true <-> SegPattern tok.
Proof.
  unfold matches. split.
  - destruct (matchSegPat tok) as [[m1 m2]|] eqn:E; [intros _ | discriminate].
    destruct (matchSegPat_Some _ _ _ E) as (sign & ds & H1 & Hds & Hsign & -> & ->).
    exists m1, sign, ds. auto.
  - intros (ds & sign & ds' & -> & [Hne Hds] & Hsign & [Hne' Hds']).
    unfold matchSegPat.
    rewrite spanDigits_app; [|exact Hds | reflexivity].
    apply isEmpty_false in Hne. rewrite Hne.
    simpl append at 1. cbn iota. rewrite Ascii.eqb_refl.
    destruct Hsign as [->| ->].
    + destruct (allDigits_head ds' (conj Hne' Hds')) as (ch & rest & E & Hch).
      simpl append. rewrite E.
      destruct (digit_facts ch Hch) as (_ & -> & _). rewrite <- E.
      rewrite spanDigits_digits by exact Hds'.
      apply isEmpty_false in Hne'. rewrite Hne'. reflexivity.
    + simpl append. cbn iota. rewrite Ascii.eqb_refl.
      rewrite spanDigits_digits by exact Hds'.
      apply isEmpty_false in Hne'. rewrite Hne'. reflexivity.
Qed.

Lemma parseTokens_ok (toks : list string) (acc : list EdgeSeg) :
  forallb matches toks = true ->
  exists segs,
    parseTokens toks acc = Next (acc ++ segs) /\
    List.length segs = List.length toks /\
    Forall (fun s => 0 <= size s) segs.
Proof.
  revert acc. induction toks as [|tok toks IH]; intros acc; simpl.
  - intros _. exists []. rewrite List.app_nil_r. auto.
  - unfold matches at 1.
    destruct (matchSegPat tok) as [[m1 m2]|] eqn:E; [|discriminate]. simpl. intros Hall.
    destruct (IH (acc ++ [mkSeg (integerOf (parseInt m1)) (integerOf (parseInt m2))]) Hall)
      as (segs & Hp & Hlen & Hsz).
    exists (mkSeg (integerOf (parseInt m1)) (integerOf (parseInt m2)) :: segs).
    rewrite Hp, <- List.app_assoc. simpl. repeat split; [congruence|].
    constructor; [|exact Hsz]. simpl.
    destruct (matchSegPat_Some _ _ _ E) as (_ & _ & [Hne Hd] & _).
    rewrite parseInt_digits; [apply digitsValue_nonneg | exact Hd | apply isEmpty_false, Hne].
Qed.

Lemma parseTokens_bad (toks : list string) (acc : list EdgeSeg) :
  forallb matches toks = false ->
  exists tok, In tok toks /\ matches tok = false /\
              parseTokens toks acc = Throw (ErrorMsg ("Bad segment token: " ++ tok)).
Proof.
  revert acc. induction toks as [|tok toks IH]; intros acc; simpl; [discriminate|].
  unfold matches at 1.
  destruct (matchSegPat tok) as [[m1 m2]|] eqn:E; simpl.
  - intros H.
    destruct (IH (acc ++ [mkSeg (integerOf (parseInt m1)) (integerOf (parseInt m2))]) H)
      as (t & Hin & Hm & Hp).
    exists t. auto.
  - intros _. exists tok. unfold matches. rewrite E. auto.
Qed.

Lemma parseEdges_ok (txts : list string) (acc : list (list EdgeSeg)) :
  forallb matches (flat_map (split ",") txts) = true ->
  exists es,
    parseEdges txts acc = Next (acc ++ es) /\
    List.length es = List.length txts /\
    Forall (fun edge => edge <> [] /\ Forall (fun s => 0 <= size s) edge) es.
Proof.
  revert acc. induction txts as [|txt txts IH]; intros acc; simpl.
  - intros _. exists []. rewrite List.app_nil_r. auto.
  - rewrite forallb_app, andb_true_iff. intros [Htxt Hrest].
    destruct (parseTokens_ok _ [] Htxt) as (segs & Hp & Hlen & Hsz).
    rewrite Hp. cbn [bind app].
    destruct (IH (acc ++ [segs]) Hrest) as (es & Hpe & Hlen' & Hes).
    exists (segs :: es). rewrite Hpe, <- List.app_assoc. simpl.
    repeat split; [congruence | constructor; [|exact Hes]].
    split; [|exact Hsz]. intros ->.
    pose proof (split_nonempty "," txt) as Hne.
    destruct (split "," txt); [congruence | discriminate].
Qed.

Lemma parseEdges_bad (txts : list string) (acc : list (list EdgeSeg)) :
  forallb matches (flat_map (split ",") txts) = false ->
  exists tok, In tok (flat_map (split ",") txts) /\ matches tok = false /\
              parseEdges txts acc = Throw (ErrorMsg ("Bad segment token: " ++ tok)).
Proof.
  revert acc. induction txts as [|txt txts IH]; intros acc; simpl; [discriminate|].
  rewrite forallb_app.
  destruct (forallb matches (split "," txt)) eqn:Htxt; simpl.
  - intros Hrest.
    destruct (parseTokens_ok _ [] Htxt) as (segs & Hp & _). rewrite Hp. cbn [bind app].
    destruct (IH (acc ++ [segs]) Hrest) as (tok & Hin & Hm & Hpe).
    exists tok. rewrite in_app_iff. auto.
  - intros _. destruct (parseTokens_bad _ [] Htxt) as (tok & Hin & Hm & Hp).
    exists tok. rewrite Hp, in_app_iff. auto.
Qed.

(** The three outcomes of [fromCompact]. *)
Lemma fromCompact_cases (s : string) :
  let parts := split "|" (stripped s) in
  (List.length parts <> 5%nat /\
   fromCompact s = Raised (ErrorMsg "Expected center + 4 edges"))
  \/
  (List.length parts = 5%nat /\ forallb matches (edgeTokens parts) = false /\
   exists tok, In tok (edgeTokens parts) /\ matches tok = false /\
               fromCompact s = Raised (ErrorMsg ("Bad segment token: " ++ tok)))
  \/
  (List.length parts = 5%nat /\ forallb matches (edgeTokens parts) = true /\
   exists es, fromCompact s = Normal (mkCorona (parseInt (nth 0 parts EmptyString)) es) /\
              Representable (mkCorona (parseInt (nth 0 parts EmptyString)) es)).
Proof.
  intros parts. unfold fromCompact. fold parts.
  destruct (Nat.eqb_spec (List.length parts) 5) as [Hlen|Hlen]; cbn [negb bind].
  2:{ left. auto. }
  right. unfold edgeTokens.
  destruct (forallb matches (flat_map (split ",") (skipn 1 parts))) eqn:Hall.
  - right. destruct (parseEdges_ok _ [] Hall) as (es & Hp & Hl & Hes).
    rewrite Hp. cbn [bind app call]. repeat split; auto.
    exists es. split; [reflexivity|]. repeat split; cbn [center edges].
    + unfold parseInt. destruct (splitSign _) as [neg s2].
      destruct (spanDigits s2) as [ds tail]. destruct (isEmpty ds); eauto.
    + rewrite Hl, length_skipn, Hlen. reflexivity.
    + exact Hes.
  - left. destruct (parseEdges_bad _ [] Hall) as (tok & Hin & Hm & Hp).
    rewrite Hp. cbn [bind call]. repeat split; auto. exists tok. auto.
Qed.

(* ================================================================= *)
(** ** Rotation keys *)

Example edgeKey_example :
  edgeKey [mkSeg 2 1; mkSeg 1 0] = "[[1,0],[2,1]]".
Proof. reflexivity. Qed.

Example canonicalRotationEdges_example :
  canonicalRotationEdges [[mkSeg 3 0]; [mkSeg 4 0]; [mkSeg 2 0]; [mkSeg 2 0]]
  = "[[2,0]];[[2,0]];[[3,0]];[[4,0]]".
Proof. reflexivity. Qed.

Lemma ascii_compare_le_trans (a b c : ascii) :
  Ascii.compare a b <> Gt -> Ascii.compare b c <> Gt -> Ascii.compare a c <> Gt.
Proof.
  unfold Ascii.compare. rewrite !N.compare_gt_iff. lia.
Qed.

Lemma string_compare_le_trans (a b c : string) :
  String.compare a b <> Gt -> String.compare b c <> Gt -> String.compare a c <> Gt.
Proof.
  revert b c. induction a as [|x a IH]; intros [|y b] [|z c]; simpl; try congruence.
  unfold Ascii.compare.
  destruct (N.compare_spec (N_of_ascii x) (N_of_ascii y)) as [Exy|Lxy|Gxy];
    destruct (N.compare_spec (N_of_ascii y) (N_of_ascii z)) as [Eyz|Lyz|Gyz];
    destruct (N.compare_spec (N_of_ascii x) (N_of_ascii z)) as [Exz|Lxz|Gxz];
    try congruence; try lia.
  apply IH.
Qed.

Lemma string_compare_refl (a : string) : String.compare a a = Eq.
Proof.
  induction a as [|x a IH]; simpl; [reflexivity|].
  unfold Ascii.compare. rewrite N.compare_refl. exact IH.
Qed.

Lemma byCodeUnits_le (a b : string) : byCodeUnits a b <= 0 <-> String.compare a b <> Gt.
Proof. unfold byCodeUnits. destruct (String.compare a b); split; (congruence || lia). Qed.

Lemma byCodeUnits_total (a b : string) : 0 < byCodeUnits a b -> byCodeUnits b a <= 0.
Proof.
  unfold byCodeUnits. rewrite (String.compare_antisym b a).
  destruct (String.compare a b); simpl; lia.
Qed.

Lemma byCodeUnits_antisym (a b : string) :
  byCodeUnits a b <= 0 -> byCodeUnits b a <= 0 -> a = b.
Proof.
  unfold byCodeUnits. rewrite (String.compare_antisym b a).
  destruct (String.compare a b) eqn:E; simpl; try lia.
  intros _ _. apply String.compare_eq_iff, E.
Qed.

Lemma byCodeUnits_trans (a b c : string) :
  byCodeUnits a b <= 0 -> byCodeUnits b c <= 0 -> byCodeUnits a c <= 0.
Proof. rewrite !byCodeUnits_le. apply string_compare_le_trans. Qed.

(** The first element of the sorted keys is their least element. *)
Lemma sorted_head_least (l : list string) (x : string) :
  In x l ->
  In (nth 0 (sortBy byCodeUnits l) EmptyString) l /\
  byCodeUnits (nth 0 (sortBy byCodeUnits l) EmptyString) x <= 0.
Proof.
  intros Hin.
  pose proof (sortBy_perm byCodeUnits l) as Hperm.
  pose proof (sortBy_ordered byCodeUnits byCodeUnits_total l) as Hord.
  apply Sorted_StronglySorted in Hord.
  2:{ intros a b c. apply byCodeUnits_trans. }
  apply (Permutation_in _ Hperm) in Hin.
  destruct (sortBy byCodeUnits l) as [|h t] eqn:E; [contradiction|].
  simpl. split.
  - apply (Permutation_in _ (Permutation_sym Hperm)). left. reflexivity.
  - inversion Hord as [|? ? _ Hall]; subst. destruct Hin as [->|Hin].
    + unfold byCodeUnits. rewrite string_compare_refl. lia.
    + rewrite Forall_forall in Hall. apply Hall, Hin.
Qed.

Lemma sorted_head_perm (l l' : list string) :
  Permutation l l' -> l <> [] ->
  nth 0 (sortBy byCodeUnits l) EmptyString = nth 0 (sortBy byCodeUnits l') EmptyString.
Proof.
  intros Hperm Hne.
  destruct l as [|x l0] eqn:El; [congruence|]. rewrite <- El in *.
  assert (Hx : In x l) by (rewrite El; left; reflexivity).
  destruct (sorted_head_least l x Hx) as [Hin _].
  pose proof (Permutation_in _ Hperm Hx) as Hx'.
  destruct (sorted_head_least l' x Hx') as [Hin' _].
  apply byCodeUnits_antisym.
  - apply sorted_head_least. apply (Permutation_in _ (Permutation_sym Hperm)), Hin'.
  - apply sorted_head_least. apply (Permutation_in _ Hperm), Hin.
Qed.

(* ================================================================= *)
(** ** The store *)

Lemma unchanged_refl (h : Objects.heap) : Objects.unchanged h h.
Proof. intros l o H. exact H. Qed.

Lemma unchanged_trans (h1 h2 h3 : Objects.heap) :
  Objects.unchanged h1 h2 -> Objects.unchanged h2 h3 -> Objects.unchanged h1 h3.
Proof. intros H12 H23 l o H. apply H23, H12, H. Qed.

Lemma unchanged_app (h ext : Objects.heap) : Objects.unchanged h (h ++ ext).
Proof.
  intros l o H. rewrite nth_error_app1; [exact H|].
  apply nth_error_Some. congruence.
Qed.

Lemma nth_error_update_other (h : Objects.heap) (l l' : Objects.loc) (o : Objects.object) :
  l' <> l -> nth_error (Objects.update h l o) l' = nth_error h l'.
Proof.
  revert l l'. induction h as [|x h IH]; intros [|l] [|l'] Hne; simpl; try reflexivity.
  - congruence.
  - apply IH. congruence.
Qed.

Lemma nth_error_update_same (h : Objects.heap) (l : Objects.loc) (o : Objects.object) :
  (l < List.length h)%nat -> nth_error (Objects.update h l o) l = Some o.
Proof.
  revert l. induction h as [|x h IH]; intros [|l] Hl; simpl in *; try lia; [reflexivity|].
  apply IH. lia.
Qed.

Lemma unchangedBut_update (h : Objects.heap) (l : Objects.loc) (o : Objects.object) :
  unchangedBut l h (Objects.update h l o).
Proof. intros l' o' Hne H. rewrite nth_error_update_other by exact Hne. exact H. Qed.

Lemma unchangedBut_trans (l : Objects.loc) (h1 h2 h3 : Objects.heap) :
  unchangedBut l h1 h2 -> unchangedBut l h2 h3 -> unchangedBut l h1 h3.
Proof. intros H12 H23 l' o Hne H. apply H23, H12; assumption. Qed.

Lemma unchanged_unchangedBut (l : Objects.loc) (h h' : Objects.heap) :
  Objects.unchanged h h' -> unchangedBut l h h'.
Proof. intros H l' o _ Hl. apply H, Hl. Qed.

Lemma update_last (h : Objects.heap) (x o : Objects.object) :
  Objects.update (h ++ [x]) (List.length h) o = h ++ [o].
Proof. induction h as [|y h IH]; simpl; [reflexivity | rewrite IH; reflexivity]. Qed.

Lemma nth_error_new (h : Objects.heap) (x : Objects.object) :
  nth_error (h ++ [x]) (List.length h) = Some x.
Proof. rewrite nth_error_app2, Nat.sub_diag by lia. reflexivity. Qed.

Lemma holdsEdge_unchanged (h h' : Objects.heap) (l : Objects.loc) (e : list EdgeSeg) :
  Objects.unchanged h h' -> Objects.holdsEdge h l e -> Objects.holdsEdge h' l e.
Proof. intros Hu H. apply Hu, H. Qed.

Lemma holdsEdges_unchanged (h h' : Objects.heap) (ls : list Objects.loc)
      (es : list (list EdgeSeg)) :
  Objects.unchanged h h' ->
  Forall2 (Objects.holdsEdge h) ls es -> Forall2 (Objects.holdsEdge h') ls es.
Proof.
  intros Hu H. induction H; constructor; [eapply holdsEdge_unchanged; eauto | assumption].
Qed.

Lemma holdsEdges_unchangedBut (h h' : Objects.heap) (sl : Objects.loc) (o : Objects.object)
      (ls : list Objects.loc) (es : list (list EdgeSeg)) :
  nth_error h sl = Some o -> (forall segs, o <> Objects.SegArray segs) ->
  unchangedBut sl h h' ->
  Forall2 (Objects.holdsEdge h) ls es -> Forall2 (Objects.holdsEdge h') ls es.
Proof.
  intros Hsl Ho Hu H. induction H as [|l e ls es Hl _ IH]; constructor; [|exact IH].
  apply Hu; [|exact Hl]. intros ->. unfold Objects.holdsEdge in Hl.
  rewrite Hsl in Hl. injection Hl as Hl. apply (Ho e), Hl.
Qed.

(** [[...a].sort(cmp)] leaves one new array in the store: the sorted copy. *)
Lemma sorted_copy {R A} (cmp : EdgeSeg -> EdgeSeg -> Z) (l : Objects.loc)
      (e : list EdgeSeg) (k : list EdgeSeg -> Objects.Run R A) (h : Objects.heap) :
  Objects.holdsEdge h l e ->
  Objects.bindH (Objects.spread l) (fun copy =>
  Objects.bindH (Objects.sortInPlace cmp copy) (fun sorted =>
  Objects.bindH (Objects.getSegs sorted) k)) h
  = k (sortBy cmp e) (h ++ [Objects.SegArray (sortBy cmp e)]).
Proof.
  intros Hl. unfold Objects.holdsEdge in Hl.
  unfold Objects.bindH, Objects.spread, Objects.sortInPlace, Objects.getSegs,
    Objects.allocate, Objects.store, Objects.ret, Objects.bindH.
  rewrite Hl. rewrite nth_error_new. rewrite update_last. rewrite nth_error_new.
  reflexivity.
Qed.

Lemma checkEdge_on_objects (c : Z) (allowedSizes : list Z) (ei : nat)
      (l : Objects.loc) (e : list EdgeSeg) (h : Objects.heap) :
  Objects.holdsEdge h l e ->
  exists h', Objects.checkEdge c allowedSizes ei l h = (checkEdge c allowedSizes ei e, h')
             /\ Objects.unchanged h h'.
Proof.
  intros Hl. unfold Objects.checkEdge, checkEdge.
  unfold Objects.bindH at 1. unfold Objects.getSegs at 1.
  pose proof Hl as Hl'. unfold Objects.holdsEdge in Hl'. rewrite Hl'.
  unfold Objects.bindH at 1. unfold Objects.pure at 1.
  destruct (List.length e =? 0)%nat; cbn [returnIf bind].
  - exists h. split; [reflexivity | apply unchanged_refl].
  - rewrite (sorted_copy byOffsetThenSize l e _ h Hl).
    eexists. split; [reflexivity | apply unchanged_app].
Qed.

Lemma checkEdges_on_objects (c : Z) (allowedSizes : list Z) (ls : list Objects.loc)
      (es : list (list EdgeSeg)) :
  forall (ei : nat) (h : Objects.heap),
    Forall2 (Objects.holdsEdge h) ls es ->
    exists h', Objects.checkEdges c allowedSizes ei ls h
               = (checkEdges c allowedSizes ei es, h')
               /\ Objects.unchanged h h'.
Proof.
  revert es. induction ls as [|l ls IH]; intros es ei h H; inversion H as [|? e ? es' Hl Hrest]; subst.
  - exists h. split; [reflexivity | apply unchanged_refl].
  - cbn [Objects.checkEdges checkEdges]. unfold Objects.bindH at 1.
    destruct (checkEdge_on_objects c allowedSizes ei l e h Hl) as (h1 & -> & Hu1).
    destruct (checkEdge c allowedSizes ei e) as [[]|r|err]; cbn [bind].
    + destruct (IH es' (S ei) h1 (holdsEdges_unchanged _ _ _ _ Hu1 Hrest)) as (h2 & -> & Hu2).
      exists h2. split; [reflexivity | eapply unchanged_trans; eauto].
    + exists h1. auto.
    + exists h1. auto.
Qed.

Lemma holdsEdges_nth (h : Objects.heap) (ls : list Objects.loc) (es : list (list EdgeSeg))
      (i : nat) :
  Forall2 (Objects.holdsEdge h) ls es ->
  (nth_error ls i = None /\ nth_error es i = None) \/
  (exists l e, nth_error ls i = Some l /\ nth_error es i = Some e /\ Objects.holdsEdge h l e).
Proof.
  intros H. revert i. induction H as [|l e ls es Hl _ IH]; intros [|i]; simpl; auto.
  right. eauto.
Qed.

(** Running the primitive blocks. *)
Lemma run_pure {R A B} (m : Control R A) (k : A -> Objects.Run R B) (h : Objects.heap) :
  Objects.bindH (Objects.pure m) k h
  = match m with
    | Next a => k a h
    | Return r => (Return r, h)
    | Throw e => (Throw e, h)
    end.
Proof. unfold Objects.bindH, Objects.pure. destruct m; reflexivity. Qed.

Lemma run_allocate {R B} (o : Objects.object) (k : Objects.loc -> Objects.Run R B)
      (h : Objects.heap) :
  Objects.bindH (Objects.allocate o) k h = k (List.length h) (h ++ [o]).
Proof. reflexivity. Qed.

Lemma run_store {R B} (l : Objects.loc) (o : Objects.object) (k : unit -> Objects.Run R B)
      (h : Objects.heap) :
  Objects.bindH (Objects.store l o) k h = k tt (Objects.update h l o).
Proof. reflexivity. Qed.

Lemma run_getSegs {R B} (l : Objects.loc) (e : list EdgeSeg)
      (k : list EdgeSeg -> Objects.Run R B) (h : Objects.heap) :
  nth_error h l = Some (Objects.SegArray e) ->
  Objects.bindH (Objects.getSegs l) k h = k e h.
Proof. intros H. unfold Objects.bindH, Objects.getSegs. rewrite H. reflexivity. Qed.

Lemma run_getNumbers {R B} (l : Objects.loc) (nums : list Z)
      (k : list Z -> Objects.Run R B) (h : Objects.heap) :
  nth_error h l = Some (Objects.NumberArray nums) ->
  Objects.bindH (Objects.getNumbers l) k h = k nums h.
Proof. intros H. unfold Objects.bindH, Objects.getNumbers. rewrite H. reflexivity. Qed.

Lemma run_getStrings {R B} (l : Objects.loc) (strs : list string)
      (k : list string -> Objects.Run R B) (h : Objects.heap) :
  nth_error h l = Some (Objects.StringArray strs) ->
  Objects.bindH (Objects.getStrings l) k h = k strs h.
Proof. intros H. unfold Objects.bindH, Objects.getStrings. rewrite H. reflexivity. Qed.

Lemma run_getEdges {R B} (l : Objects.loc) (es : list Objects.loc)
      (k : list Objects.loc -> Objects.Run R B) (h : Objects.heap) :
  nth_error h l = Some (Objects.EdgeArray es) ->
  Objects.bindH (Objects.getEdges l) k h = k es h.
Proof. intros H. unfold Objects.bindH, Objects.getEdges. rewrite H. reflexivity. Qed.

Lemma run_sortStrings {R B} (a : Objects.loc) (strs : list string)
      (k : Objects.loc -> Objects.Run R B) (h : Objects.heap) :
  nth_error h a = Some (Objects.StringArray strs) ->
  Objects.bindH (Objects.sortStringsInPlace a) k h
  = k a (Objects.update h a (Objects.StringArray (sortBy byCodeUnits strs))).
Proof.
  intros H. unfold Objects.sortStringsInPlace, Objects.bindH, Objects.getStrings,
    Objects.store, Objects.ret.
  rewrite H. reflexivity.
Qed.

(** [[...a].sort(cmp)]: one new array, sorted; [a] is only read. *)
Lemma run_sorted_copy {R B} (cmp : EdgeSeg -> EdgeSeg -> Z) (l : Objects.loc)
      (e : list EdgeSeg) (k : Objects.loc -> Objects.Run R B) (h : Objects.heap) :
  nth_error h l = Some (Objects.SegArray e) ->
  Objects.bindH (Objects.spread l) (fun copy =>
  Objects.bindH (Objects.sortInPlace cmp copy) k) h
  = k (List.length h) (h ++ [Objects.SegArray (sortBy cmp e)]).
Proof.
  intros Hl.
  unfold Objects.bindH, Objects.spread, Objects.sortInPlace, Objects.getSegs,
    Objects.allocate, Objects.store, Objects.ret, Objects.bindH.
  rewrite Hl. rewrite nth_error_new. rewrite update_last. reflexivity.
Qed.

Lemma cornerStep_on_objects (c : Z) (ls : list Objects.loc) (es : list (list EdgeSeg))
      (sl : Objects.loc) (g : bool) (sizes : list Z) (ei : nat) (h : Objects.heap) :
  Forall2 (Objects.holdsEdge h) ls es ->
  nth_error h sl = Some (Objects.NumberArray sizes) ->
  exists h',
    Objects.cornerStep c ls sl g ei h = (mapNext fst (cornerStep c es (g, sizes) ei), h')
    /\ unchangedBut sl h h'
    /\ nth_error h' sl
       = Some (Objects.NumberArray (match cornerStep c es (g, sizes) ei with
                                    | Next st => snd st
                                    | _ => sizes
                                    end)).
Proof.
  intros Hes Hsl.
  remember (cornerStep c es (g, sizes) ei) as p eqn:Hp.
  unfold cornerStep, at_ in Hp.
  unfold Objects.cornerStep. rewrite run_pure. unfold at_.
  destruct (holdsEdges_nth h ls es ei Hes) as [[E1 E1']|(l & e & E1 & E1' & Hl)];
    rewrite E1; rewrite E1' in Hp; cbn [bind] in Hp.
  { subst p. exists h. repeat split; auto using unchanged_unchangedBut, unchanged_refl. }
  rewrite run_pure.
  destruct (holdsEdges_nth h ls es ((ei + 1) mod 4) Hes)
    as [[E2 E2']|(ln & en & E2 & E2' & Hln)];
    rewrite E2; rewrite E2' in Hp; cbn [bind] in Hp.
  { subst p. exists h. repeat split; auto using unchanged_unchangedBut, unchanged_refl. }
  rewrite (run_sorted_copy byOffset l e _ h Hl).
  set (h1 := h ++ [Objects.SegArray (sortBy byOffset e)]).
  assert (Hu1 : Objects.unchanged h h1) by apply unchanged_app.
  rewrite (run_sorted_copy byOffset ln en _ h1 (Hu1 _ _ Hln)).
  set (h2 := h1 ++ [Objects.SegArray (sortBy byOffset en)]).
  assert (Hu12 : Objects.unchanged h1 h2) by apply unchanged_app.
  assert (Hu2 : Objects.unchanged h h2) by (eapply unchanged_trans; eauto).
  rewrite (run_getSegs (List.length h) (sortBy byOffset e)).
  2:{ apply Hu12. apply nth_error_new. }
  rewrite (run_getSegs (List.length h1) (sortBy byOffset en)) by apply nth_error_new.
  rewrite (run_getNumbers sl sizes) by (apply Hu2, Hsl).
  rewrite run_pure. rewrite <- Hp.
  destruct p as [st|r|err]; cbn [mapNext].
  - rewrite run_store. unfold Objects.ret.
    eexists. split; [reflexivity|]. split.
    + eapply unchangedBut_trans; [apply unchanged_unchangedBut, Hu2|].
      apply unchangedBut_update.
    + apply nth_error_update_same.
      apply nth_error_Some. rewrite (Hu2 _ _ Hsl). discriminate.
  - exists h2. repeat split; auto using unchanged_unchangedBut.
  - exists h2. repeat split; auto using unchanged_unchangedBut.
Qed.

Lemma cornerLoop_on_objects (c : Z) (ls : list Objects.loc) (es : list (list EdgeSeg))
      (sl : Objects.loc) (eis : list nat) :
  forall (g : bool) (sizes : list Z) (h : Objects.heap),
    Forall2 (Objects.holdsEdge h) ls es ->
    nth_error h sl = Some (Objects.NumberArray sizes) ->
    exists h',
      Objects.cornerLoop c ls sl g eis h = (mapNext fst (cornerLoop c es (g, sizes) eis), h')
      /\ unchangedBut sl h h'
      /\ (forall st, cornerLoop c es (g, sizes) eis = Next st ->
                     nth_error h' sl = Some (Objects.NumberArray (snd st))).
Proof.
  induction eis as [|ei eis IH]; intros g sizes h Hes Hsl.
  - exists h. split; [reflexivity|]. split.
    + apply unchanged_unchangedBut, unchanged_refl.
    + intros st E. injection E as <-. exact Hsl.
  - cbn [Objects.cornerLoop cornerLoop]. unfold Objects.bindH at 1.
    destruct (cornerStep_on_objects c ls es sl g sizes ei h Hes Hsl) as (h1 & -> & Hu1 & Hs1).
    destruct (cornerStep c es (g, sizes) ei) as [[g1 sizes1]|r|err]; cbn [mapNext bind fst].
    + cbn [snd] in Hs1.
      assert (Hes1 : Forall2 (Objects.holdsEdge h1) ls es).
      { eapply holdsEdges_unchangedBut; [exact Hsl | discriminate | exact Hu1 | exact Hes]. }
      destruct (IH g1 sizes1 h1 Hes1 Hs1) as (h2 & -> & Hu2 & Hs2).
      exists h2. split; [reflexivity|]. split; [|exact Hs2].
      eapply unchangedBut_trans; eauto.
    + exists h1. repeat split; auto. discriminate.
    + exists h1. repeat split; auto. discriminate.
Qed.

Lemma validateBody_on_objects (c : Z) (allowedSizes : list Z) (el : Objects.loc)
      (ls : list Objects.loc) (es : list (list EdgeSeg)) (h : Objects.heap) :
  nth_error h el = Some (Objects.EdgeArray ls) ->
  Forall2 (Objects.holdsEdge h) ls es ->
  exists h', Objects.validateBody c allowedSizes el h = (validateBody c allowedSizes es, h')
             /\ Objects.unchanged h h'.
Proof.
  intros Hel Hes. unfold Objects.validateBody, validateBody.
  rewrite (run_getEdges el ls) by exact Hel. rewrite run_pure.
  rewrite (Forall2_length Hes).
  destruct (negb (List.length es =? 4)%nat); cbn [returnIf bind].
  { exists h. split; [reflexivity | apply unchanged_refl]. }
  unfold Objects.bindH at 1.
  destruct (checkEdges_on_objects c allowedSizes ls es 0 h Hes) as (h1 & -> & Hu1).
  destruct (checkEdges c allowedSizes 0 es) as [[]|r|err]; cbn [bind].
  2,3: exists h1; split; [reflexivity | exact Hu1].
  rewrite run_allocate.
  set (sl := List.length h1). set (h2 := h1 ++ [Objects.NumberArray []]).
  assert (Hu12 : Objects.unchanged h1 h2) by apply unchanged_app.
  assert (Hes2 : Forall2 (Objects.holdsEdge h2) ls es).
  { eapply holdsEdges_unchanged; [|exact Hes]. eapply unchanged_trans; eauto. }
  assert (Hsl : nth_error h2 sl = Some (Objects.NumberArray [])) by apply nth_error_new.
  unfold Objects.bindH at 1. unfold cornerGapCheck.
  destruct (cornerLoop_on_objects c ls es sl [0; 1; 2; 3]%nat false [] h2 Hes2 Hsl)
    as (h3 & -> & Hu3 & Hs3).
  assert (Hu : Objects.unchanged h h3).
  { intros l o Hl. apply Hu3.
    - apply Hu1 in Hl. assert (l < List.length h1)%nat by (apply nth_error_Some; congruence).
      unfold sl. lia.
    - apply Hu12, Hu1, Hl. }
  destruct (cornerLoop c es (false, []) [0; 1; 2; 3]%nat) as [[g sizes]|r|err];
    cbn [mapNext bind fst].
  2,3: exists h3; split; [reflexivity | exact Hu].
  rewrite (run_getNumbers sl sizes) by (apply (Hs3 (g, sizes)); reflexivity).
  rewrite run_pure.
  destruct (cornerVerdict (g, sizes)) as [[]|r|err]; cbn [bind].
  - exists h3. split; [reflexivity | exact Hu].
  - exists h3. split; [reflexivity | exact Hu].
  - exists h3. split; [reflexivity | exact Hu].
Qed.

Lemma holds_unchanged (h h' : Objects.heap) (cor : Objects.CoronaObj) (v : Corona) :
  Objects.unchanged h h' -> Objects.holds h cor v -> Objects.holds h' cor v.
Proof.
  intros Hu (Hc & ls & Hel & Hes). split; [exact Hc|].
  exists ls. split; [apply Hu, Hel | eapply holdsEdges_unchanged; eauto].
Qed.

Lemma validate_on_objects (h : Objects.heap) (cor : Objects.CoronaObj) (v : Corona)
      (allowedSizes : list Z) :
  Objects.holds h cor v ->
  exists h', Objects.validate cor allowedSizes h = (validate v allowedSizes, h')
             /\ Objects.unchanged h h'.
Proof.
  intros (Hc & ls & Hel & Hes). unfold Objects.validate, validate. rewrite Hc. cbv zeta.
  destruct (negb (Number_isInteger (center v)) || (integerOf (center v) <=? 0)).
  - exists h. split; [reflexivity | apply unchanged_refl].
  - unfold Objects.runCall.
    destruct (validateBody_on_objects (integerOf (center v)) allowedSizes _ ls (edges v) h
                                      Hel Hes) as (h' & -> & Hu).
    exists h'. split; [reflexivity | exact Hu].
Qed.

(** The rotation keys, on objects *)
Lemma edgeKey_on_objects (l : Objects.loc) (e : list EdgeSeg) (h : Objects.heap) :
  Objects.holdsEdge h l e ->
  exists h', Objects.edgeKey l h = (Next (edgeKey e), h') /\ Objects.unchanged h h'.
Proof.
  intros Hl. unfold Objects.edgeKey, edgeKey.
  rewrite (run_sorted_copy byOffsetThenSize l e _ h Hl).
  rewrite (run_getSegs (List.length h) (sortBy byOffsetThenSize e)) by apply nth_error_new.
  eexists. split; [reflexivity | apply unchanged_app].
Qed.

Lemma edgeKeys_on_objects (rot : list Objects.loc) (es : list (list EdgeSeg)) :
  forall h, Forall2 (Objects.holdsEdge h) rot es ->
            exists h', Objects.edgeKeys rot h = (Next (map edgeKey es), h')
                       /\ Objects.unchanged h h'.
Proof.
  revert es. induction rot as [|l rot IH]; intros es h H;
    inversion H as [|? e ? es' Hl Hrest]; subst.
  - exists h. split; [reflexivity | apply unchanged_refl].
  - cbn [Objects.edgeKeys map]. unfold Objects.bindH at 1.
    destruct (edgeKey_on_objects l e h Hl) as (h1 & -> & Hu1).
    unfold Objects.bindH at 1.
    destruct (IH es' h1 (holdsEdges_unchanged _ _ _ _ Hu1 Hrest)) as (h2 & -> & Hu2).
    exists h2. split; [reflexivity | eapply unchanged_trans; eauto].
Qed.

Lemma holdsEdges_rotation (h : Objects.heap) (ls : list Objects.loc)
      (es : list (list EdgeSeg)) (k : nat) :
  Forall2 (Objects.holdsEdge h) ls es ->
  Forall2 (Objects.holdsEdge h) (rotation k ls) (rotation k es).
Proof.
  intros H. unfold rotation. apply Forall2_app.
  - revert k. induction H; intros [|k]; simpl; auto.
  - revert k. induction H; intros [|k]; simpl; auto.
Qed.

Lemma rotationLoop_on_objects (ls : list Objects.loc) (es : list (list EdgeSeg))
      (kl : Objects.loc) (ks : list nat) :
  forall (keys : list string) (h : Objects.heap),
    Forall2 (Objects.holdsEdge h) ls es ->
    nth_error h kl = Some (Objects.StringArray keys) ->
    exists h',
      Objects.rotationLoop ls kl ks h = (Next tt, h')
      /\ unchangedBut kl h h'
      /\ nth_error h' kl
         = Some (Objects.StringArray
                   (fold_left (fun keys k =>
                                 keys ++ [join ";" (map edgeKey (rotation k es))])
                              ks keys)).
Proof.
  induction ks as [|k ks IH]; intros keys h Hes Hkl.
  - exists h. split; [reflexivity|]. split; [|exact Hkl].
    apply unchanged_unchangedBut, unchanged_refl.
  - cbn [Objects.rotationLoop fold_left]. unfold Objects.bindH at 1.
    destruct (edgeKeys_on_objects _ _ h (holdsEdges_rotation h ls es k Hes))
      as (h1 & -> & Hu1).
    unfold Objects.pushString.
    unfold Objects.bindH at 1.
    rewrite (run_getStrings kl keys) by (apply Hu1, Hkl).
    unfold Objects.store at 1.
    set (keys1 := keys ++ [join ";" (map edgeKey (rotation k es))]).
    set (h2 := Objects.update h1 kl (Objects.StringArray keys1)).
    assert (Hkl2 : nth_error h2 kl = Some (Objects.StringArray keys1)).
    { apply nth_error_update_same, nth_error_Some. rewrite (Hu1 _ _ Hkl). discriminate. }
    assert (Hu2 : unchangedBut kl h h2).
    { eapply unchangedBut_trans; [apply unchanged_unchangedBut, Hu1|].
      apply unchangedBut_update. }
    assert (Hes2 : Forall2 (Objects.holdsEdge h2) ls es).
    { eapply holdsEdges_unchangedBut; [exact Hkl | discriminate | exact Hu2 | exact Hes]. }
    destruct (IH keys1 h2 Hes2 Hkl2) as (h3 & -> & Hu3 & Hk3).
    exists h3. split; [reflexivity|]. split; [|exact Hk3].
    eapply unchangedBut_trans; eauto.
Qed.

Lemma canonicalRotationEdges_on_objects (h : Objects.heap) (el : Objects.loc)
      (ls : list Objects.loc) (es : list (list EdgeSeg)) :
  nth_error h el = Some (Objects.EdgeArray ls) ->
  Forall2 (Objects.holdsEdge h) ls es ->
  exists h', Objects.canonicalRotationEdges el h = (Normal (canonicalRotationEdges es), h')
             /\ Objects.unchanged h h'.
Proof.
  intros Hel Hes. unfold Objects.canonicalRotationEdges, Objects.runCall.
  rewrite (run_getEdges el ls) by exact Hel. rewrite run_allocate.
  set (kl := List.length h). set (h1 := h ++ [Objects.StringArray []]).
  assert (Hu1 : Objects.unchanged h h1) by apply unchanged_app.
  assert (Hkl : nth_error h1 kl = Some (Objects.StringArray [])) by apply nth_error_new.
  unfold Objects.bindH at 1.
  destruct (rotationLoop_on_objects ls es kl [0; 1; 2; 3]%nat [] h1
              (holdsEdges_unchanged _ _ _ _ Hu1 Hes) Hkl) as (h2 & -> & Hu2 & Hk2).
  rewrite (run_sortStrings kl _ _ h2 Hk2).
  match goal with
  | |- context [Objects.update h2 kl ?o] => set (h3 := Objects.update h2 kl o)
  end.
  rewrite (run_getStrings kl (sortBy byCodeUnits
             (fold_left (fun keys k => keys ++ [join ";" (map edgeKey (rotation k es))])
                        [0; 1; 2; 3]%nat []))).
  2:{ apply nth_error_update_same, nth_error_Some. rewrite Hk2. discriminate. }
  unfold Objects.pure. exists h3. split; [reflexivity|].
  intros l o Hl. unfold h3. rewrite nth_error_update_other.
  - apply Hu2; [|apply Hu1, Hl].
    assert (l < List.length h)%nat by (apply nth_error_Some; congruence). unfold kl. lia.
  - assert (l < List.length h)%nat by (apply nth_error_Some; congruence). unfold kl. lia.
Qed.

(* ================================================================= *)
(** ** Properties of the validator *)

(** Small numbers are safe integers. *)
Ltac safe_numbers :=
  unfold ExactFor, SafeNumbers, SafeSegments, safeSeg; cbn [center edges];
  repeat match goal with
         | |- _ /\ _ => split
         | |- Forall _ _ => constructor
         | |- True => exact I
         end;
  unfold safeInteger, maxSafeInteger; cbn [size offset]; lia.

Lemma anyCornerGap_true (c : Z) (es : list (list EdgeSeg)) :
  anyCornerGap c es = true <-> exists i, (i < 4)%nat /\ cornerGapAt c es i.
Proof.
  unfold anyCornerGap. rewrite existsb_exists. split.
  - intros [i [Hi Hg]]. exists i. split.
    + simpl in Hi. lia.
    + unfold cornerGapb in Hg. apply andb_true_iff in Hg.
      rewrite !Z.eqb_eq in Hg. exact Hg.
  - intros [i [Hi [Ho Hf]]]. exists i. split.
    + simpl. lia.
    + unfold cornerGapb. rewrite Ho, Hf. reflexivity.
Qed.

Lemma lastSizesSame_true (es : list (list EdgeSeg)) :
  lastSizesSame es = true <-> lastSizesIdentical es.
Proof.
  unfold lastSizesSame, lastSizesIdentical. rewrite forallb_forall. split.
  - intros H i j Hi Hj.
    assert (Hi' : In i [0; 1; 2; 3]%nat) by (simpl; lia).
    assert (Hj' : In j [0; 1; 2; 3]%nat) by (simpl; lia).
    apply H in Hi', Hj'. apply Z.eqb_eq in Hi', Hj'. congruence.
  - intros H i Hi. apply Z.eqb_eq, H; simpl in Hi; lia.
Qed.

Lemma Forall_nth_lt {A} (P : A -> Prop) (d : A) (l : list A) :
  (forall i, (i < List.length l)%nat -> P (nth i l d)) -> Forall P l.
Proof.
  intros H. apply Forall_forall. intros x Hx.
  destruct (In_nth l x d Hx) as [i [Hi <-]]. apply H, Hi.
Qed.

(** C1, as amended.  For a corona with a positive integer center and four
    edges that each pass the edge-local rules, all of whose numbers and sums
    are safe integers: when some corner has a 1x1 gap (overhang 1, next edge
    starting with a size-1 segment) and the four last-segment sizes are not
    all the same, [validate] answers [ok: false] with the reason "1x1 corner
    gap with asymmetric edges"; when the four last-segment sizes are all the
    same, or no corner has such a gap, it answers [ok: true]. *)
Theorem validate_corner_gap_rule (c : Z) (allowedSizes : list Z) (es : list (list EdgeSeg)) :
  0 < c ->
  SafeSegments c es ->
  List.length es = 4%nat ->
  (forall i, (i < 4)%nat -> EdgePasses c allowedSizes (edgeAt es i)) ->
  ((exists i, (i < 4)%nat /\ cornerGapAt c es i) /\ ~ lastSizesIdentical es ->
   exists w, validate (mkCorona (Int c) es) allowedSizes
             = Normal (mkResult false (Some "1x1 corner gap with asymmetric edges") w))
  /\
  (lastSizesIdentical es \/ ~ (exists i, (i < 4)%nat /\ cornerGapAt c es i) ->
   validate (mkCorona (Int c) es) allowedSizes = Normal (mkResult true None None)).
Proof.
  intros Hc _ Hlen Hpass.
  assert (Hall : Forall (EdgePasses c allowedSizes) es).
  { apply (Forall_nth_lt _ []). rewrite Hlen. exact Hpass. }
  destruct (validate_agrees (mkCorona (Int c) es) allowedSizes) as [r [Hr Hv]].
  rewrite Hr. unfold verdictOf, checksAsEvaluated, centerCheck, countCheck in Hv.
  cbn [center edges integerOf] in Hv.
  apply Z.ltb_lt in Hc. rewrite Hc, Hlen in Hv. cbn [Nat.eqb failsWith firstFailure] in Hv.
  rewrite firstFailure_app in Hv.
  apply edgesChecks_None in Hall. rewrite Hall in Hv. cbn [firstFailure] in Hv.
  unfold cornerCheck in Hv.
  split.
  - intros [Hgap Hasym].
    apply anyCornerGap_true in Hgap. rewrite Hgap in Hv.
    destruct (lastSizesSame es) eqn:Hs.
    { apply lastSizesSame_true in Hs. contradiction. }
    simpl in Hv. destruct r as [o rs w]. simpl in Hv. destruct Hv as [-> ->].
    exists w. reflexivity.
  - intros Hok.
    assert (Hb : negb (anyCornerGap c es) || lastSizesSame es = true).
    { destruct Hok as [Hsame|Hnogap].
      - apply lastSizesSame_true in Hsame. rewrite Hsame. apply orb_true_r.
      - destruct (anyCornerGap c es) eqn:Hg; [|reflexivity].
        apply anyCornerGap_true in Hg. contradiction. }
    rewrite Hb in Hv. simpl in Hv. rewrite Hv. reflexivity.
Qed.

Lemma validate_corner_gap_rule_witness :
  (exists w, validate (mkCorona (Int 2) [[mkSeg 1 0; mkSeg 2 1]; [mkSeg 1 0; mkSeg 2 1];
                                         [mkSeg 1 0; mkSeg 4 1]; [mkSeg 1 0; mkSeg 4 1]])
                      defaultSizes
             = Normal (mkResult false (Some "1x1 corner gap with asymmetric edges") w)).
Proof.
  refine (proj1 (validate_corner_gap_rule 2 defaultSizes
                   [[mkSeg 1 0; mkSeg 2 1]; [mkSeg 1 0; mkSeg 2 1];
                    [mkSeg 1 0; mkSeg 4 1]; [mkSeg 1 0; mkSeg 4 1]] _ _ _ _) _).
  - lia.
  - safe_numbers.
  - reflexivity.
  - intros i Hi.
    assert (Hcases : i = 0%nat \/ i = 1%nat \/ i = 2%nat \/ i = 3%nat) by lia.
    destruct Hcases as [-> | [-> | [-> | ->]]];
      (apply (checkEdge_Next_iff 2 defaultSizes 0); reflexivity).
  - split.
    + exists 1%nat. split; [lia | split; reflexivity].
    + intros H. specialize (H 0%nat 2%nat). vm_compute in H.
      assert (H' : 2 = 4) by (apply H; lia). discriminate.
Defined.

(** C1, as stated, fails when the center is not a positive integer: with
    center 0 the four edges [2^0] pass the edge-local rules (offset 0 is in
    [0, 0], size 2 is not the center, the walk reaches 0), their last-segment
    sizes are all the same and no corner has a 1x1 gap, yet [validate]
    answers [ok: false], for the center. *)
Lemma corner_rule_needs_positive_center :
  (forall i, (i < 4)%nat -> EdgePasses 0 defaultSizes (edgeAt zeroCenterEdges i))
  /\ lastSizesIdentical zeroCenterEdges
  /\ ~ (exists i, (i < 4)%nat /\ cornerGapAt 0 zeroCenterEdges i)
  /\ validate (mkCorona (Int 0) zeroCenterEdges) defaultSizes
     = Normal (mkResult false (Some "center must be a positive integer") None).
Proof.
  split; [|split; [|split]].
  - intros i Hi.
    assert (Hcases : i = 0%nat \/ i = 1%nat \/ i = 2%nat \/ i = 3%nat) by lia.
    destruct Hcases as [-> | [-> | [-> | ->]]];
      (apply (checkEdge_Next_iff 0 defaultSizes 0); reflexivity).
  - apply lastSizesSame_true. reflexivity.
  - intros H. apply anyCornerGap_true in H. discriminate H.
  - reflexivity.
Qed.

(** C4, as amended.  On a corona all of whose numbers and sums are safe
    integers, [validate] returns the verdict of the first failing check in
    the order: center; edge count; then edge by edge (a) non-empty, then
    segment by segment in sorted order the size, the offset and the
    center-aligned rule of that segment, then (d) equal adjacent sizes, (e)
    start at 0, (f) the walk, (g) reaching the center; then the corner rule.
    It answers [ok: true] when no check fails. *)
Theorem validate_first_failing_check (cor : Corona) (allowedSizes : list Z) :
  ExactFor cor ->
  exists r,
    validate cor allowedSizes = Normal r /\
    reason r = firstFailure (checksAsEvaluated cor allowedSizes) /\
    ok r = match firstFailure (checksAsEvaluated cor allowedSizes) with
           | None => true
           | Some _ => false
           end.
Proof.
  intros _.
  destruct (validate_agrees cor allowedSizes) as [r [Hr Hv]].
  exists r. split; [exact Hr|]. unfold verdictOf in Hv.
  destruct (firstFailure (checksAsEvaluated cor allowedSizes)) as [why|].
  - destruct Hv as [Hok Hwhy]. auto.
  - subst r. split; reflexivity.
Qed.

Lemma validate_first_failing_check_witness :
  exists r,
    validate misorderedCorona defaultSizes = Normal r /\
    reason r = firstFailure (checksAsEvaluated misorderedCorona defaultSizes) /\
    ok r = match firstFailure (checksAsEvaluated misorderedCorona defaultSizes) with
           | None => true
           | Some _ => false
           end.
Proof.
  apply validate_first_failing_check. unfold misorderedCorona. safe_numbers.
Defined.

(** C4, as stated, fails: with (b) checked for every segment before (c), the
    first failing check of [misorderedCorona] is the size of its second
    segment, but [validate] reports the center-aligned first segment. *)
Lemma validate_not_in_listed_order :
  validate misorderedCorona defaultSizes
  = Normal (mkResult false (Some "not unilateral (center-sized aligned)")
                     (Some (WhereSeg 0 (mkSeg 2 0))))
  /\ firstFailure (checksAsListed misorderedCorona defaultSizes)
     = Some "invalid segment size"
  /\ ~ (forall cor allowedSizes r,
          validate cor allowedSizes = Normal r ->
          reason r = firstFailure (checksAsListed cor allowedSizes)).
Proof.
  split; [reflexivity|]. split; [reflexivity|].
  intros H. specialize (H misorderedCorona defaultSizes _ eq_refl). discriminate.
Qed.

(** The reason of the corner rule is the reason of no other check. *)
Lemma firstFailure_last (l : list (option string)) (chk : option string) (why : string) :
  Forall (fun x => x <> Some why) l ->
  firstFailure (l ++ [chk]) = Some why ->
  firstFailure l = None.
Proof.
  induction 1 as [|x l Hx Hl IH]; simpl; [reflexivity|].
  destruct x as [w|]; [|exact IH].
  intros E. congruence.
Qed.

Lemma failsWith_neq (b : bool) (w why : string) :
  w <> why -> failsWith b w <> Some why.
Proof. destruct b; simpl; congruence. Qed.

Lemma edgeChecks_not_corner (c : Z) (allowedSizes : list Z) (edge : list EdgeSeg) :
  Forall (fun x => x <> Some cornerReason) (edgeChecks c allowedSizes edge).
Proof.
  unfold edgeChecks. constructor; [apply failsWith_neq; discriminate|].
  apply Forall_app. split.
  - apply Forall_flat_map, Forall_forall. intros s _.
    repeat constructor; apply failsWith_neq; discriminate.
  - repeat constructor; apply failsWith_neq; discriminate.
Qed.

Lemma checks_before_corner (cor : Corona) (allowedSizes : list Z) (r : ValidationResult) :
  validate cor allowedSizes = Normal r ->
  ok r = true \/ reason r = Some cornerReason ->
  firstFailure (centerCheck (center cor) :: countCheck (edges cor)
                :: flat_map (edgeChecks (integerOf (center cor)) allowedSizes) (edges cor))
  = None.
Proof.
  intros Hr Hcorner.
  destruct (validate_agrees cor allowedSizes) as [r' [Hr' Hv]].
  rewrite Hr in Hr'. injection Hr' as <-.
  unfold verdictOf, checksAsEvaluated in Hv.
  set (l := flat_map _ _) in *.
  change (centerCheck (center cor) :: countCheck (edges cor) :: l ++ ?x)
    with ((centerCheck (center cor) :: countCheck (edges cor) :: l) ++ x) in Hv.
  destruct (firstFailure (_ ++ _)) as [why|] eqn:Hff.
  - destruct Hv as [Hok Hwhy]. destruct Hcorner as [Ht|Hc]; [congruence|].
    assert (why = cornerReason) by congruence. subst why.
    eapply firstFailure_last; [|exact Hff].
    constructor; [apply failsWith_neq; discriminate|].
    constructor; [apply failsWith_neq; discriminate|].
    subst l. apply Forall_flat_map, Forall_forall. intros e _.
    apply edgeChecks_not_corner.
  - rewrite firstFailure_app in Hff.
    destruct (firstFailure (_ :: _ :: l)); [discriminate | reflexivity].
Qed.

(** C9. On every corona value [validate] returns a result and raises
    nothing; a failing result carries a reason.  A verdict of the corner step
    ([ok: true], or its own failure) is only produced when the center is a
    positive integer, there are four edges and none of them is empty, so the
    corner step reads first and last segments only of edges that have them;
    and when all numbers and sums are safe integers, each of the four edges
    then passes the edge-local rules, the walk among them. *)
Theorem validate_total (cor : Corona) (allowedSizes : list Z) :
  (exists r, validate cor allowedSizes = Normal r /\
             (ok r = false -> exists why, reason r = Some why))
  /\
  (forall r, validate cor allowedSizes = Normal r ->
             ok r = true \/ reason r = Some "1x1 corner gap with asymmetric edges" ->
             exists c, center cor = Int c /\ 0 < c /\
                       List.length (edges cor) = 4%nat /\
                       Forall (fun edge => edge <> []) (edges cor) /\
                       (SafeSegments c (edges cor) ->
                        Forall (EdgePasses c allowedSizes) (edges cor))).
Proof.
  split.
  - destruct (validate_agrees cor allowedSizes) as [r [Hr Hv]].
    exists r. split; [exact Hr|]. unfold verdictOf in Hv.
    destruct (firstFailure _) as [why|].
    + intros _. exists why. apply Hv.
    + subst r. discriminate.
  - intros r Hr Hcorner.
    pose proof (checks_before_corner cor allowedSizes r Hr Hcorner) as Hff.
    cbn [firstFailure] in Hff. unfold centerCheck, countCheck in Hff.
    destruct (center cor) as [z| |shown]; simpl in Hff; try discriminate.
    destruct (Z.ltb_spec 0 z) as [Hz|Hz]; simpl in Hff; [|discriminate].
    destruct (Nat.eqb_spec (List.length (edges cor)) 4) as [Hlen|Hlen];
      simpl in Hff; [|discriminate].
    apply edgesChecks_None in Hff.
    exists z. split; [reflexivity|]. split; [exact Hz|]. split; [exact Hlen|].
    split; [|intros _; exact Hff].
    eapply Forall_impl; [|exact Hff]. intros e He. destruct He as [Hne _]. exact Hne.
Qed.

Lemma validate_total_witness :
  Forall (fun edge : list EdgeSeg => edge <> [])
         [[mkSeg 2 0]; [mkSeg 3 0]; [mkSeg 4 0]; [mkSeg 2 0]] /\
  Forall (EdgePasses 1 defaultSizes) [[mkSeg 2 0]; [mkSeg 3 0]; [mkSeg 4 0]; [mkSeg 2 0]].
Proof.
  destruct (proj2 (validate_total
                     (mkCorona (Int 1) [[mkSeg 2 0]; [mkSeg 3 0]; [mkSeg 4 0]; [mkSeg 2 0]])
                     defaultSizes) (mkResult true None None) eq_refl (or_introl eq_refl))
    as (c & Ec & Hc & Hlen & Hne & Hp).
  injection Ec as <-. cbn [edges] in Hne, Hp.
  split; [exact Hne | apply Hp; safe_numbers].
Defined.

(** On its own the corner step does read [undefined] when an edge is empty;
    inside [validate] the empty edge is reported first. *)
Example cornerGapCheck_reads_undefined :
  cornerGapCheck 1 [[]; [mkSeg 2 0]; [mkSeg 2 0]; [mkSeg 2 0]] = Throw TypeError
  /\ validate (mkCorona (Int 1) [[]; [mkSeg 2 0]; [mkSeg 2 0]; [mkSeg 2 0]]) defaultSizes
     = Normal (mkResult false (Some "edge empty") (Some (WhereEdge 0))).
Proof. split; reflexivity. Qed.

(* ================================================================= *)
(** ** Properties of the compact notation *)

Lemma ordered_offsetSize (segs : list EdgeSeg) :
  ordered byOffsetThenSize segs -> Sorted offsetSizeLe segs.
Proof.
  induction 1 as [|s segs Hs IH Hh]; constructor; [exact IH|].
  destruct Hh as [|y l Hy]; constructor. apply byOffsetThenSize_le, Hy.
Qed.

Lemma sorted_edges_perm (es : list (list EdgeSeg)) :
  Forall2 (@Permutation EdgeSeg) (map (sortBy byOffsetThenSize) es) es.
Proof.
  induction es as [|e es IH]; simpl; constructor; [|exact IH].
  apply Permutation_sym, sortBy_perm.
Qed.

Lemma fromCompact_Representable (t : string) (cor : Corona) :
  fromCompact t = Normal cor -> Representable cor.
Proof.
  intros H. destruct (fromCompact_cases t) as [[_ E]|[(_ & _ & tok & _ & _ & E)|(_ & _ & es & E & R)]];
    rewrite E in H; try discriminate.
  injection H as <-. exact R.
Qed.

Lemma SafeNumbers_sortedCorona (cor : Corona) :
  SafeNumbers cor -> SafeNumbers (sortedCorona cor).
Proof.
  intros [Hc Hes]. split; [exact Hc|]. cbn [sortedCorona edges].
  apply Forall_map. eapply Forall_impl; [|exact Hes]. intros e He.
  eapply Permutation_Forall; [apply sortBy_perm | exact He].
Qed.

(** C5, as amended.  The numbers are safe integers throughout.  For a
    corona of well-formed segment data, [fromCompact (toCompact c)] has the
    center of [c] and, edge by edge, a permutation of the segments of [c].
    [toCompact] writes each edge's segments sorted by [(offset, size)].  And
    [toCompact (fromCompact t)] is [t], for a text [t] that is read as a
    corona of safe integers, exactly when [t] is the notation of a corona
    the notation can carry (integer or NaN center, four non-empty edges, no
    negative size) whose edges are sorted. *)
Theorem compact_round_trip :
  (forall cor, WellFormed cor -> SafeNumbers cor ->
     exists cor', fromCompact (toCompact cor) = Normal cor' /\
                  center cor' = center cor /\
                  Forall2 (@Permutation EdgeSeg) (edges cor') (edges cor))
  /\
  (forall cor, SafeNumbers cor ->
     exists segss,
       toCompact cor
       = join "|" (number_toString (center cor)
                   :: map (fun segs => join "," (map segToken segs)) segss) /\
       Forall2 (fun edge segs => Permutation edge segs /\ Sorted offsetSizeLe segs)
               (edges cor) segss)
  /\
  (forall t,
     (exists cor, fromCompact t = Normal cor /\ SafeNumbers cor /\ toCompact cor = t) <->
     (exists cor, SafeNumbers cor /\ Representable cor /\ SortedEdges cor /\
                  toCompact cor = t)).
Proof.
  split; [|split].
  - intros cor Hwf _. exists (sortedCorona cor). split.
    + apply fromCompact_toCompact, WellFormed_Representable, Hwf.
    + split; [reflexivity | apply sorted_edges_perm].
  - intros cor _. exists (map (sortBy byOffsetThenSize) (edges cor)). split.
    + rewrite toCompact_parts, map_map. reflexivity.
    + induction (edges cor) as [|e es IH]; simpl; constructor; [|exact IH].
      split; [apply sortBy_perm|].
      apply ordered_offsetSize, sortBy_ordered, byOffsetThenSize_total.
  - intros t. split.
    + intros (cor & Hparse & Hsafe & Hprint).
      pose proof (fromCompact_Representable t cor Hparse) as (Hc & Hlen & Hes).
      exists (sortedCorona cor).
      split; [apply SafeNumbers_sortedCorona, Hsafe|]. repeat split.
      * exact Hc.
      * simpl. rewrite length_map. exact Hlen.
      * simpl. apply Forall_map. eapply Forall_impl; [|exact Hes].
        intros e [Hne Hsz]. split.
        -- rewrite sortBy_nil_iff. exact Hne.
        -- eapply Permutation_Forall; [apply sortBy_perm | exact Hsz].
      * simpl. apply Forall_map, Forall_forall. intros e _.
        apply sortBy_ordered, byOffsetThenSize_total.
      * rewrite toCompact_sortedCorona. exact Hprint.
    + intros (cor & Hsafe & Hrep & _ & <-). exists (sortedCorona cor). split.
      * apply fromCompact_toCompact, Hrep.
      * split; [apply SafeNumbers_sortedCorona, Hsafe | apply toCompact_sortedCorona].
Qed.

Lemma compact_round_trip_witness :
  exists cor', fromCompact (toCompact (mkCorona (Int 2) [[mkSeg 2 1; mkSeg 1 0]; [mkSeg 3 0];
                                                         [mkSeg 3 0]; [mkSeg 4 0]]))
               = Normal cor' /\
               center cor' = Int 2 /\
               Forall2 (@Permutation EdgeSeg) (edges cor')
                       [[mkSeg 2 1; mkSeg 1 0]; [mkSeg 3 0]; [mkSeg 3 0]; [mkSeg 4 0]].
Proof.
  apply (proj1 compact_round_trip
               (mkCorona (Int 2) [[mkSeg 2 1; mkSeg 1 0]; [mkSeg 3 0]; [mkSeg 3 0]; [mkSeg 4 0]])).
  - split; [exists 2; split; [reflexivity | lia]|].
    split; [reflexivity|].
    repeat constructor; simpl; (discriminate || lia).
  - safe_numbers.
Defined.

(** C5, as stated, fails in both directions of its last part.  The text
    "0|2^0|2^0|2^0|2^0" is read and written back unchanged, yet no corona of
    well-formed segment data (positive center) has it as notation.  And the
    notation of a sorted corona with three edges is not read back at all. *)
Lemma round_trip_law_fails :
  (RoundTrips "0|2^0|2^0|2^0|2^0" /\
   ~ exists cor, WellFormed cor /\ SortedEdges cor /\ toCompact cor = "0|2^0|2^0|2^0|2^0")
  /\
  (SortedEdges (mkCorona (Int 1) [[mkSeg 2 0]; [mkSeg 2 0]; [mkSeg 2 0]]) /\
   toCompact (mkCorona (Int 1) [[mkSeg 2 0]; [mkSeg 2 0]; [mkSeg 2 0]]) = "1|2^0|2^0|2^0" /\
   fromCompact "1|2^0|2^0|2^0" = Raised (ErrorMsg "Expected center + 4 edges") /\
   ~ RoundTrips "1|2^0|2^0|2^0").
Proof.
  split; [split|].
  - exists (mkCorona (Int 0) [[mkSeg 2 0]; [mkSeg 2 0]; [mkSeg 2 0]; [mkSeg 2 0]]).
    split; reflexivity.
  - intros (cor & Hwf & _ & Ht).
    pose proof (fromCompact_toCompact cor (WellFormed_Representable cor Hwf)) as Hparse.
    rewrite Ht in Hparse.
    assert (Hc : center cor = Int 0).
    { change (fromCompact "0|2^0|2^0|2^0|2^0")
        with (Normal (mkCorona (Int 0) [[mkSeg 2 0]; [mkSeg 2 0]; [mkSeg 2 0]; [mkSeg 2 0]]))
        in Hparse.
      unfold sortedCorona in Hparse. injection Hparse as Hc _. symmetry. exact Hc. }
    destruct Hwf as ([z [Hz Hpos]] & _).
    rewrite Hz in Hc. injection Hc as ->. lia.
  - repeat split.
    + repeat constructor.
    + intros (cor & Hparse & _). discriminate Hparse.
Qed.

(** C6.  [fromCompact] raises exactly when the stripped input does not split
    on the bar into five parts, or one of the comma-separated tokens of the
    edge parts is not of the form digits, caret, optional minus sign, digits;
    on every other input it returns a corona. *)
Theorem fromCompact_raises_iff (s : string) :
  let parts := split "|" (stripped s) in
  let malformed :=
    List.length parts <> 5%nat \/
    exists tok, In tok (edgeTokens parts) /\ ~ SegPattern tok in
  ((exists e, fromCompact s = Raised e) <-> malformed)
  /\ (~ malformed -> exists cor, fromCompact s = Normal cor).
Proof.
  intros parts malformed. subst malformed.
  destruct (fromCompact_cases s)
    as [[Hlen E]|[(Hlen & Hall & tok & Hin & Hm & E)|(Hlen & Hall & es & E & _)]];
    fold parts in Hlen; try fold parts in Hall; try fold parts in Hin.
  - split; [split; eauto|]. intros H. exfalso. apply H. auto.
  - assert (Hbad : exists tok, In tok (edgeTokens parts) /\ ~ SegPattern tok).
    { exists tok. split; [exact Hin|]. rewrite <- matches_iff. congruence. }
    split; [split; eauto|]. intros H. exfalso. apply H. auto.
  - split; [split|].
    + intros [e He]. congruence.
    + intros [Hne | (tok & Hin & Hns)]; [contradiction|].
      exfalso. apply Hns, matches_iff.
      rewrite forallb_forall in Hall. apply Hall, Hin.
    + intros _. eauto.
Qed.

Lemma fromCompact_raises_iff_witness :
  exists cor, fromCompact "2|1^0,2^1|3^0|3^0|4^-1" = Normal cor.
Proof.
  apply (proj2 (fromCompact_raises_iff "2|1^0,2^1|3^0|3^0|4^-1")).
  intros [Hlen | (tok & Hin & Hns)].
  - apply Hlen. reflexivity.
  - apply Hns, matches_iff.
    assert (Hall : forallb matches (edgeTokens (split "|" (stripped "2|1^0,2^1|3^0|3^0|4^-1")))
                   = true) by reflexivity.
    rewrite forallb_forall in Hall. apply Hall, Hin.
Defined.

Lemma trimStart_allChars (p : ascii -> bool) (s : string) :
  allChars p s = true -> allChars p (trimStart s) = true.
Proof.
  induction s as [|ch s IH]; simpl; [auto|].
  intros H. destruct (isSpace ch); [|exact H].
  apply andb_true_iff in H. apply IH, H.
Qed.

Lemma parseInt_no_digit (p : string) :
  allChars (fun ch => negb (isDigit ch)) p = true -> parseInt p = NaN.
Proof.
  intros H. apply trimStart_allChars in H. unfold parseInt.
  assert (Hspan : forall s, allChars (fun ch => negb (isDigit ch)) s = true ->
                            fst (spanDigits s) = EmptyString).
  { intros [|ch s]; simpl; [reflexivity|]. rewrite andb_true_iff, negb_true_iff.
    intros [-> _]. reflexivity. }
  destruct (trimStart p) as [|ch rest]; [reflexivity|].
  unfold splitSign. simpl in H. apply andb_true_iff in H. destruct H as [Hch Hrest].
  destruct (Ascii.eqb ch "-"); [|destruct (Ascii.eqb ch "+")].
  - specialize (Hspan rest Hrest). destruct (spanDigits rest). simpl in Hspan.
    subst. reflexivity.
  - specialize (Hspan rest Hrest). destruct (spanDigits rest). simpl in Hspan.
    subst. reflexivity.
  - assert (H' : allChars (fun ch => negb (isDigit ch)) (String ch rest) = true).
    { simpl. rewrite Hch, Hrest. reflexivity. }
    specialize (Hspan _ H'). destruct (spanDigits (String ch rest)). simpl in Hspan.
    subst. reflexivity.
Qed.

(** C10.  [fromCompact] does not check the center part: with five parts and
    edge tokens that all match, it returns a corona whose center is
    [parseInt] of the first part, [NaN] when that part holds no digit.  When
    the center is [NaN], zero or negative, [validate] then rejects the corona
    with "center must be a positive integer". *)
Theorem fromCompact_center_unchecked (s : string) :
  let parts := split "|" (stripped s) in
  List.length parts = 5%nat ->
  (forall tok, In tok (edgeTokens parts) -> SegPattern tok) ->
  exists cor,
    fromCompact s = Normal cor /\
    center cor = parseInt (nth 0 parts EmptyString) /\
    (allChars (fun ch => negb (isDigit ch)) (nth 0 parts EmptyString) = true ->
     center cor = NaN) /\
    (center cor = NaN \/ (exists z, center cor = Int z /\ z <= 0) ->
     forall allowedSizes,
       validate cor allowedSizes
       = Normal (mkResult false (Some "center must be a positive integer") None)).
Proof.
  intros parts Hlen Htoks. subst parts.
  destruct (fromCompact_cases s)
    as [[Hne _]|[(_ & Hall & _)|(_ & _ & es & E & _)]].
  - contradiction.
  - exfalso.
    assert (Ht : forallb matches (edgeTokens (split "|" (stripped s))) = true).
    { apply forallb_forall. intros tok Hin. apply matches_iff, Htoks, Hin. }
    congruence.
  - exists (mkCorona (parseInt (nth 0 (split "|" (stripped s)) EmptyString)) es).
    split; [exact E|]. split; [reflexivity|]. split.
    + intros Hnd. apply parseInt_no_digit, Hnd.
    + cbn [center]. intros Hbad allowedSizes. unfold validate. cbn [center].
      destruct Hbad as [->|[z [-> Hz]]]; [reflexivity|].
      cbn [Number_isInteger integerOf negb orb].
      apply Z.leb_le in Hz. rewrite Hz. reflexivity.
Qed.

Lemma fromCompact_center_unchecked_witness :
  exists cor,
    fromCompact "abc|2^0|2^0|2^0|2^0" = Normal cor /\
    center cor = NaN /\
    validate cor defaultSizes
    = Normal (mkResult false (Some "center must be a positive integer") None).
Proof.
  destruct (fromCompact_center_unchecked "abc|2^0|2^0|2^0|2^0") as (cor & Hp & _ & Hnan & Hv).
  - reflexivity.
  - intros tok Hin. apply matches_iff.
    assert (Hall : forallb matches (edgeTokens (split "|" (stripped "abc|2^0|2^0|2^0|2^0")))
                   = true) by reflexivity.
    rewrite forallb_forall in Hall. apply Hall, Hin.
  - exists cor. split; [exact Hp|]. split; [apply Hnan; reflexivity|].
    apply Hv. left. apply Hnan. reflexivity.
Defined.

Example fromCompact_negative_center :
  fromCompact "-3|2^0|2^0|2^0|2^0"
  = Normal (mkCorona (Int (-3)) [[mkSeg 2 0]; [mkSeg 2 0]; [mkSeg 2 0]; [mkSeg 2 0]])
  /\ validate (mkCorona (Int (-3)) [[mkSeg 2 0]; [mkSeg 2 0]; [mkSeg 2 0]; [mkSeg 2 0]])
              defaultSizes
     = Normal (mkResult false (Some "center must be a positive integer") None).
Proof. split; reflexivity. Qed.

(* ================================================================= *)
(** ** Properties of rotation keys and of the enumeration *)

Lemma canonicalRotationEdges_keys (es : list (list EdgeSeg)) :
  canonicalRotationEdges es
  = nth 0 (sortBy byCodeUnits
             (map (fun k => join ";" (map edgeKey (rotation k es))) [0; 1; 2; 3]%nat))
        EmptyString.
Proof.
  unfold canonicalRotationEdges.
  rewrite (fold_push (fun k => join ";" (map edgeKey (rotation k es)))). reflexivity.
Qed.

Lemma rotation_key_four (e0 e1 e2 e3 : list EdgeSeg) (k : nat) :
  (k < 4)%nat ->
  canonicalRotationEdges (rotation k [e0; e1; e2; e3])
  = canonicalRotationEdges [e0; e1; e2; e3].
Proof.
  intros Hk. rewrite !canonicalRotationEdges_keys.
  assert (Hcases : k = 0%nat \/ k = 1%nat \/ k = 2%nat \/ k = 3%nat) by lia.
  set (K := fun es => join ";" (map edgeKey es)).
  destruct Hcases as [-> | [-> | [-> | ->]]]; cbn [rotation skipn firstn app map];
    fold (K [e0; e1; e2; e3]); fold (K [e1; e2; e3; e0]);
    fold (K [e2; e3; e0; e1]); fold (K [e3; e0; e1; e2]).
  - reflexivity.
  - apply sorted_head_perm; [|discriminate].
    apply (Permutation_app_comm [K [e1; e2; e3; e0]; K [e2; e3; e0; e1]; K [e3; e0; e1; e2]]
                                [K [e0; e1; e2; e3]]).
  - apply sorted_head_perm; [|discriminate].
    apply (Permutation_app_comm [K [e2; e3; e0; e1]; K [e3; e0; e1; e2]]
                                [K [e0; e1; e2; e3]; K [e1; e2; e3; e0]]).
  - apply sorted_head_perm; [|discriminate].
    apply (Permutation_app_comm [K [e3; e0; e1; e2]]
                                [K [e0; e1; e2; e3]; K [e1; e2; e3; e0]; K [e2; e3; e0; e1]]).
Qed.

(** C3.  The key of a tuple of four edges is the key of each of its cyclic
    rotations; so once the key of a corona has been seen, the enumeration
    adds none of its rotations. *)
Theorem canonical_rotation_invariant (es : list (list EdgeSeg)) (k : nat) :
  List.length es = 4%nat -> (k < 4)%nat ->
  canonicalRotationEdges (rotation k es) = canonicalRotationEdges es
  /\
  (forall c allowedSizes seen unique,
     In (canonicalRotationEdges es) seen ->
     enumBody allowedSizes (mkCorona c (rotation k es)) (seen, unique)
     = Normal (seen, unique)).
Proof.
  intros Hlen Hk.
  destruct (four_edges es Hlen) as (e0 & e1 & e2 & e3 & ->).
  pose proof (rotation_key_four e0 e1 e2 e3 k Hk) as Hkey.
  split; [exact Hkey|].
  intros c allowedSizes seen unique Hseen. unfold enumBody.
  destruct (validate_agrees (mkCorona c (rotation k [e0; e1; e2; e3])) allowedSizes)
    as [r [-> _]].
  destruct (ok r); [|reflexivity]. cbn [negb edges]. rewrite Hkey.
  replace (existsb _ seen) with true; [reflexivity|].
  symmetry. apply existsb_exists. eexists. split; [exact Hseen | apply String.eqb_refl].
Qed.

Lemma canonical_rotation_invariant_witness :
  canonicalRotationEdges (rotation 1 [[mkSeg 2 0]; [mkSeg 3 0]; [mkSeg 4 0]; [mkSeg 2 0]])
  = canonicalRotationEdges [[mkSeg 2 0]; [mkSeg 3 0]; [mkSeg 4 0]; [mkSeg 2 0]].
Proof.
  apply (canonical_rotation_invariant
           [[mkSeg 2 0]; [mkSeg 3 0]; [mkSeg 4 0]; [mkSeg 2 0]] 1); [reflexivity | lia].
Defined.

(** C7.  The corona with center 1 and single-segment edges of sizes 2, 3, 4,
    2 is valid, and so is its mirror image; their keys differ, and the
    enumeration keeps both. *)
Theorem reflection_changes_key :
  validate chiralCorona defaultSizes = Normal (mkResult true None None)
  /\ validate (mirrored chiralCorona) defaultSizes = Normal (mkResult true None None)
  /\ canonicalRotationEdges (edges (mirrored chiralCorona))
     <> canonicalRotationEdges (edges chiralCorona)
  /\ enumBody defaultSizes (mirrored chiralCorona) ([keyOf chiralCorona], [chiralCorona])
     = Normal ([keyOf chiralCorona; keyOf (mirrored chiralCorona)],
               [chiralCorona; mirrored chiralCorona]).
Proof.
  split; [reflexivity|]. split; [reflexivity|]. split; [|reflexivity].
  vm_compute. discriminate.
Qed.

Lemma distinctb_NoDup (l : list string) : distinctb l = true -> NoDup l.
Proof.
  induction l as [|x l IH]; simpl; [constructor|].
  rewrite andb_true_iff, negb_true_iff. intros [Hx Hl]. constructor; [|apply IH, Hl].
  intros Hin. assert (Ht : existsb (String.eqb x) l = true).
  { apply existsb_exists. exists x. split; [exact Hin | apply String.eqb_refl]. }
  congruence.
Qed.

Lemma forallb_Forall {A} (f : A -> bool) (P : A -> Prop) (l : list A) :
  (forall x, f x = true -> P x) -> forallb f l = true -> Forall P l.
Proof.
  intros Hf H. apply Forall_forall. intros x Hx.
  rewrite forallb_forall in H. apply Hf, H, Hx.
Qed.

Lemma isSuccess_true (c : Completion ValidationResult) :
  isSuccess c = true -> c = Normal (mkResult true None None).
Proof.
  destruct c as [[[] [why|] [w|]]|e]; simpl; intros H; try discriminate H. reflexivity.
Qed.

(** C2.  [enumerateUniqueCoronasCenter1] returns 24 coronas.  All 81
    combinations of the three edge walks pass [validate]; the returned
    coronas have pairwise different keys; each of the 81 has the key of a
    returned one; and the returned list holds, in the order of the loops,
    the combinations whose key no earlier combination has. *)
Theorem enumerate_center1 :
  exists unique,
    enumerateUniqueCoronasCenter1 = Normal unique /\
    List.length candidates = 81%nat /\
    List.length unique = 24%nat /\
    Forall (fun cor => validate cor [1; 2; 3; 4] = Normal (mkResult true None None))
           candidates /\
    NoDup (map keyOf unique) /\
    Forall (fun cor => exists u, In u unique /\ keyOf u = keyOf cor) candidates /\
    unique = firstEncountered keyOf [] candidates.
Proof.
  eexists. split; [vm_compute; reflexivity|].
  split; [reflexivity|]. split; [reflexivity|]. split; [|split; [|split]].
  - apply (forallb_Forall (fun cor => isSuccess (validate cor [1; 2; 3; 4]))).
    + intros cor. apply isSuccess_true.
    + vm_compute. reflexivity.
  - apply distinctb_NoDup. vm_compute. reflexivity.
  - match goal with
    | |- Forall (fun cor => exists u, In u ?U /\ _) _ =>
        apply (forallb_Forall
                 (fun cor => existsb (fun u => String.eqb (keyOf u) (keyOf cor)) U))
    end.
    + intros cor H. apply existsb_exists in H. destruct H as [u [Hin He]].
      exists u. split; [exact Hin | apply String.eqb_eq, He].
    + vm_compute. reflexivity.
  - vm_compute. reflexivity.
Qed.

(* ================================================================= *)
(** ** The caller's arrays are left alone *)

(** Sorting an array in place does change it in the store; the functions
    below never do that to an array they were given. *)
Example sortInPlace_changes_store :
  @Objects.sortInPlace unit byOffset 0%nat sharedStore
  = (Next 0%nat,
     [Objects.SegArray [mkSeg 1 0; mkSeg 2 1];
      Objects.SegArray [mkSeg 3 0];
      Objects.EdgeArray [0; 1; 1; 1]%nat]).
Proof. reflexivity. Qed.

(** C8.  Run on a store that holds a corona, [validate] (with any allowed
    sizes) and [canonicalRotationEdges] answer what they answer on the
    corona as a value, and every object that was in the store before the call
    is in it afterwards with the same contents: the edges array, the four
    edge arrays in their order and each of their segments.  Sorted copies and
    the arrays of keys and sizes are new objects.  So the edges can be
    validated and then canonicalized, as the enumeration does. *)
Theorem calls_leave_corona_unchanged (h : Objects.heap) (cor : Objects.CoronaObj)
        (v : Corona) (allowedSizes : list Z) :
  Objects.holds h cor v ->
  (exists h', Objects.validate cor allowedSizes h = (validate v allowedSizes, h')
              /\ Objects.unchanged h h' /\ Objects.holds h' cor v)
  /\
  (exists h', Objects.canonicalRotationEdges (Objects.edgesRef cor) h
              = (Normal (canonicalRotationEdges (edges v)), h')
              /\ Objects.unchanged h h' /\ Objects.holds h' cor v)
  /\
  (exists h' h'',
      Objects.validate cor allowedSizes h = (validate v allowedSizes, h')
      /\ Objects.canonicalRotationEdges (Objects.edgesRef cor) h'
         = (Normal (canonicalRotationEdges (edges v)), h'')
      /\ Objects.unchanged h h'' /\ Objects.holds h'' cor v).
Proof.
  intros Hh.
  destruct (validate_on_objects h cor v allowedSizes Hh) as (h1 & E1 & Hu1).
  pose proof (holds_unchanged h h1 cor v Hu1 Hh) as Hh1.
  split; [|split].
  - exists h1. auto.
  - pose proof Hh as (_ & ls & Hel & Hes).
    destruct (canonicalRotationEdges_on_objects h _ ls (edges v) Hel Hes) as (h2 & E2 & Hu2).
    exists h2. repeat split; [exact E2 | exact Hu2 | | ];
      apply (holds_unchanged h h2 cor v Hu2 Hh).
  - pose proof Hh1 as (_ & ls & Hel & Hes).
    destruct (canonicalRotationEdges_on_objects h1 _ ls (edges v) Hel Hes) as (h2 & E2 & Hu2).
    pose proof (unchanged_trans h h1 h2 Hu1 Hu2) as Hu.
    exists h1, h2. repeat split; [exact E1 | exact E2 | exact Hu | | ];
      apply (holds_unchanged h h2 cor v Hu Hh).
Qed.

Lemma calls_leave_corona_unchanged_witness :
  exists h', Objects.validate sharedCorona defaultSizes sharedStore
             = (validate sharedValue defaultSizes, h')
             /\ Objects.unchanged sharedStore h' /\ Objects.holds h' sharedCorona sharedValue.
Proof.
  refine (proj1 (calls_leave_corona_unchanged sharedStore sharedCorona sharedValue
                                              defaultSizes _)).
  split; [reflexivity|].
  exists [0; 1; 1; 1]%nat. split; [reflexivity|].
  repeat constructor.
Defined.

(* ================================================================= *)
(** ** The sorted copy does not depend on the order of the input *)

Lemma ordered_strongly {A} (cmp : A -> A -> Z) (l : list A) :
  (forall a b c, cmp a b <= 0 -> cmp b c <= 0 -> cmp a c <= 0) ->
  ordered cmp l -> StronglySorted (fun a b => cmp a b <= 0) l.
Proof.
  intros Htrans H. apply Sorted_StronglySorted; [|exact H].
  intros a b c. apply Htrans.
Qed.

Lemma ordered_perm_eq {A} (cmp : A -> A -> Z) (l1 l2 : list A) :
  (forall a b c, cmp a b <= 0 -> cmp b c <= 0 -> cmp a c <= 0) ->
  (forall a b, In a l1 -> In b l1 -> cmp a b <= 0 -> cmp b a <= 0 -> a = b) ->
  ordered cmp l1 -> ordered cmp l2 -> Permutation l1 l2 -> l1 = l2.
Proof.
  intros Htrans. revert l2.
  induction l1 as [|x l1 IH]; intros l2 Hanti H1 H2 Hperm.
  - apply Permutation_nil in Hperm. congruence.
  - destruct l2 as [|y l2].
    { apply Permutation_sym, Permutation_nil in Hperm. discriminate. }
    apply (ordered_strongly cmp _ Htrans) in H1 as S1.
    apply (ordered_strongly cmp _ Htrans) in H2 as S2.
    inversion S1 as [|? ? S1' Hx]; subst. inversion S2 as [|? ? S2' Hy]; subst.
    rewrite Forall_forall in Hx, Hy.
    assert (Exy : x = y).
    { assert (Hxin : In x (y :: l2)) by (apply (Permutation_in _ Hperm); left; reflexivity).
      assert (Hyin : In y (x :: l1))
        by (apply (Permutation_in _ (Permutation_sym Hperm)); left; reflexivity).
      destruct Hxin as [E|Hxin]; [congruence|].
      destruct Hyin as [E|Hyin]; [congruence|].
      apply Hanti; [left; reflexivity | right; exact Hyin | apply Hx, Hyin | apply Hy, Hxin]. }
    subst y. f_equal. apply IH.
    + intros a b Ha Hb. apply Hanti; right; assumption.
    + inversion H1; assumption.
    + inversion H2; assumption.
    + eapply Permutation_cons_inv. exact Hperm.
Qed.

Lemma sortBy_perm_eq {A} (cmp : A -> A -> Z) (l l' : list A) :
  (forall a b, 0 < cmp a b -> cmp b a <= 0) ->
  (forall a b c, cmp a b <= 0 -> cmp b c <= 0 -> cmp a c <= 0) ->
  (forall a b, In a l -> In b l -> cmp a b <= 0 -> cmp b a <= 0 -> a = b) ->
  Permutation l l' -> sortBy cmp l = sortBy cmp l'.
Proof.
  intros Htot Htrans Hanti Hperm. apply (ordered_perm_eq cmp); auto.
  - intros a b Ha Hb.
    apply Hanti;
      [ exact (Permutation_in _ (Permutation_sym (sortBy_perm cmp l)) Ha)
      | exact (Permutation_in _ (Permutation_sym (sortBy_perm cmp l)) Hb) ].
  - apply sortBy_ordered, Htot.
  - apply sortBy_ordered, Htot.
  - eapply perm_trans; [apply Permutation_sym, sortBy_perm|].
    eapply perm_trans; [exact Hperm | apply sortBy_perm].
Qed.

Lemma byOffsetThenSize_trans (a b c : EdgeSeg) :
  byOffsetThenSize a b <= 0 -> byOffsetThenSize b c <= 0 -> byOffsetThenSize a c <= 0.
Proof. rewrite !byOffsetThenSize_le. unfold offsetSizeLe. lia. Qed.

Lemma byOffsetThenSize_antisym (a b : EdgeSeg) :
  byOffsetThenSize a b <= 0 -> byOffsetThenSize b a <= 0 -> a = b.
Proof.
  rewrite !byOffsetThenSize_le. unfold offsetSizeLe. intros H1 H2.
  destruct a as [sa oa], b as [sb ob]. simpl in *. f_equal; lia.
Qed.

Lemma sort_segments_perm (e e' : list EdgeSeg) :
  Permutation e e' -> sortBy byOffsetThenSize e = sortBy byOffsetThenSize e'.
Proof.
  apply sortBy_perm_eq.
  - apply byOffsetThenSize_total.
  - apply byOffsetThenSize_trans.
  - intros a b _ _. apply byOffsetThenSize_antisym.
Qed.

Lemma sort_edges_perm (es es' : list (list EdgeSeg)) :
  Forall2 (@Permutation EdgeSeg) es es' ->
  map (sortBy byOffsetThenSize) es = map (sortBy byOffsetThenSize) es'.
Proof.
  induction 1 as [|e e' es es' He _ IH]; simpl; [reflexivity|].
  rewrite (sort_segments_perm e e' He), IH. reflexivity.
Qed.

(** On an edge that passes the edge-local rules the offsets grow strictly
    along the sorted copy. *)
Lemma walk_offsets_increase (segs : list EdgeSeg) :
  Forall (fun s => 0 < size s) segs ->
  consecutive (fun a b => offset b = offset a + size a) segs ->
  StronglySorted (fun a b => offset a < offset b) segs.
Proof.
  intros Hpos Hwalk. apply Sorted_StronglySorted; [intros a b c; lia|].
  induction segs as [|a [|b rest] IH].
  - constructor.
  - repeat constructor.
  - constructor.
    + apply IH; [inversion Hpos; assumption | apply Hwalk].
    + constructor. inversion Hpos; subst. destruct Hwalk as [E _]. lia.
Qed.

Lemma EdgePasses_walk (c : Z) (allowedSizes : list Z) (e : list EdgeSeg) :
  EdgePasses c allowedSizes e ->
  StronglySorted (fun a b => offset a < offset b) (sortBy byOffsetThenSize e).
Proof.
  intros (_ & Hleg & _ & _ & _ & Hwalk & _). apply walk_offsets_increase; [|exact Hwalk].
  eapply Forall_impl; [|exact Hleg]. intros s H. apply H.
Qed.

Lemma strictly_increasing_distinct (segs : list EdgeSeg) (a b : EdgeSeg) :
  StronglySorted (fun a b => offset a < offset b) segs ->
  In a segs -> In b segs -> offset a = offset b -> a = b.
Proof.
  induction 1 as [|x l Hs IH Hx]; intros Ha Hb E; [contradiction|].
  rewrite Forall_forall in Hx.
  destruct Ha as [->|Ha], Hb as [->|Hb]; auto.
  - specialize (Hx _ Hb). lia.
  - specialize (Hx _ Ha). lia.
Qed.

(** So the corner step, which sorts by offset alone, sees the same order
    as the edge loop. *)
Lemma byOffset_sort_of_passing (c : Z) (allowedSizes : list Z) (e : list EdgeSeg) :
  EdgePasses c allowedSizes e -> sortBy byOffset e = sortBy byOffsetThenSize e.
Proof.
  intros Hp. pose proof (EdgePasses_walk c allowedSizes e Hp) as Hinc.
  apply (ordered_perm_eq byOffset).
  - unfold byOffset. intros a b d. lia.
  - intros a b Ha Hb H1 H2. unfold byOffset in *.
    assert (Hin : forall x, In x (sortBy byOffset e) -> In x (sortBy byOffsetThenSize e)).
    { intros x Hx. apply (Permutation_in _ (sortBy_perm byOffsetThenSize e)).
      exact (Permutation_in _ (Permutation_sym (sortBy_perm byOffset e)) Hx). }
    apply (strictly_increasing_distinct (sortBy byOffsetThenSize e)); auto; lia.
  - apply sortBy_ordered. unfold byOffset. intros a b. lia.
  - apply StronglySorted_Sorted in Hinc.
    induction Hinc as [|x l Hs IH Hh]; constructor; [exact IH|].
    destruct Hh; constructor. unfold byOffset. lia.
  - eapply perm_trans; [apply Permutation_sym, sortBy_perm | apply sortBy_perm].
Qed.

(* ================================================================= *)
(** ** What the validator accepts *)

Lemma checkEdges_Next_iff (c : Z) (allowedSizes : list Z) (es : list (list EdgeSeg)) (ei : nat) :
  checkEdges c allowedSizes ei es = Next tt <-> Forall (EdgePasses c allowedSizes) es.
Proof.
  rewrite <- edgesChecks_None.
  rewrite <- (agrees_Next_iff _ _ (checkEdges_agrees c allowedSizes es ei)).
  split; [eauto | intros [[] H]; exact H].
Qed.

Lemma verdict_success (checks : list (option string)) (r : ValidationResult) :
  verdictOf checks r -> (r = success <-> firstFailure checks = None).
Proof.
  unfold verdictOf. destruct (firstFailure checks) as [why|].
  - intros [Hok _]. split; [|discriminate]. intros ->. discriminate.
  - intros ->. split; reflexivity.
Qed.

Lemma firstFailure_single (chk : option string) : firstFailure [chk] = chk.
Proof. destruct chk; reflexivity. Qed.

Lemma cornerCheck_None (c : Z) (es : list (list EdgeSeg)) :
  cornerCheck c es = None <-> anyCornerGap c es = false \/ lastSizesSame es = true.
Proof.
  unfold cornerCheck. rewrite failsWith_None, orb_true_iff, negb_true_iff. reflexivity.
Qed.

Lemma validate_success_iff (cor : Corona) (allowedSizes : list Z) :
  validate cor allowedSizes = Normal success <->
  exists c, center cor = Int c /\ Accepted c allowedSizes (edges cor).
Proof.
  destruct (validate_agrees cor allowedSizes) as [r [Hr Hv]].
  rewrite Hr. apply verdict_success in Hv.
  transitivity (r = success).
  { split; [intros [= ->]; reflexivity | intros ->; reflexivity]. }
  rewrite Hv. unfold checksAsEvaluated, Accepted. cbv zeta.
  change (?a :: ?b :: ?l ++ ?x) with ([a; b] ++ l ++ x).
  rewrite !firstFailure_app.
  unfold centerCheck, countCheck.
  destruct (center cor) as [z| |shown]; cbn [integerOf].
  2:{ simpl. split; [discriminate | intros (c & E & _); discriminate]. }
  2:{ simpl. split; [discriminate | intros (c & E & _); discriminate]. }
  destruct (Z.ltb_spec 0 z) as [Hz|Hz]; cbn [failsWith firstFailure].
  2:{ split; [discriminate | intros (c & [= <-] & Hc & _); lia]. }
  destruct (Nat.eqb_spec (List.length (edges cor)) 4) as [Hlen|Hlen];
    cbn [failsWith firstFailure].
  2:{ split; [discriminate | intros (c & _ & _ & Hl & _); contradiction]. }
  destruct (firstFailure (flat_map _ _)) as [why|] eqn:He.
  - split; [discriminate|]. intros (c & [= <-] & _ & _ & Hp & _).
    apply edgesChecks_None in Hp. congruence.
  - apply edgesChecks_None in He.
    change (match ?x with Some why => Some why | None => None end) with (firstFailure [x]).
    rewrite firstFailure_single, cornerCheck_None.
    split.
    + intros Hc. exists z. auto.
    + intros (c & [= <-] & _ & _ & _ & Hc). exact Hc.
Qed.

Lemma Forall_edgeAt (P : list EdgeSeg -> Prop) (es : list (list EdgeSeg)) :
  List.length es = 4%nat ->
  (Forall P es <-> forall i, (i < 4)%nat -> P (edgeAt es i)).
Proof.
  intros Hlen. destruct (four_edges es Hlen) as (e0 & e1 & e2 & e3 & ->).
  unfold edgeAt. split.
  - intros H i Hi. rewrite Forall_forall in H. apply H.
    destruct i as [|[|[|[|i]]]]; simpl; auto. lia.
  - intros H.
    pose proof (H 0%nat ltac:(lia)). pose proof (H 1%nat ltac:(lia)).
    pose proof (H 2%nat ltac:(lia)). pose proof (H 3%nat ltac:(lia)).
    repeat constructor; assumption.
Qed.

Lemma anyCornerGap_spec (c : Z) (es : list (list EdgeSeg)) :
  anyCornerGap c es = true <-> exists i, (i < 4)%nat /\ cornerGapAt c es i.
Proof.
  unfold anyCornerGap. rewrite existsb_exists. split.
  - intros [i [Hi Hg]]. exists i. split.
    + simpl in Hi. lia.
    + unfold cornerGapb in Hg. apply andb_true_iff in Hg.
      rewrite !Z.eqb_eq in Hg. exact Hg.
  - intros [i [Hi [Ho Hf]]]. exists i. split.
    + simpl. lia.
    + unfold cornerGapb. rewrite Ho, Hf. reflexivity.
Qed.

Lemma lastSizesSame_spec (es : list (list EdgeSeg)) :
  lastSizesSame es = true <-> lastSizesIdentical es.
Proof.
  unfold lastSizesSame, lastSizesIdentical. rewrite forallb_forall. split.
  - intros H i j Hi Hj.
    assert (Hi' : In i [0; 1; 2; 3]%nat) by (simpl; lia).
    assert (Hj' : In j [0; 1; 2; 3]%nat) by (simpl; lia).
    apply H in Hi', Hj'. apply Z.eqb_eq in Hi', Hj'. congruence.
  - intros H i Hi. apply Z.eqb_eq, H; simpl in Hi; lia.
Qed.

(** X1.  On a corona all of whose numbers and sums are safe integers,
    [validate] answers [ok: true] exactly when the center is a positive
    integer, there are four edges, each of them passes the edge-local rules,
    and either no corner has a 1x1 gap or the four last-segment sizes are
    identical. *)
Theorem validate_accepts_iff (cor : Corona) (allowedSizes : list Z) :
  ExactFor cor ->
  (validate cor allowedSizes = Normal (mkResult true None None) <->
   exists c, center cor = Int c /\ 0 < c /\
     List.length (edges cor) = 4%nat /\
     (forall i, (i < 4)%nat -> EdgePasses c allowedSizes (edgeAt (edges cor) i)) /\
     ((exists i, (i < 4)%nat /\ cornerGapAt c (edges cor) i) ->
      lastSizesIdentical (edges cor))).
Proof.
  intros _.
  change (mkResult true None None) with success.
  rewrite validate_success_iff. unfold Accepted.
  split.
  - intros (c & Ec & Hc & Hlen & Hp & Hcorner). exists c.
    split; [exact Ec|]. split; [exact Hc|]. split; [exact Hlen|]. split.
    + apply Forall_edgeAt; assumption.
    + intros Hgap. apply anyCornerGap_spec in Hgap.
      destruct Hcorner as [Hno|Hsame]; [congruence|].
      apply lastSizesSame_spec, Hsame.
  - intros (c & Ec & Hc & Hlen & Hp & Hcorner). exists c.
    split; [exact Ec|]. split; [exact Hc|]. split; [exact Hlen|]. split.
    + apply Forall_edgeAt; assumption.
    + destruct (anyCornerGap c (edges cor)) eqn:Hg; [right | left; reflexivity].
      apply lastSizesSame_spec, Hcorner, anyCornerGap_spec, Hg.
Qed.

Lemma validate_accepts_iff_witness :
  validate (mkCorona (Int 2) [[mkSeg 2 1; mkSeg 1 0]; [mkSeg 3 0]; [mkSeg 3 0]; [mkSeg 4 0]])
           defaultSizes
  = Normal (mkResult true None None) <->
  exists c, Int 2 = Int c /\ 0 < c /\
    List.length [[mkSeg 2 1; mkSeg 1 0]; [mkSeg 3 0]; [mkSeg 3 0]; [mkSeg 4 0]] = 4%nat /\
    (forall i, (i < 4)%nat ->
               EdgePasses c defaultSizes
                 (edgeAt [[mkSeg 2 1; mkSeg 1 0]; [mkSeg 3 0]; [mkSeg 3 0]; [mkSeg 4 0]] i)) /\
    ((exists i, (i < 4)%nat /\
                cornerGapAt c [[mkSeg 2 1; mkSeg 1 0]; [mkSeg 3 0]; [mkSeg 3 0]; [mkSeg 4 0]] i) ->
     lastSizesIdentical [[mkSeg 2 1; mkSeg 1 0]; [mkSeg 3 0]; [mkSeg 3 0]; [mkSeg 4 0]]).
Proof.
  apply (validate_accepts_iff
           (mkCorona (Int 2) [[mkSeg 2 1; mkSeg 1 0]; [mkSeg 3 0]; [mkSeg 3 0]; [mkSeg 4 0]])
           defaultSizes).
  safe_numbers.
Defined.

(* ================================================================= *)
(** ** More allowed sizes *)

Lemma EdgePasses_incl (c : Z) (al al' : list Z) (e : list EdgeSeg) :
  incl al al' -> EdgePasses c al e -> EdgePasses c al' e.
Proof.
  intros Hincl (Hne & Hleg & Hrest). split; [exact Hne|]. split; [|exact Hrest].
  eapply Forall_impl; [|exact Hleg]. cbv beta.
  intros s (Hin & Hs). split; [apply Hincl, Hin | exact Hs].
Qed.

(** X2.  A corona that [validate] accepts for a list of allowed sizes is
    accepted for every list that holds at least these sizes. *)
Theorem validate_more_sizes (cor : Corona) (allowedSizes moreSizes : list Z) :
  incl allowedSizes moreSizes ->
  validate cor allowedSizes = Normal success ->
  validate cor moreSizes = Normal success.
Proof.
  intros Hincl. rewrite !validate_success_iff.
  intros (c & Ec & Hc & Hlen & Hp & Hcorner). exists c.
  split; [exact Ec|]. split; [exact Hc|]. split; [exact Hlen|]. split; [|exact Hcorner].
  eapply Forall_impl; [|exact Hp]. intros e. apply EdgePasses_incl, Hincl.
Qed.

Lemma validate_more_sizes_witness :
  validate (mkCorona (Int 2) [[mkSeg 3 0]; [mkSeg 3 0]; [mkSeg 3 0]; [mkSeg 3 0]])
           defaultSizes = Normal success.
Proof.
  apply (validate_more_sizes _ [3] defaultSizes).
  - intros x [<-|[]]. simpl. auto.
  - reflexivity.
Defined.

(* ================================================================= *)
(** ** Rotating the edges *)

Lemma rotation_length {A} (k : nat) (l : list A) :
  List.length (rotation k l) = List.length l.
Proof.
  unfold rotation. rewrite length_app, length_skipn, length_firstn. lia.
Qed.

Lemma rotation_four_cases {A} (k : nat) (e0 e1 e2 e3 : A) :
  let es := [e0; e1; e2; e3] in
  rotation k es = es \/ rotation k es = [e1; e2; e3; e0] \/
  rotation k es = [e2; e3; e0; e1] \/ rotation k es = [e3; e0; e1; e2].
Proof.
  destruct k as [|[|[|[|k]]]]; try (cbv; auto; fail).
  left. unfold rotation. cbn [skipn firstn]. destruct k; reflexivity.
Qed.

Lemma anyCornerGap_rotate (c : Z) (e0 e1 e2 e3 : list EdgeSeg) :
  anyCornerGap c [e1; e2; e3; e0] = anyCornerGap c [e0; e1; e2; e3].
Proof.
  unfold anyCornerGap, cornerGapb, edgeAt, nextEdgeAt.
  cbn [existsb nth].
  change ((0 + 1) mod 4)%nat with 1%nat. change ((1 + 1) mod 4)%nat with 2%nat.
  change ((2 + 1) mod 4)%nat with 3%nat. change ((3 + 1) mod 4)%nat with 0%nat.
  cbn [nth].
  destruct (overhang c e0 =? 1), (overhang c e1 =? 1), (overhang c e2 =? 1),
    (overhang c e3 =? 1), (firstSegmentSize e0 =? 1), (firstSegmentSize e1 =? 1),
    (firstSegmentSize e2 =? 1), (firstSegmentSize e3 =? 1); reflexivity.
Qed.

Lemma lastSizesSame_rotate (e0 e1 e2 e3 : list EdgeSeg) :
  lastSizesSame [e1; e2; e3; e0] = lastSizesSame [e0; e1; e2; e3].
Proof.
  unfold lastSizesSame, edgeAt. cbn [forallb nth].
  generalize (lastSegmentSize e0), (lastSegmentSize e1), (lastSegmentSize e2),
    (lastSegmentSize e3). intros a b d e.
  destruct (Z.eqb_spec a a), (Z.eqb_spec b a), (Z.eqb_spec d a), (Z.eqb_spec e a),
    (Z.eqb_spec b b), (Z.eqb_spec d b), (Z.eqb_spec e b), (Z.eqb_spec a b);
    simpl; try reflexivity; congruence.
Qed.

Lemma Accepted_rotate (c : Z) (al : list Z) (e0 e1 e2 e3 : list EdgeSeg) :
  Accepted c al [e0; e1; e2; e3] -> Accepted c al [e1; e2; e3; e0].
Proof.
  unfold Accepted. intros (Hc & _ & Hp & Hcorner).
  rewrite (anyCornerGap_rotate c e0 e1 e2 e3), (lastSizesSame_rotate e0 e1 e2 e3).
  rewrite !Forall_cons_iff in *.
  split; [exact Hc|]. split; [reflexivity|]. split; [tauto | exact Hcorner].
Qed.

Lemma Accepted_rotation (c : Z) (al : list Z) (es : list (list EdgeSeg)) (k : nat) :
  Accepted c al (rotation k es) <-> Accepted c al es.
Proof.
  destruct (Nat.eq_dec (List.length es) 4) as [Hlen|Hlen].
  2:{ unfold Accepted. rewrite rotation_length. tauto. }
  destruct (four_edges es Hlen) as (e0 & e1 & e2 & e3 & ->).
  pose proof (Accepted_rotate c al) as R.
  destruct (rotation_four_cases k e0 e1 e2 e3) as [E|[E|[E|E]]]; cbv zeta in E; rewrite E.
  - tauto.
  - split; intros H; [apply R, R, R, H | apply R, H].
  - split; intros H; [apply R, R, H | apply R, R, H].
  - split; intros H; [apply R, H | apply R, R, R, H].
Qed.

(** X3.  Whether [validate] accepts a corona does not change when its edges
    are rotated cyclically, as [canonicalRotationEdges] rotates them: the
    corona is accepted exactly when its rotation by [k] is. *)
Theorem validate_rotation (c : number) (es : list (list EdgeSeg)) (k : nat)
        (allowedSizes : list Z) :
  validate (mkCorona c (rotation k es)) allowedSizes = Normal success <->
  validate (mkCorona c es) allowedSizes = Normal success.
Proof.
  rewrite !validate_success_iff. cbn [center edges].
  split; intros (z & Ez & H); exists z; (split; [exact Ez|]);
    apply (Accepted_rotation z allowedSizes es k); exact H.
Qed.

(* ================================================================= *)
(** ** The copy of the validator without the corner step *)

Lemma cornerGapCheck_cases (c : Z) (allowedSizes : list Z) (es : list (list EdgeSeg)) :
  List.length es = 4%nat ->
  Forall (EdgePasses c allowedSizes) es ->
  cornerGapCheck c es = Next tt \/
  exists r, cornerGapCheck c es = Return r /\ ok r = false /\ reason r = Some cornerReason.
Proof.
  intros Hlen Hp.
  assert (Hne : Forall (fun edge : list EdgeSeg => edge <> []) es).
  { eapply Forall_impl; [|exact Hp]. intros e He. destruct He as [Hn _]. exact Hn. }
  pose proof (cornerGapCheck_agrees c es Hlen Hne) as Ha.
  unfold agrees, cornerCheck in Ha.
  destruct (cornerGapCheck c es) as [[]|r|err].
  - left. reflexivity.
  - right. exists r. split; [reflexivity|].
    destruct (negb (anyCornerGap c es) || lastSizesSame es); simpl in Ha;
      [contradiction | exact Ha].
  - contradiction.
Qed.

Lemma checkEdges_Return_reason (c : Z) (allowedSizes : list Z) (es : list (list EdgeSeg))
      (ei : nat) (r : ValidationResult) :
  checkEdges c allowedSizes ei es = Return r -> withoutCornerRule r = r.
Proof.
  intros E. pose proof (checkEdges_agrees c allowedSizes es ei) as Ha.
  rewrite E in Ha. unfold agrees in Ha.
  destruct (firstFailure _) as [why|] eqn:Hff; [|contradiction].
  destruct Ha as [_ Hwhy]. unfold withoutCornerRule. rewrite Hwhy.
  destruct (String.eqb_spec why cornerReason) as [->|]; [|reflexivity].
  exfalso. revert Hff. clear.
  induction es as [|e es IH]; cbn [flat_map]; [discriminate|].
  rewrite firstFailure_app.
  destruct (firstFailure (edgeChecks c allowedSizes e)) as [w|] eqn:He; [|exact IH].
  intros [= ->].
  pose proof (edgeChecks_not_corner c allowedSizes e) as Hn.
  revert He. induction Hn as [|x l Hx _ IHl]; simpl; [discriminate|].
  destruct x as [w|]; [congruence | exact IHl].
Qed.

(** X4.  The copy of [validate] in [generate.js], which has no corner step,
    gives the result of [Corona.validate] in every case but one: where
    [Corona.validate] fails with the reason of the corner step, the copy
    answers [ok: true]. *)
Theorem generate_js_validate (cor : Corona) (allowedSizes : list Z) :
  exists r,
    validate cor allowedSizes = Normal r /\
    GenerateJs.validate cor allowedSizes = Normal (withoutCornerRule r).
Proof.
  unfold validate, GenerateJs.validate, validateBody. cbv zeta.
  destruct (negb (Number_isInteger (center cor)) || (integerOf (center cor) <=? 0)).
  { eexists. split; reflexivity. }
  destruct (Nat.eqb_spec (List.length (edges cor)) 4) as [Hlen|Hlen]; cbn [negb returnIf bind].
  2:{ eexists. split; reflexivity. }
  destruct (checkEdges _ _ 0 (edges cor)) as [[]|r|err] eqn:Hedges; cbn [bind call].
  - apply checkEdges_Next_iff in Hedges.
    destruct (cornerGapCheck_cases _ _ _ Hlen Hedges) as [E|(r & E & Hok & Hwhy)];
      rewrite E; cbn [bind call].
    + exists success. split; reflexivity.
    + exists r. split; [reflexivity|]. unfold withoutCornerRule. rewrite Hwhy.
      rewrite String.eqb_refl. reflexivity.
  - exists r. split; [reflexivity|].
    rewrite (checkEdges_Return_reason _ _ _ _ _ Hedges). reflexivity.
  - exfalso. pose proof (checkEdges_agrees (integerOf (center cor)) allowedSizes (edges cor) 0) as Ha.
    rewrite Hedges in Ha. exact Ha.
Qed.

(* ================================================================= *)
(** ** The order of the segments within an edge *)

Lemma checkEdge_perm (c : Z) (allowedSizes : list Z) (ei : nat) (e e' : list EdgeSeg) :
  Permutation e e' ->
  checkEdge c allowedSizes ei e = checkEdge c allowedSizes ei e'.
Proof.
  intros Hp. unfold checkEdge.
  rewrite (Permutation_length Hp), (sort_segments_perm e e' Hp). reflexivity.
Qed.

Lemma checkEdges_perm (c : Z) (allowedSizes : list Z) (es es' : list (list EdgeSeg)) :
  Forall2 (@Permutation EdgeSeg) es es' ->
  forall ei, checkEdges c allowedSizes ei es = checkEdges c allowedSizes ei es'.
Proof.
  induction 1 as [|e e' es es' He _ IH]; intros ei; cbn [checkEdges]; [reflexivity|].
  rewrite (checkEdge_perm c allowedSizes ei e e' He), IH. reflexivity.
Qed.

Lemma cornerStep_sorted (c : Z) (es es' : list (list EdgeSeg)) (st : bool * list Z) (ei : nat) :
  map (sortBy byOffset) es = map (sortBy byOffset) es' ->
  cornerStep c es st ei = cornerStep c es' st ei.
Proof.
  intros H.
  assert (Hn : forall i, option_map (sortBy byOffset) (nth_error es i)
                         = option_map (sortBy byOffset) (nth_error es' i)).
  { intros i. rewrite <- !nth_error_map, H. reflexivity. }
  unfold cornerStep, at_.
  pose proof (Hn ei) as H1. pose proof (Hn ((ei + 1) mod 4)%nat) as H2.
  destruct (nth_error es ei) as [e|], (nth_error es' ei) as [e'|];
    simpl in H1; try discriminate; cbn [bind]; [|reflexivity].
  destruct (nth_error es _) as [n|], (nth_error es' _) as [n'|];
    simpl in H2; try discriminate; cbn [bind]; [|reflexivity].
  injection H1 as H1. injection H2 as H2. rewrite H1, H2. reflexivity.
Qed.

Lemma cornerLoop_sorted (c : Z) (es es' : list (list EdgeSeg)) (eis : list nat) :
  map (sortBy byOffset) es = map (sortBy byOffset) es' ->
  forall st, cornerLoop c es st eis = cornerLoop c es' st eis.
Proof.
  intros H. induction eis as [|ei eis IH]; intros st; cbn [cornerLoop]; [reflexivity|].
  rewrite (cornerStep_sorted c es es' st ei H).
  destruct (cornerStep c es' st ei); cbn [bind]; auto.
Qed.

Lemma sortBy_byOffset_perm (c : Z) (allowedSizes : list Z) (es es' : list (list EdgeSeg)) :
  Forall2 (@Permutation EdgeSeg) es es' ->
  Forall (EdgePasses c allowedSizes) es ->
  Forall (EdgePasses c allowedSizes) es' ->
  map (sortBy byOffset) es = map (sortBy byOffset) es'.
Proof.
  induction 1 as [|e e' es es' He _ IH]; intros Hp Hp'; [reflexivity|].
  inversion Hp as [|? ? Hpe Hpes]; subst. inversion Hp' as [|? ? Hpe' Hpes']; subst.
  cbn [map]. rewrite (IH Hpes Hpes').
  rewrite (byOffset_sort_of_passing c allowedSizes e Hpe).
  rewrite (byOffset_sort_of_passing c allowedSizes e' Hpe').
  rewrite (sort_segments_perm e e' He). reflexivity.
Qed.

Lemma validateBody_perm (c : Z) (allowedSizes : list Z) (es es' : list (list EdgeSeg)) :
  Forall2 (@Permutation EdgeSeg) es es' ->
  validateBody c allowedSizes es = validateBody c allowedSizes es'.
Proof.
  intros H. unfold validateBody.
  rewrite (Forall2_length H), (checkEdges_perm c allowedSizes es es' H 0).
  destruct (returnIf _ _); cbn [bind]; [|reflexivity..].
  destruct (checkEdges c allowedSizes 0 es') as [[]|r|err] eqn:Hedges; cbn [bind];
    [|reflexivity..].
  assert (Hp' : Forall (EdgePasses c allowedSizes) es').
  { apply (checkEdges_Next_iff c allowedSizes es' 0), Hedges. }
  assert (Hp : Forall (EdgePasses c allowedSizes) es).
  { apply (checkEdges_Next_iff c allowedSizes es 0).
    rewrite (checkEdges_perm c allowedSizes es es' H 0). exact Hedges. }
  unfold cornerGapCheck.
  rewrite (cornerLoop_sorted c es es' _ (sortBy_byOffset_perm c allowedSizes es es' H Hp Hp')).
  reflexivity.
Qed.

(** X5.  On edges all of whose numbers and sums are safe integers, the
    result of [validate] does not depend on the order in which the segments
    of an edge are given: two coronas with the same center whose edges hold,
    edge by edge, the same segments in any order get the same result,
    [where] included. *)
Theorem validate_segment_order (c : number) (es es' : list (list EdgeSeg))
        (allowedSizes : list Z) :
  ExactFor (mkCorona c es) ->
  Forall2 (@Permutation EdgeSeg) es es' ->
  validate (mkCorona c es) allowedSizes = validate (mkCorona c es') allowedSizes.
Proof.
  intros _ H. unfold validate. cbn [center edges].
  rewrite (validateBody_perm (integerOf c) allowedSizes es es' H). reflexivity.
Qed.

Lemma validate_segment_order_witness :
  validate (mkCorona (Int 2) [[mkSeg 2 1; mkSeg 1 0]; [mkSeg 3 0]; [mkSeg 3 0]; [mkSeg 3 0]])
           defaultSizes
  = validate (mkCorona (Int 2) [[mkSeg 1 0; mkSeg 2 1]; [mkSeg 3 0]; [mkSeg 3 0]; [mkSeg 3 0]])
             defaultSizes.
Proof.
  apply validate_segment_order.
  - safe_numbers.
  - constructor; [apply perm_swap|].
    constructor; [apply Permutation_refl|].
    constructor; [apply Permutation_refl|].
    constructor; [apply Permutation_refl|].
    constructor.
Defined.

Lemma edgeText_perm (es es' : list (list EdgeSeg)) :
  Forall2 (@Permutation EdgeSeg) es es' -> map edgeText es = map edgeText es'.
Proof.
  induction 1 as [|e e' es es' He _ IH]; cbn [map]; [reflexivity|].
  unfold edgeText at 1 3. rewrite (sort_segments_perm e e' He), IH. reflexivity.
Qed.

(** X6.  The compact notation of a corona does not depend on the order in
    which the segments of an edge are given. *)
Theorem toCompact_segment_order (c : number) (es es' : list (list EdgeSeg)) :
  Forall2 (@Permutation EdgeSeg) es es' ->
  toCompact (mkCorona c es) = toCompact (mkCorona c es').
Proof.
  intros H. rewrite !toCompact_parts. cbn [center edges].
  rewrite (edgeText_perm es es' H). reflexivity.
Qed.

Lemma toCompact_segment_order_witness :
  toCompact (mkCorona (Int 2) [[mkSeg 2 1; mkSeg 1 0]; [mkSeg 3 0]; [mkSeg 3 0]; [mkSeg 3 0]])
  = toCompact (mkCorona (Int 2) [[mkSeg 1 0; mkSeg 2 1]; [mkSeg 3 0]; [mkSeg 3 0]; [mkSeg 3 0]]).
Proof.
  apply toCompact_segment_order.
  constructor; [apply perm_swap|].
  constructor; [apply Permutation_refl|].
  constructor; [apply Permutation_refl|].
  constructor; [apply Permutation_refl|].
  constructor.
Defined.

Lemma rotation_map {A B} (f : A -> B) (k : nat) (l : list A) :
  map f (rotation k l) = rotation k (map f l).
Proof.
  unfold rotation. rewrite map_app, skipn_map, firstn_map. reflexivity.
Qed.

Lemma edgeKey_perm (es es' : list (list EdgeSeg)) :
  Forall2 (@Permutation EdgeSeg) es es' -> map edgeKey es = map edgeKey es'.
Proof.
  induction 1 as [|e e' es es' He _ IH]; cbn [map]; [reflexivity|].
  unfold edgeKey at 1 3. rewrite (sort_segments_perm e e' He), IH. reflexivity.
Qed.

Lemma canonicalRotationEdges_of_keys (es es' : list (list EdgeSeg)) :
  map edgeKey es = map edgeKey es' ->
  canonicalRotationEdges es = canonicalRotationEdges es'.
Proof.
  intros H. unfold canonicalRotationEdges. cbn [fold_left].
  rewrite !rotation_map, H. reflexivity.
Qed.

(** X7.  The key [canonicalRotationEdges] gives to four edges does not depend
    on the order in which the segments of an edge are given. *)
Theorem canonicalRotationEdges_segment_order (es es' : list (list EdgeSeg)) :
  Forall2 (@Permutation EdgeSeg) es es' ->
  canonicalRotationEdges es = canonicalRotationEdges es'.
Proof.
  intros H. apply canonicalRotationEdges_of_keys, edgeKey_perm, H.
Qed.

Lemma canonicalRotationEdges_segment_order_witness :
  canonicalRotationEdges [[mkSeg 2 1; mkSeg 1 0]; [mkSeg 3 0]; [mkSeg 3 0]; [mkSeg 3 0]]
  = canonicalRotationEdges [[mkSeg 1 0; mkSeg 2 1]; [mkSeg 3 0]; [mkSeg 3 0]; [mkSeg 3 0]].
Proof.
  apply canonicalRotationEdges_segment_order.
  constructor; [apply perm_swap|].
  constructor; [apply Permutation_refl|].
  constructor; [apply Permutation_refl|].
  constructor; [apply Permutation_refl|].
  constructor.
Defined.

(* ================================================================= *)
(** ** Center 1 *)

Lemma sortBy_single {A} (cmp : A -> A -> Z) (l : list A) (a : A) :
  sortBy cmp l = [a] -> l = [a].
Proof.
  intros H. pose proof (sortBy_perm cmp l) as Hp. rewrite H in Hp.
  apply Permutation_length_1_inv, Permutation_sym, Hp.
Qed.

Lemma EdgePasses_center1 (allowedSizes : list Z) (e : list EdgeSeg) :
  EdgePasses 1 allowedSizes e ->
  exists s, e = [mkSeg s 0] /\ In s allowedSizes /\ 2 <= s.
Proof.
  intros (Hne & Hleg & Hali & _ & Hstart & Hwalk & _).
  destruct (sortBy byOffsetThenSize e) as [|a rest] eqn:Hs.
  { apply sortBy_nil_iff in Hs. contradiction. }
  inversion Hleg as [|? ? (Hin & Hpos & Hoff) Hleg']; subst.
  inversion Hali as [|? ? Hna _]; subst.
  unfold firstOf in Hstart. cbn [hd] in Hstart.
  destruct rest as [|b rest].
  - apply sortBy_single in Hs. exists (size a).
    split; [|split; [exact Hin | lia]].
    rewrite Hs. destruct a as [sa oa]. cbn [size offset] in *. subst oa. reflexivity.
  - exfalso. cbn [consecutive] in Hwalk. destruct Hwalk as [Hab _].
    inversion Hleg' as [|? ? (_ & _ & Hoffb) _]; subst. lia.
Qed.

Lemma listEqb_eq {A} (eqb : A -> A -> bool) (l1 l2 : list A) :
  (forall x y, eqb x y = true -> x = y) -> listEqb eqb l1 l2 = true -> l1 = l2.
Proof.
  intros Heq. revert l2. induction l1 as [|x l1 IH]; intros [|y l2]; simpl;
    try discriminate; [reflexivity|].
  rewrite andb_true_iff. intros [Hxy Hl]. f_equal; [apply Heq, Hxy | apply IH, Hl].
Qed.

Lemma segEqb_eq (a b : EdgeSeg) : segEqb a b = true -> a = b.
Proof.
  unfold segEqb. rewrite andb_true_iff, !Z.eqb_eq.
  destruct a, b. simpl. intros [-> ->]. reflexivity.
Qed.

Lemma isRotationOf_true (es es' : list (list EdgeSeg)) :
  isRotationOf es es' = true -> exists k, (k < 4)%nat /\ es = rotation k es'.
Proof.
  unfold isRotationOf. rewrite existsb_exists. intros (k & Hk & He). exists k. split.
  - simpl in Hk. lia.
  - apply (listEqb_eq _ _ _ (fun x y => listEqb_eq segEqb x y segEqb_eq)), He.
Qed.

Lemma candidates_all (e0 e1 e2 e3 : list EdgeSeg) :
  In e0 edgeChoices -> In e1 edgeChoices -> In e2 edgeChoices -> In e3 edgeChoices ->
  In (mkCorona (Int 1) [e0; e1; e2; e3]) candidates.
Proof.
  intros H0 H1 H2 H3. unfold candidates.
  apply in_flat_map. exists e0. split; [exact H0|].
  apply in_flat_map. exists e1. split; [exact H1|].
  apply in_flat_map. exists e2. split; [exact H2|].
  apply (in_map (fun e => mkCorona (Int 1) [e0; e1; e2; e])), H3.
Qed.

Lemma edgeChoices_all (e : list EdgeSeg) :
  EdgePasses 1 [1; 2; 3; 4] e -> In e edgeChoices.
Proof.
  intros Hp.
  destruct (EdgePasses_center1 _ _ Hp) as (s & -> & Hin & Hs). unfold edgeChoices. simpl in Hin |- *.
  destruct Hin as [<-|[<-|[<-|[<-|[]]]]]; try lia; auto.
Qed.

Lemma candidates_valid :
  Forall (fun cor => validate cor [1; 2; 3; 4] = Normal success) candidates.
Proof.
  apply (forallb_Forall (fun cor => isSuccess (validate cor [1; 2; 3; 4]))).
  - intros cor. apply isSuccess_true.
  - vm_compute. reflexivity.
Qed.

(** X8.  For center 1 the edge loop of [validate] lets an edge pass exactly
    when it is a single segment at offset 0 whose size is allowed and at
    least 2; for the sizes 1 to 4 these are the three [edgeChoices] of the
    enumeration, and the coronas with center 1 that [validate] accepts are
    exactly the 81 combinations the enumeration goes through. *)
Theorem center1_edge_walks (allowedSizes : list Z) (ei : nat) (e : list EdgeSeg)
        (es : list (list EdgeSeg)) :
  (checkEdge 1 allowedSizes ei e = Next tt <->
   exists s, e = [mkSeg s 0] /\ In s allowedSizes /\ 2 <= s) /\
  (checkEdge 1 [1; 2; 3; 4] ei e = Next tt <-> In e edgeChoices) /\
  (validate (mkCorona (Int 1) es) [1; 2; 3; 4] = Normal success <->
   In (mkCorona (Int 1) es) candidates).
Proof.
  split; [|split].
  - rewrite checkEdge_Next_iff. split; [apply EdgePasses_center1|].
    intros (s & -> & Hin & Hs).
    unfold EdgePasses.
    cbn [sortBy insertBy fold_right firstOf lastOf hd last consecutive size offset].
    split; [discriminate|].
    split; [constructor; [|constructor]; cbn [size offset]; repeat split; (exact Hin || lia)|].
    split; [constructor; [|constructor]; cbn [size offset]; lia|].
    repeat split; lia.
  - split.
    + intros H. apply edgeChoices_all. apply (checkEdge_Next_iff 1 [1; 2; 3; 4] ei), H.
    + unfold edgeChoices. intros [<-|[<-|[<-|[]]]]; reflexivity.
  - split.
    + intros Hv. apply validate_success_iff in Hv.
      destruct Hv as (c & Ec & _ & Hlen & Hp & _). cbn [center edges] in Ec, Hlen, Hp.
      injection Ec as <-.
      destruct (four_edges es Hlen) as (e0 & e1 & e2 & e3 & ->).
      inversion Hp as [|? ? H0 Hp1]; subst. inversion Hp1 as [|? ? H1 Hp2]; subst.
      inversion Hp2 as [|? ? H2 Hp3]; subst. inversion Hp3 as [|? ? H3 _]; subst.
      apply candidates_all; apply edgeChoices_all; assumption.
    + intros Hin. pose proof candidates_valid as Hall.
      rewrite Forall_forall in Hall. apply Hall, Hin.
Qed.

Lemma NoDup_map_eq {A B} (f : A -> B) (l : list A) (x y : A) :
  NoDup (map f l) -> In x l -> In y l -> f x = f y -> x = y.
Proof.
  induction l as [|a l IH]; simpl; [contradiction|].
  intros Hnd Hx Hy E. inversion Hnd as [|? ? Hna Hnd']; subst.
  destruct Hx as [->|Hx], Hy as [->|Hy].
  - reflexivity.
  - exfalso. apply Hna. rewrite E. apply in_map, Hy.
  - exfalso. apply Hna. rewrite <- E. apply in_map, Hx.
  - apply IH; assumption.
Qed.

Lemma enumerate_rotations :
  exists unique,
    enumerateUniqueCoronasCenter1 = Normal unique /\
    NoDup (map keyOf unique) /\
    Forall (fun u => List.length (edges u) = 4%nat) unique /\
    Forall (fun cor => exists u, In u unique /\ isRotationOf (edges cor) (edges u) = true)
           candidates.
Proof.
  eexists. split; [vm_compute; reflexivity|]. split; [|split].
  - apply distinctb_NoDup. vm_compute. reflexivity.
  - apply (forallb_Forall (fun u => (List.length (edges u) =? 4)%nat)).
    + intros u. apply Nat.eqb_eq.
    + vm_compute. reflexivity.
  - match goal with
    | |- Forall (fun cor => exists u, In u ?U /\ _) _ =>
        apply (forallb_Forall
                 (fun cor => existsb (fun u => isRotationOf (edges cor) (edges u)) U))
    end.
    + intros cor H. apply existsb_exists in H. exact H.
    + vm_compute. reflexivity.
Qed.

Lemma rotation_key (es : list (list EdgeSeg)) (k : nat) :
  List.length es = 4%nat ->
  canonicalRotationEdges (rotation k es) = canonicalRotationEdges es.
Proof.
  intros Hlen. destruct (four_edges es Hlen) as (e0 & e1 & e2 & e3 & ->).
  destruct (rotation_four_cases k e0 e1 e2 e3) as [E|[E|[E|E]]]; cbv zeta in E; rewrite E.
  - reflexivity.
  - apply (rotation_key_four e0 e1 e2 e3 1). lia.
  - apply (rotation_key_four e0 e1 e2 e3 2). lia.
  - apply (rotation_key_four e0 e1 e2 e3 3). lia.
Qed.

(** X9.  The enumeration is complete up to rotation: the edges of every
    corona with center 1 that [validate] accepts for the sizes 1 to 4 are a
    cyclic rotation of the edges of exactly one of the coronas that
    [enumerateUniqueCoronasCenter1] returns. *)
Theorem enumerate_complete (es : list (list EdgeSeg)) :
  validate (mkCorona (Int 1) es) [1; 2; 3; 4] = Normal success ->
  exists unique u,
    enumerateUniqueCoronasCenter1 = Normal unique /\
    In u unique /\
    (exists k, (k < 4)%nat /\ es = rotation k (edges u)) /\
    (forall v k, In v unique -> es = rotation k (edges v) -> v = u).
Proof.
  intros Hv. apply validate_success_iff in Hv.
  destruct Hv as (c & [= <-] & _ & Hlen & Hp & _). cbn [edges] in Hlen, Hp.
  destruct (four_edges es Hlen) as (e0 & e1 & e2 & e3 & ->).
  inversion Hp as [|? ? H0 Hp1]; subst. inversion Hp1 as [|? ? H1 Hp2]; subst.
  inversion Hp2 as [|? ? H2 Hp3]; subst. inversion Hp3 as [|? ? H3 _]; subst.
  destruct enumerate_rotations as (unique & Hrun & Hnd & Hfour & Hall).
  rewrite Forall_forall in Hall.
  destruct (Hall _ (candidates_all e0 e1 e2 e3 (edgeChoices_all _ H0) (edgeChoices_all _ H1)
                                   (edgeChoices_all _ H2) (edgeChoices_all _ H3)))
    as (u & Hu & Hrot).
  cbn [edges] in Hrot. apply isRotationOf_true in Hrot. destruct Hrot as (k & Hk & Hes).
  exists unique, u. split; [exact Hrun|]. split; [exact Hu|]. split; [eauto|].
  intros v k' Hin Hes'. rewrite Forall_forall in Hfour.
  apply (NoDup_map_eq keyOf unique v u Hnd Hin Hu). unfold keyOf.
  rewrite <- (rotation_key (edges v) k' (Hfour v Hin)), <- Hes'.
  rewrite <- (rotation_key (edges u) k (Hfour u Hu)), <- Hes. reflexivity.
Qed.

Lemma enumerate_complete_witness :
  exists unique u,
    enumerateUniqueCoronasCenter1 = Normal unique /\
    In u unique /\
    (exists k, (k < 4)%nat /\
               [[mkSeg 4 0]; [mkSeg 2 0]; [mkSeg 3 0]; [mkSeg 2 0]] = rotation k (edges u)) /\
    (forall v k, In v unique ->
                 [[mkSeg 4 0]; [mkSeg 2 0]; [mkSeg 3 0]; [mkSeg 2 0]] = rotation k (edges v) ->
                 v = u).
Proof.
  apply (enumerate_complete [[mkSeg 4 0]; [mkSeg 2 0]; [mkSeg 3 0]; [mkSeg 2 0]]).
  vm_compute. reflexivity.
Defined.

(* ================================================================= *)
(** ** What a key determines *)

Lemma string_app_assoc (a b c : string) : ((a ++ b) ++ c = a ++ (b ++ c))%string.
Proof. induction a as [|ch a IH]; simpl; [reflexivity | rewrite IH; reflexivity]. Qed.

Lemma span_unique (sep : ascii) (a a' r r' : string) :
  allChars (notChar sep) a = true ->
  allChars (notChar sep) a' = true ->
  (a ++ String sep r = a' ++ String sep r')%string ->
  a = a' /\ r = r'.
Proof.
  revert a'. induction a as [|ch a IH]; intros [|ch' a']; simpl.
  - intros _ _ [= ->]. auto.
  - unfold notChar at 1. rewrite andb_true_iff, negb_true_iff, Ascii.eqb_neq.
    intros _ [Hne _] [= -> _]. contradiction.
  - unfold notChar at 1. rewrite andb_true_iff, negb_true_iff, Ascii.eqb_neq.
    intros [Hne _] _ [= -> _]. contradiction.
  - rewrite !andb_true_iff. intros [_ Ha] [_ Ha'] [= -> E].
    destruct (IH a' Ha Ha' E) as [-> ->]. auto.
Qed.

Lemma Z_toString_inj (z z' : Z) : Z_toString z = Z_toString z' -> z = z'.
Proof.
  intros E. pose proof (parseInt_toString z) as H. rewrite E, parseInt_toString in H.
  congruence.
Qed.

Lemma Z_toString_not (sep : ascii) (z : Z) :
  isTokenChar sep = false -> allChars (notChar sep) (Z_toString z) = true.
Proof.
  intros Hsep. apply (allChars_impl isTokenChar); [|apply Z_toString_tokenChars].
  apply tokenChar_notChar, Hsep.
Qed.

Lemma bodyText_cons (x : EdgeSeg) (rest : list EdgeSeg) (t : string) :
  (bodyText (x :: rest) ++ String "]" t)%string
  = String "[" (Z_toString (size x)
                ++ String "," (Z_toString (offset x) ++ String "]" (tailText rest t)))%string.
Proof.
  destruct rest as [|y rest].
  - unfold bodyText, tailText, pairText, join. cbn [map String.concat append].
    rewrite !string_app_assoc. cbn [append]. rewrite !string_app_assoc. reflexivity.
  - change (bodyText (x :: y :: rest))
      with (pairText x ++ String "," (bodyText (y :: rest)))%string.
    set (B := bodyText (y :: rest)). unfold tailText, pairText. fold B.
    cbn [append]. rewrite !string_app_assoc. cbn [append].
    rewrite !string_app_assoc. cbn [append]. reflexivity.
Qed.

Lemma bodyText_inj (v v' : list EdgeSeg) (t t' : string) :
  (bodyText v ++ String "]" t = bodyText v' ++ String "]" t')%string -> v = v'.
Proof.
  revert v' t t'. induction v as [|x r IH]; intros [|x' r'] t t'.
  - reflexivity.
  - rewrite bodyText_cons. cbn. discriminate.
  - rewrite bodyText_cons. cbn. discriminate.
  - rewrite !bodyText_cons. intros [= E].
    apply span_unique in E; try (apply Z_toString_not; reflexivity).
    destruct E as [Es E].
    apply span_unique in E; try (apply Z_toString_not; reflexivity).
    destruct E as [Eo E].
    apply Z_toString_inj in Es, Eo.
    assert (Hx : x = x').
    { destruct x, x'. cbn [size offset] in Es, Eo. subst. reflexivity. }
    subst x'. f_equal.
    destruct r as [|y r0], r' as [|y' r0']; cbn [tailText] in E.
    + reflexivity.
    + discriminate.
    + discriminate.
    + injection E as E. exact (IH _ _ _ E).
Qed.

Lemma edgeKey_text (e : list EdgeSeg) :
  edgeKey e = String "[" (bodyText (sortBy byOffsetThenSize e) ++ String "]" EmptyString).
Proof.
  unfold edgeKey, JSON_stringify, bodyText. cbv zeta. rewrite map_map.
  cbn [append]. do 3 f_equal. apply map_ext. intros x.
  unfold pairText, join. cbn [map String.concat append].
  rewrite !string_app_assoc. reflexivity.
Qed.

Lemma edgeKey_inj (e e' : list EdgeSeg) :
  edgeKey e = edgeKey e' -> sortBy byOffsetThenSize e = sortBy byOffsetThenSize e'.
Proof.
  rewrite !edgeKey_text. intros [= E]. exact (bodyText_inj _ _ _ _ E).
Qed.

Lemma edgeKeys_inj (l l' : list (list EdgeSeg)) :
  map edgeKey l = map edgeKey l' ->
  map (sortBy byOffsetThenSize) l = map (sortBy byOffsetThenSize) l'.
Proof.
  revert l'. induction l as [|e l IH]; intros [|e' l']; cbn [map]; try discriminate.
  - reflexivity.
  - intros H.
    assert (E : edgeKey e = edgeKey e') by exact (f_equal (hd EmptyString) H).
    assert (El : map edgeKey l = map edgeKey l') by exact (f_equal (@tl _) H).
    rewrite (edgeKey_inj _ _ E), (IH _ El). reflexivity.
Qed.

Lemma pairText_keyChars (s : EdgeSeg) : allChars isKeyChar (pairText s) = true.
Proof.
  assert (Hz : forall z, allChars isKeyChar (Z_toString z) = true).
  { intros z. apply (allChars_impl isTokenChar); [|apply Z_toString_tokenChars].
    intros ch H. unfold isKeyChar. rewrite H. reflexivity. }
  unfold pairText. rewrite !allChars_app, !Hz. reflexivity.
Qed.

Lemma edgeKey_keyChars (e : list EdgeSeg) : allChars isKeyChar (edgeKey e) = true.
Proof.
  rewrite edgeKey_text. cbn [allChars]. rewrite allChars_app.
  unfold bodyText. rewrite (allChars_join isKeyChar ","); [reflexivity | reflexivity |].
  apply Forall_forall. intros p Hp. apply in_map_iff in Hp.
  destruct Hp as (s & <- & _). apply pairText_keyChars.
Qed.

Lemma edgeKey_no_semicolon (e : list EdgeSeg) : allChars (notChar ";") (edgeKey e) = true.
Proof.
  apply (allChars_impl isKeyChar); [|apply edgeKey_keyChars].
  intros ch H. unfold notChar. apply negb_true_iff, Ascii.eqb_neq. intros ->.
  discriminate H.
Qed.

Lemma joined_keys_inj (l l' : list (list EdgeSeg)) :
  l <> [] -> l' <> [] ->
  join ";" (map edgeKey l) = join ";" (map edgeKey l') ->
  map edgeKey l = map edgeKey l'.
Proof.
  intros Hl Hl' E.
  assert (Hs : forall m : list (list EdgeSeg), m <> [] ->
               split ";" (join ";" (map edgeKey m)) = map edgeKey m).
  { intros m Hm. apply split_join.
    - destruct m; [congruence | discriminate].
    - apply Forall_forall. intros p Hp. apply in_map_iff in Hp.
      destruct Hp as (e & <- & _). apply edgeKey_no_semicolon. }
  rewrite <- (Hs l Hl), <- (Hs l' Hl'), E. reflexivity.
Qed.

Lemma canonicalRotationEdges_rotKeys (es : list (list EdgeSeg)) :
  canonicalRotationEdges es
  = nth 0 (sortBy byCodeUnits (map (rotKey es) [0; 1; 2; 3]%nat)) EmptyString.
Proof.
  unfold canonicalRotationEdges.
  rewrite (fold_push (fun k => join ";" (map edgeKey (rotation k es)))). reflexivity.
Qed.

Lemma canonicalRotationEdges_least (es : list (list EdgeSeg)) :
  (exists k, (k < 4)%nat /\ canonicalRotationEdges es = rotKey es k) /\
  (forall k, (k < 4)%nat -> byCodeUnits (canonicalRotationEdges es) (rotKey es k) <= 0).
Proof.
  rewrite canonicalRotationEdges_rotKeys.
  set (keys := map (rotKey es) [0; 1; 2; 3]%nat).
  assert (H0 : In (rotKey es 0) keys) by (left; reflexivity).
  split.
  - destruct (sorted_head_least keys _ H0) as [Hin _].
    apply in_map_iff in Hin. destruct Hin as (k & Hk & Hin).
    exists k. split; [simpl in Hin; lia | symmetry; exact Hk].
  - intros k Hk. apply sorted_head_least, in_map. simpl. lia.
Qed.

(** X10.  The key [canonicalRotationEdges] returns is the key of one of the
    four rotations and, compared by code units, it is not above the key of
    any of them: it is the least of the four rotation keys. *)
Theorem canonical_key_is_least (es : list (list EdgeSeg)) :
  (exists k, (k < 4)%nat /\
             canonicalRotationEdges es = join ";" (map edgeKey (rotation k es))) /\
  (forall k, (k < 4)%nat ->
             String.compare (canonicalRotationEdges es)
                            (join ";" (map edgeKey (rotation k es))) <> Gt).
Proof.
  destruct (canonicalRotationEdges_least es) as [Hin Hleast]. split; [exact Hin|].
  intros k Hk. specialize (Hleast k Hk). unfold rotKey, byCodeUnits in Hleast.
  destruct (String.compare _ _); [discriminate | discriminate | lia].
Qed.

Lemma rotation_back (A : Type) (l l' : list A) (k k' : nat) :
  List.length l = 4%nat -> List.length l' = 4%nat ->
  (k < 4)%nat -> (k' < 4)%nat ->
  rotation k l = rotation k' l' ->
  exists j, (j < 4)%nat /\ l' = rotation j l.
Proof.
  intros Hl Hl' Hk Hk' E.
  destruct l as [|a [|b [|c [|d [|x l]]]]]; try discriminate.
  destruct l' as [|a' [|b' [|c' [|d' [|x' l']]]]]; try discriminate.
  assert (Hc : k = 0%nat \/ k = 1%nat \/ k = 2%nat \/ k = 3%nat) by lia.
  assert (Hc' : k' = 0%nat \/ k' = 1%nat \/ k' = 2%nat \/ k' = 3%nat) by lia.
  destruct Hc as [-> | [-> | [-> | ->]]], Hc' as [-> | [-> | [-> | ->]]];
    cbv [rotation skipn firstn app] in E; injection E as -> -> -> ->;
    first [ exists 0%nat; split; [lia | reflexivity]
          | exists 1%nat; split; [lia | reflexivity]
          | exists 2%nat; split; [lia | reflexivity]
          | exists 3%nat; split; [lia | reflexivity] ].
Qed.

Lemma edgeKey_sorted (e : list EdgeSeg) : edgeKey (sortBy byOffsetThenSize e) = edgeKey e.
Proof.
  unfold edgeKey. cbv zeta. rewrite (sortBy_idempotent _ byOffsetThenSize_total). reflexivity.
Qed.

Lemma canonicalRotationEdges_sorted (es : list (list EdgeSeg)) :
  canonicalRotationEdges (map (sortBy byOffsetThenSize) es) = canonicalRotationEdges es.
Proof.
  apply canonicalRotationEdges_of_keys. rewrite map_map. apply map_ext, edgeKey_sorted.
Qed.

(** X11.  Two lists of four edges get the same key from
    [canonicalRotationEdges] exactly when, with each edge's segments sorted
    by [(offset, size)], one is a cyclic rotation of the other: the
    enumeration drops a corona only for an earlier one it is a rotation
    of. *)
Theorem canonical_key_injective (es es' : list (list EdgeSeg)) :
  List.length es = 4%nat ->
  List.length es' = 4%nat ->
  (canonicalRotationEdges es = canonicalRotationEdges es' <->
   exists k, (k < 4)%nat /\
             map (sortBy byOffsetThenSize) es'
             = rotation k (map (sortBy byOffsetThenSize) es)).
Proof.
  intros Hlen Hlen'. split.
  - intros E.
    destruct (canonicalRotationEdges_least es) as [(k & Hk & Hkey) _].
    destruct (canonicalRotationEdges_least es') as [(k' & Hk' & Hkey') _].
    rewrite Hkey, Hkey' in E. unfold rotKey in E.
    apply joined_keys_inj in E.
    + apply edgeKeys_inj in E. rewrite !rotation_map in E.
      apply (rotation_back _ _ _ k k'); try assumption; rewrite length_map; assumption.
    + intros H. apply (f_equal (@List.length _)) in H.
      rewrite rotation_length, Hlen in H. discriminate.
    + intros H. apply (f_equal (@List.length _)) in H.
      rewrite rotation_length, Hlen' in H. discriminate.
  - intros (k & Hk & E).
    rewrite <- (canonicalRotationEdges_sorted es'), E.
    rewrite rotation_key by (rewrite length_map; exact Hlen).
    symmetry. apply canonicalRotationEdges_sorted.
Qed.

Lemma canonical_key_injective_witness :
  canonicalRotationEdges [[mkSeg 2 1; mkSeg 1 0]; [mkSeg 3 0]; [mkSeg 3 0]; [mkSeg 4 0]]
  = canonicalRotationEdges [[mkSeg 3 0]; [mkSeg 4 0]; [mkSeg 1 0; mkSeg 2 1]; [mkSeg 3 0]]
  <-> exists k, (k < 4)%nat /\
                map (sortBy byOffsetThenSize)
                    [[mkSeg 3 0]; [mkSeg 4 0]; [mkSeg 1 0; mkSeg 2 1]; [mkSeg 3 0]]
                = rotation k (map (sortBy byOffsetThenSize)
                    [[mkSeg 2 1; mkSeg 1 0]; [mkSeg 3 0]; [mkSeg 3 0]; [mkSeg 4 0]]).
Proof.
  apply canonical_key_injective; reflexivity.
Defined.

(* ================================================================= *)
(** ** More on the compact notation *)

Lemma removeSpaces_trimStart (s : string) : removeSpaces (trimStart s) = removeSpaces s.
Proof.
  induction s as [|ch s IH]; simpl; [reflexivity|].
  destruct (isSpace ch) eqn:E; [exact IH|]. simpl. rewrite E. reflexivity.
Qed.

Lemma removeSpaces_trimEnd (s : string) : removeSpaces (trimEnd s) = removeSpaces s.
Proof.
  induction s as [|ch s IH]; simpl; [reflexivity|].
  destruct (isSpace ch) eqn:E; cbn [andb].
  - destruct (trimEnd s) as [|ch' s'] eqn:Et; cbn [isEmpty].
    + rewrite <- IH. reflexivity.
    + cbn [removeSpaces]. rewrite E. exact IH.
  - cbn [removeSpaces]. rewrite E, IH. reflexivity.
Qed.

Lemma stripped_removeSpaces (s : string) : stripped s = removeSpaces s.
Proof. unfold stripped, trim. rewrite removeSpaces_trimEnd. apply removeSpaces_trimStart. Qed.

Lemma fromCompact_stripped (s s' : string) :
  stripped s = stripped s' -> fromCompact s = fromCompact s'.
Proof. intros E. unfold fromCompact. rewrite E. reflexivity. Qed.

(** X12.  [fromCompact] ignores white space wherever it stands: two inputs
    that are the same once their white space is removed are read alike,
    whether as a corona or as an error. *)
Theorem fromCompact_ignores_spaces (s s' : string) :
  removeSpaces s = removeSpaces s' -> fromCompact s = fromCompact s'.
Proof.
  intros E. apply fromCompact_stripped. rewrite !stripped_removeSpaces. exact E.
Qed.

Lemma fromCompact_ignores_spaces_witness :
  fromCompact "  1 | 2^0 |3 ^ 0|4^0 | 2^0 " = fromCompact "1|2^0|3^0|4^0|2^0".
Proof.
  apply fromCompact_ignores_spaces. reflexivity.
Defined.

Lemma find_app {A} (f : A -> bool) (l1 l2 : list A) :
  find f (l1 ++ l2) = match find f l1 with Some x => Some x | None => find f l2 end.
Proof.
  induction l1 as [|x l1 IH]; simpl; [reflexivity|]. destruct (f x); [reflexivity | exact IH].
Qed.

Lemma firstBadToken_None (toks : list string) :
  firstBadToken toks = None -> forallb matches toks = true.
Proof.
  unfold firstBadToken. induction toks as [|tok toks IH]; simpl; [reflexivity|].
  destruct (matches tok); simpl; [exact IH | discriminate].
Qed.

Lemma firstBadToken_first (pre post : list string) (tok : string) :
  Forall SegPattern pre -> ~ SegPattern tok ->
  firstBadToken (pre ++ tok :: post) = Some tok.
Proof.
  intros Hpre Htok. unfold firstBadToken.
  induction Hpre as [|t pre Ht _ IH]; simpl.
  - destruct (matches tok) eqn:E; [|reflexivity].
    apply matches_iff in E. contradiction.
  - apply matches_iff in Ht. rewrite Ht. simpl. exact IH.
Qed.

Lemma parseTokens_firstBad (toks : list string) (acc : list EdgeSeg) (tok : string) :
  firstBadToken toks = Some tok ->
  parseTokens toks acc = Throw (ErrorMsg ("Bad segment token: " ++ tok)).
Proof.
  unfold firstBadToken. revert acc.
  induction toks as [|t toks IH]; intros acc; simpl; [discriminate|].
  unfold matches at 1. destruct (matchSegPat t) as [[m1 m2]|]; simpl.
  - apply IH.
  - intros [= ->]. reflexivity.
Qed.

Lemma parseEdges_firstBad (txts : list string) (acc : list (list EdgeSeg)) (tok : string) :
  firstBadToken (flat_map (split ",") txts) = Some tok ->
  parseEdges txts acc = Throw (ErrorMsg ("Bad segment token: " ++ tok)).
Proof.
  revert acc. induction txts as [|txt txts IH]; intros acc; cbn [flat_map parseEdges].
  { discriminate. }
  unfold firstBadToken. rewrite find_app.
  destruct (find _ (split "," txt)) as [t|] eqn:E.
  - intros [= ->]. rewrite (parseTokens_firstBad _ [] tok E). reflexivity.
  - intros Hrest.
    destruct (parseTokens_ok (split "," txt) [] (firstBadToken_None _ E))
      as (segs & Hp & _). rewrite Hp. cbn [bind]. apply IH, Hrest.
Qed.

(** X13.  When the stripped input has five parts, [fromCompact] reports the
    first token, in reading order over the four edge parts, that does not
    have the form of a segment: it raises "Bad segment token: " followed by
    that token, whatever comes after it. *)
Theorem fromCompact_first_bad_token (s : string) (pre post : list string) (tok : string) :
  let parts := split "|" (stripped s) in
  List.length parts = 5%nat ->
  edgeTokens parts = pre ++ tok :: post ->
  Forall SegPattern pre ->
  ~ SegPattern tok ->
  fromCompact s = Raised (ErrorMsg ("Bad segment token: " ++ tok)).
Proof.
  intros parts Hlen Htoks Hpre Htok. unfold fromCompact. fold parts.
  rewrite Hlen. cbn [Nat.eqb negb bind].
  pose proof (firstBadToken_first pre post tok Hpre Htok) as Hbad.
  rewrite <- Htoks in Hbad. unfold edgeTokens in Hbad.
  rewrite (parseEdges_firstBad _ [] tok Hbad). reflexivity.
Qed.

Lemma fromCompact_first_bad_token_witness :
  fromCompact "1|2^0,x|3^|2^0|2^0" = Raised (ErrorMsg "Bad segment token: x").
Proof.
  apply (fromCompact_first_bad_token "1|2^0,x|3^|2^0|2^0" ["2^0"] ["3^"; "2^0"; "2^0"] "x").
  - reflexivity.
  - reflexivity.
  - constructor; [apply matches_iff; reflexivity | constructor].
  - intros H. apply matches_iff in H. discriminate H.
Defined.

(** X14.  On coronas the notation can carry, [toCompact] tells apart
    everything but the order of the segments within an edge: two such
    coronas have the same notation exactly when they are the same once each
    edge is sorted by [(offset, size)]. *)
Theorem toCompact_injective (a b : Corona) :
  Representable a -> Representable b ->
  (toCompact a = toCompact b <-> sortedCorona a = sortedCorona b).
Proof.
  intros Ha Hb. split; intros E.
  - pose proof (fromCompact_toCompact a Ha) as Pa.
    pose proof (fromCompact_toCompact b Hb) as Pb.
    rewrite E, Pb in Pa. congruence.
  - rewrite <- (toCompact_sortedCorona a), <- (toCompact_sortedCorona b), E. reflexivity.
Qed.

Lemma toCompact_injective_witness :
  toCompact (mkCorona (Int 2) [[mkSeg 2 1; mkSeg 1 0]; [mkSeg 3 0]; [mkSeg 3 0]; [mkSeg 4 0]])
  = toCompact (mkCorona (Int 2) [[mkSeg 1 0; mkSeg 2 1]; [mkSeg 3 0]; [mkSeg 3 0]; [mkSeg 4 0]])
  <-> sortedCorona (mkCorona (Int 2) [[mkSeg 2 1; mkSeg 1 0]; [mkSeg 3 0]; [mkSeg 3 0]; [mkSeg 4 0]])
      = sortedCorona (mkCorona (Int 2) [[mkSeg 1 0; mkSeg 2 1]; [mkSeg 3 0]; [mkSeg 3 0]; [mkSeg 4 0]]).
Proof.
  apply toCompact_injective.
  - split; [right; exists 2; reflexivity|]. split; [reflexivity|].
    repeat constructor; simpl; (discriminate || lia).
  - split; [right; exists 2; reflexivity|]. split; [reflexivity|].
    repeat constructor; simpl; (discriminate || lia).
Defined.

Lemma validate_sortedCorona (cor : Corona) (allowedSizes : list Z) :
  validate (sortedCorona cor) allowedSizes = validate cor allowedSizes.
Proof.
  unfold validate, sortedCorona. cbn [center edges].
  rewrite (validateBody_perm _ allowedSizes _ _ (sorted_edges_perm (edges cor))).
  reflexivity.
Qed.

(** X15.  Writing a corona the notation can carry, all of whose numbers
    and sums are safe integers, and reading it back changes nothing the
    program goes on to use: the corona read gets the same result from
    [validate], the same key from [canonicalRotationEdges] and the same
    notation from [toCompact]. *)
Theorem compact_keeps_verdict (cor : Corona) (allowedSizes : list Z) :
  Representable cor ->
  SafeNumbers cor ->
  ExactFor cor ->
  exists cor',
    fromCompact (toCompact cor) = Normal cor' /\
    validate cor' allowedSizes = validate cor allowedSizes /\
    canonicalRotationEdges (edges cor') = canonicalRotationEdges (edges cor) /\
    toCompact cor' = toCompact cor.
Proof.
  intros Hr _ _. exists (sortedCorona cor).
  split; [apply fromCompact_toCompact, Hr|].
  split; [apply validate_sortedCorona|].
  split; [apply canonicalRotationEdges_sorted | apply toCompact_sortedCorona].
Qed.

Lemma compact_keeps_verdict_witness :
  exists cor',
    fromCompact (toCompact (mkCorona (Int 2) [[mkSeg 2 1; mkSeg 1 0]; [mkSeg 3 0];
                                              [mkSeg 3 0]; [mkSeg 4 0]]))
    = Normal cor' /\
    validate cor' defaultSizes
    = validate (mkCorona (Int 2) [[mkSeg 2 1; mkSeg 1 0]; [mkSeg 3 0]; [mkSeg 3 0]; [mkSeg 4 0]])
               defaultSizes /\
    canonicalRotationEdges (edges cor')
    = canonicalRotationEdges [[mkSeg 2 1; mkSeg 1 0]; [mkSeg 3 0]; [mkSeg 3 0]; [mkSeg 4 0]] /\
    toCompact cor'
    = toCompact (mkCorona (Int 2) [[mkSeg 2 1; mkSeg 1 0]; [mkSeg 3 0]; [mkSeg 3 0]; [mkSeg 4 0]]).
Proof.
  apply (compact_keeps_verdict
           (mkCorona (Int 2) [[mkSeg 2 1; mkSeg 1 0]; [mkSeg 3 0]; [mkSeg 3 0]; [mkSeg 4 0]])).
  - split; [right; exists 2; reflexivity|]. split; [reflexivity|].
    repeat constructor; simpl; (discriminate || lia).
  - safe_numbers.
  - safe_numbers.
Defined.

Lemma Accepted_Representable (cor : Corona) (allowedSizes : list Z) :
  validate cor allowedSizes = Normal success -> Representable cor.
Proof.
  intros H. apply validate_success_iff in H.
  destruct H as (c & Ec & _ & Hlen & Hp & _).
  split; [right; exists c; exact Ec|]. split; [exact Hlen|].
  eapply Forall_impl; [|exact Hp]. intros e He. split; [apply He|].
  destruct He as (_ & Hleg & _).
  pose proof (sortBy_perm byOffsetThenSize e) as Hperm.
  apply Forall_forall. intros s Hs. rewrite Forall_forall in Hleg.
  specialize (Hleg s (Permutation_in _ Hperm Hs)). lia.
Qed.

(** X16.  Every corona [validate] accepts, all of whose numbers and sums
    are safe integers, can be written and read back:
    [fromCompact (toCompact c)] returns the corona with each edge sorted,
    and [validate] accepts it too. *)
Theorem accepted_corona_round_trips (cor : Corona) (allowedSizes : list Z) :
  ExactFor cor ->
  validate cor allowedSizes = Normal success ->
  fromCompact (toCompact cor) = Normal (sortedCorona cor) /\
  validate (sortedCorona cor) allowedSizes = Normal success.
Proof.
  intros _ H. split.
  - apply fromCompact_toCompact, (Accepted_Representable cor allowedSizes H).
  - rewrite validate_sortedCorona. exact H.
Qed.

Lemma accepted_corona_round_trips_witness :
  fromCompact (toCompact (mkCorona (Int 2) [[mkSeg 2 1; mkSeg 1 0]; [mkSeg 3 0];
                                            [mkSeg 3 0]; [mkSeg 4 0]]))
  = Normal (sortedCorona (mkCorona (Int 2) [[mkSeg 2 1; mkSeg 1 0]; [mkSeg 3 0];
                                            [mkSeg 3 0]; [mkSeg 4 0]])) /\
  validate (sortedCorona (mkCorona (Int 2) [[mkSeg 2 1; mkSeg 1 0]; [mkSeg 3 0];
                                            [mkSeg 3 0]; [mkSeg 4 0]])) defaultSizes
  = Normal success.
Proof.
  apply accepted_corona_round_trips.
  - safe_numbers.
  - vm_compute. reflexivity.
Defined.

(* ================================================================= *)
(** ** Loading saved coronas *)

Lemma mapItems_Normal (items : list Json) (cors : list Corona) :
  mapItems fromCompactJson items = Normal cors <-> Forall2 ReadsAs items cors.
Proof.
  revert cors. induction items as [|item items IH]; intros cors; cbn [mapItems].
  - split.
    + intros [= <-]. constructor.
    + intros H. inversion H. reflexivity.
  - split.
    + destruct (fromCompactJson item) as [cor|e] eqn:Ei; [|discriminate].
      destruct (mapItems fromCompactJson items) as [rest|e] eqn:Er; [|discriminate].
      intros [= <-]. constructor; [|apply IH; reflexivity].
      destruct item; try discriminate. exists s. auto.
    + intros H. inversion H as [|? cor ? rest (s & -> & Hs) Hrest]; subst.
      cbn [fromCompactJson]. rewrite Hs.
      apply IH in Hrest. rewrite Hrest. reflexivity.
Qed.

Lemma loadBody_Normal (parsed : Completion Json) (cors : list Corona) :
  loadBody parsed = Normal cors <->
  exists fields items,
    parsed = Normal (JObject fields) /\
    lookupField "coronas" fields = Some (JArray items) /\
    Forall2 ReadsAs items cors.
Proof.
  split.
  - unfold loadBody. destruct parsed as [data|e]; [|discriminate].
    destruct data as [|b|n|s|l|fields]; cbn [getCoronas getField mapCoronas];
      try discriminate.
    destruct (lookupField "coronas" fields) as [v|] eqn:Ef; [|discriminate].
    destruct v as [|b|n|s|items|fs]; cbn [mapCoronas]; try discriminate.
    intros H. exists fields, items. split; [reflexivity|]. split; [exact Ef|].
    apply mapItems_Normal, H.
  - intros (fields & items & -> & Ef & H). unfold loadBody. cbn [getCoronas getField].
    rewrite Ef. cbn [mapCoronas]. apply mapItems_Normal, H.
Qed.

(** X17.  [loadCoronasFromFile] returns all or nothing.  It returns coronas
    without logging a fault exactly when the file parses as an object whose
    [coronas] field is an array of strings that [fromCompact] reads, and
    then it returns one corona per string, in order; whenever it logs a
    fault, be it from reading, from the shape of the data or from a single
    string of the array, it returns the empty array. *)
Theorem loadCoronasFromFile_all_or_nothing (parsed : Completion Json) (cors : list Corona) :
  (loadCoronasFromFile parsed = (cors, None) <->
   exists fields items,
     parsed = Normal (JObject fields) /\
     lookupField "coronas" fields = Some (JArray items) /\
     Forall2 ReadsAs items cors)
  /\ (forall e, loadCoronasFromFile parsed = (cors, Some e) -> cors = []).
Proof.
  rewrite <- loadBody_Normal. unfold loadCoronasFromFile.
  destruct (loadBody parsed) as [cs|e]; split.
  - split; [intros [= ->]; reflexivity | intros [= ->]; reflexivity].
  - intros e. discriminate.
  - split; discriminate.
  - intros e' [= <- _]. reflexivity.
Qed.

Lemma mapItems_toCompact (cors : list Corona) :
  Forall Representable cors ->
  mapItems fromCompactJson (map (fun c => JString (toCompact c)) cors)
  = Normal (map sortedCorona cors).
Proof.
  induction 1 as [|cor cors Hr _ IH]; cbn [map mapItems fromCompactJson]; [reflexivity|].
  rewrite (fromCompact_toCompact cor Hr), IH. reflexivity.
Qed.

(** X18.  Loading what the generator saves gives the coronas back: on the
    data object [main] builds from coronas the notation can carry, with safe
    integers for numbers, [loadCoronasFromFile] logs nothing and returns
    these coronas, in order, each with its edges sorted by
    [(offset, size)]. *)
Theorem load_saved_coronas (generated : string) (cors : list Corona) :
  Forall Representable cors ->
  Forall SafeNumbers cors ->
  loadCoronasFromFile (Normal (outputData generated cors)) = (map sortedCorona cors, None).
Proof.
  intros H _. unfold loadCoronasFromFile, loadBody, outputData.
  cbn [getCoronas getField lookupField String.eqb Ascii.eqb Bool.eqb mapCoronas].
  rewrite (mapItems_toCompact cors H). reflexivity.
Qed.

Lemma load_saved_coronas_witness :
  loadCoronasFromFile
    (Normal (outputData "2025-01-01T00:00:00.000Z"
               [mkCorona (Int 1) [[mkSeg 2 0]; [mkSeg 2 0]; [mkSeg 2 0]; [mkSeg 2 0]];
                mkCorona (Int 2) [[mkSeg 2 1; mkSeg 1 0]; [mkSeg 3 0]; [mkSeg 3 0]; [mkSeg 4 0]]]))
  = (map sortedCorona
         [mkCorona (Int 1) [[mkSeg 2 0]; [mkSeg 2 0]; [mkSeg 2 0]; [mkSeg 2 0]];
          mkCorona (Int 2) [[mkSeg 2 1; mkSeg 1 0]; [mkSeg 3 0]; [mkSeg 3 0]; [mkSeg 4 0]]],
     None).
Proof.
  apply load_saved_coronas.
  - constructor; [|constructor; [|constructor]].
    + split; [right; exists 1; reflexivity|]. split; [reflexivity|].
      repeat constructor; simpl; (discriminate || lia).
    + split; [right; exists 2; reflexivity|]. split; [reflexivity|].
      repeat constructor; simpl; (discriminate || lia).
  - constructor; [|constructor; [|constructor]]; safe_numbers.
Defined.

Lemma accepted_sorted_edges (cor : Corona) :
  Forall (fun e => exists s, e = [s]) (edges cor) -> sortedCorona cor = cor.
Proof.
  destruct cor as [c es]. unfold sortedCorona. cbn [center edges]. intros H. f_equal.
  induction H as [|e es (s & ->) _ IH]; cbn [map]; [reflexivity|].
  rewrite IH. reflexivity.
Qed.

(** X19.  The pipeline of the generator and the loader is lossless for the
    enumeration: the data [main] builds from the coronas
    [enumerateUniqueCoronasCenter1] returns holds as many strings as there
    are coronas, and [loadCoronasFromFile] gives back exactly the list that
    was enumerated, whatever the date written with it. *)
Theorem load_enumerated_coronas (generated : string) :
  exists unique,
    enumerateUniqueCoronasCenter1 = Normal unique /\
    getField "count" (outputData generated unique) = Some (JNumber (Int 24)) /\
    loadCoronasFromFile (Normal (outputData generated unique)) = (unique, None).
Proof.
  eexists. split; [vm_compute; reflexivity|]. split; [reflexivity|].
  unfold loadCoronasFromFile, loadBody, outputData.
  cbn [getCoronas getField lookupField String.eqb Ascii.eqb Bool.eqb mapCoronas].
  vm_compute. reflexivity.
Qed.

(* ================================================================= *)
(** ** The drawing *)

Lemma edgeExtent_ge (edge : list EdgeSeg) (m : Z) : m <= edgeExtent m edge.
Proof.
  unfold edgeExtent. revert m. induction edge as [|s edge IH]; intros m; simpl; [lia|].
  specialize (IH (Z.max m (offset s + size s))). lia.
Qed.

Lemma edgeExtent_seg (edge : list EdgeSeg) (m : Z) (s : EdgeSeg) :
  In s edge -> offset s + size s <= edgeExtent m edge.
Proof.
  revert m. induction edge as [|a edge IH]; intros m; [contradiction|].
  intros [->|Hin].
  - pose proof (edgeExtent_ge edge (Z.max m (offset s + size s))) as H.
    unfold edgeExtent in *. simpl. lia.
  - apply (IH (Z.max m (offset a + size a)) Hin).
Qed.

Lemma maxExtentOf_ge (es : list (list EdgeSeg)) (c : Z) : c <= maxExtentOf c es.
Proof.
  unfold maxExtentOf. revert c. induction es as [|e es IH]; intros c; simpl; [lia|].
  pose proof (edgeExtent_ge e c). specialize (IH (edgeExtent c e)). lia.
Qed.

Lemma maxExtentOf_seg (es : list (list EdgeSeg)) (c : Z) (edge : list EdgeSeg) (s : EdgeSeg) :
  In edge es -> In s edge -> offset s + size s <= maxExtentOf c es.
Proof.
  revert c. induction es as [|e es IH]; intros c; [contradiction|].
  intros [->|Hin] Hs.
  - pose proof (edgeExtent_seg edge c s Hs) as H1.
    pose proof (maxExtentOf_ge es (edgeExtent c edge)) as H2.
    unfold maxExtentOf in *. simpl. lia.
  - apply (IH (edgeExtent c e) Hin Hs).
Qed.

Lemma half_canvasSize (c : Z) (es : list (list EdgeSeg)) :
  canvasSizeOf c es / 2 = (maxExtentOf c es * 2 + c) * 10 + padding.
Proof.
  unfold canvasSizeOf, scale, padding.
  generalize (maxExtentOf c es). intros m. Z.div_mod_to_equations. lia.
Qed.

Lemma half_centerSize (c : Z) : c * scale / 2 = c * 10.
Proof. unfold scale. Z.div_mod_to_equations. lia. Qed.

Lemma drawSegs_app (cx cy cs : Z) (idx : nat) (segs : list EdgeSeg) (ops : list DrawOp) :
  fold_left (drawSeg cx cy cs idx) segs ops = ops ++ flat_map (segOps cx cy cs idx) segs.
Proof.
  revert ops. induction segs as [|s segs IH]; intros ops; simpl.
  - rewrite List.app_nil_r. reflexivity.
  - rewrite IH. unfold drawSeg. rewrite <- List.app_assoc. reflexivity.
Qed.

Lemma drawEdges_app (cx cy cs : Z) (es : list (list EdgeSeg)) (idxs : list nat)
      (ops : list DrawOp) :
  drawEdges cx cy cs es idxs ops
  = (ops ++ fst (drawEdges cx cy cs es idxs []), snd (drawEdges cx cy cs es idxs [])).
Proof.
  revert ops. induction idxs as [|idx idxs IH]; intros ops; cbn [drawEdges].
  - cbn [fst snd]. rewrite List.app_nil_r. reflexivity.
  - destruct (nth_error es idx) as [edge|].
    + rewrite IH. rewrite (IH (fold_left _ _ [])). cbn [fst snd].
      rewrite !drawSegs_app. cbn [app]. rewrite <- List.app_assoc. reflexivity.
    + cbn [fst snd]. rewrite List.app_nil_r. reflexivity.
Qed.

Lemma drawEdges_Forall (P : DrawOp -> Prop) (cx cy cs : Z) (es : list (list EdgeSeg))
      (idxs : list nat) (ops : list DrawOp) :
  Forall P ops ->
  (forall idx edge s, nth_error es idx = Some edge -> In s edge ->
                      Forall P (segOps cx cy cs idx s)) ->
  Forall P (fst (drawEdges cx cy cs es idxs ops)).
Proof.
  intros Hops Hseg. revert ops Hops.
  induction idxs as [|idx idxs IH]; intros ops Hops; cbn [drawEdges]; [exact Hops|].
  destruct (nth_error es idx) as [edge|] eqn:He; [|exact Hops].
  apply IH. rewrite drawSegs_app. apply Forall_app. split; [exact Hops|].
  apply Forall_flat_map, Forall_forall. intros s Hs. apply (Hseg idx edge s He).
  exact (Permutation_in _ (Permutation_sym (sortBy_perm byOffset edge)) Hs).
Qed.

Lemma segOps_within (c : Z) (es : list (list EdgeSeg)) (idx : nat) (edge : list EdgeSeg)
      (s : EdgeSeg) :
  0 <= c -> Placed es ->
  nth_error es idx = Some edge -> In s edge ->
  Forall (fun op => within padding (canvasSizeOf c es - padding) (rectOf op))
         (segOps (canvasSizeOf c es / 2) (canvasSizeOf c es / 2) (c * scale) idx s).
Proof.
  intros Hc Hpl He Hs.
  assert (Hin : In edge es) by (eapply nth_error_In; exact He).
  pose proof (maxExtentOf_seg es c edge s Hin Hs) as Hext.
  pose proof (maxExtentOf_ge es c) as Hge.
  unfold Placed in Hpl. rewrite Forall_forall in Hpl. specialize (Hpl edge Hin).
  rewrite Forall_forall in Hpl. specialize (Hpl s Hs). destruct Hpl as [Ho Hsz].
  unfold segOps, segRect. rewrite half_canvasSize, half_centerSize.
  unfold canvasSizeOf, within, scale, padding.
  destruct idx as [|[|[|[|idx]]]]; cbv zeta; repeat constructor; cbn [rectOf rx ry rw rh]; lia.
Qed.



Lemma walk_apart (segs : list EdgeSeg) :
  Forall (fun s => 0 < size s) segs ->
  consecutive (fun a b => offset b = offset a + size a) segs ->
  StronglySorted (fun a b => offset a + size a <= offset b) segs.
Proof.
  induction segs as [|a [|b rest] IH]; intros Hpos Hwalk.
  - constructor.
  - constructor; constructor.
  - inversion Hpos as [|? ? Ha Hpos']; subst.
    destruct Hwalk as [Eab Hwalk].
    specialize (IH Hpos' Hwalk).
    constructor; [exact IH|].
    inversion IH as [|? ? _ Hb]; subst.
    inversion Hpos' as [|? ? Hbpos _]; subst.
    constructor; [lia|].
    eapply Forall_impl; [|exact Hb]. cbv beta. intros x Hx. lia.
Qed.

Lemma FOP_app {A} (R : A -> A -> Prop) (l1 l2 : list A) :
  ForallOrdPairs R l1 -> ForallOrdPairs R l2 ->
  (forall a b, In a l1 -> In b l2 -> R a b) ->
  ForallOrdPairs R (l1 ++ l2).
Proof.
  intros H1 H2 Hx. induction H1 as [|a l1 Ha H1 IH]; cbn [app]; [exact H2|].
  constructor.
  - apply Forall_app. split; [exact Ha|].
    apply Forall_forall. intros b Hb. apply Hx; [left; reflexivity | exact Hb].
  - apply IH. intros x y Hx' Hy. apply Hx; [right; exact Hx' | exact Hy].
Qed.

Lemma FOP_map_sorted {A} (R : A -> A -> Prop) (f : A -> Rect) (l : list A) :
  (forall a b, R a b -> apart (f a) (f b)) ->
  StronglySorted R l -> ForallOrdPairs apart (map f l).
Proof.
  intros Hf. induction 1 as [|a l _ IH Ha]; cbn [map]; constructor; [|exact IH].
  apply Forall_map. eapply Forall_impl; [|exact Ha]. intros b. apply Hf.
Qed.

Lemma regions_apart (cx cy half : Z) (i j : nat) (a b : Rect) :
  0 <= half -> (i < j)%nat -> (j < 4)%nat ->
  sideRegion cx cy half i a -> sideRegion cx cy half j b -> apart a b.
Proof.
  intros Hh Hij Hj.
  destruct i as [|[|[|[|i]]]], j as [|[|[|[|j]]]]; try lia;
    unfold sideRegion, apart; lia.
Qed.

Lemma center_apart (cx cy half : Z) (i : nat) (r : Rect) :
  0 <= half -> (i < 4)%nat ->
  sideRegion cx cy half i r ->
  apart (mkRect (cx - half) (cy - half) (2 * half) (2 * half)) r.
Proof.
  intros Hh Hi. destruct i as [|[|[|[|i]]]]; try lia;
    unfold sideRegion, apart; cbn [rx ry rw rh]; lia.
Qed.

Lemma squareOf_region (cx cy c : Z) (i : nat) (s : EdgeSeg) :
  (i < 4)%nat -> 0 <= offset s -> 0 <= size s ->
  sideRegion cx cy (c * 10) i (squareOf cx cy (c * scale) i s).
Proof.
  intros Hi Ho Hs. unfold squareOf, segRect. rewrite half_centerSize. unfold scale.
  destruct i as [|[|[|[|i]]]]; try lia; cbv zeta; unfold sideRegion; cbn [rx ry rw rh]; lia.
Qed.

Lemma squareOf_apart (cx cy cs : Z) (i : nat) (a b : EdgeSeg) :
  offset a + size a <= offset b ->
  apart (squareOf cx cy cs i a) (squareOf cx cy cs i b).
Proof.
  intros H. unfold squareOf, segRect, scale, apart.
  destruct i as [|[|[|[|i]]]]; cbv zeta; cbn [rx ry rw rh]; lia.
Qed.

Lemma fills_segOps (cx cy cs : Z) (i : nat) (segs : list EdgeSeg) :
  (i < 4)%nat ->
  fills (flat_map (segOps cx cy cs i) segs) = map (squareOf cx cy cs i) segs.
Proof.
  intros Hi. unfold fills. induction segs as [|s segs IH]; cbn [flat_map map]; [reflexivity|].
  rewrite flat_map_app, IH. f_equal.
  unfold segOps, squareOf, segRect. destruct i as [|[|[|[|i]]]]; try lia; reflexivity.
Qed.

Lemma fills_app (l1 l2 : list DrawOp) : fills (l1 ++ l2) = fills l1 ++ fills l2.
Proof. unfold fills. apply flat_map_app. Qed.

Lemma edge_squares (cx cy c : Z) (allowedSizes : list Z) (i : nat) (e : list EdgeSeg) :
  (i < 4)%nat -> 0 < c -> EdgePasses c allowedSizes e ->
  let squares := map (squareOf cx cy (c * scale) i) (sortBy byOffset e) in
  Forall (sideRegion cx cy (c * 10) i) squares /\
  ForallOrdPairs apart squares /\
  List.length squares = List.length e.
Proof.
  intros Hi Hc Hp. cbv zeta.
  rewrite (byOffset_sort_of_passing c allowedSizes e Hp).
  destruct Hp as (_ & Hleg & _ & _ & _ & Hwalk & _).
  split; [|split].
  - apply Forall_map. eapply Forall_impl; [|exact Hleg]. cbv beta.
    intros s (_ & Hs & Ho & _). apply squareOf_region; lia.
  - apply (FOP_map_sorted (fun a b => offset a + size a <= offset b)).
    + intros a b. apply squareOf_apart.
    + apply walk_apart; [|exact Hwalk].
      eapply Forall_impl; [|exact Hleg]. cbv beta. intros s (_ & Hs & _). exact Hs.
  - rewrite length_map. apply sortBy_length.
Qed.

Lemma Forall_cross {A} (P Q : A -> Prop) (R : A -> A -> Prop) (l1 l2 : list A) :
  Forall P l1 -> Forall Q l2 -> (forall a b, P a -> Q b -> R a b) ->
  forall a b, In a l1 -> In b l2 -> R a b.
Proof.
  intros H1 H2 H a b Ha Hb. rewrite Forall_forall in H1, H2. auto.
Qed.



(* ================================================================= *)
(** ** What an accepted edge looks like *)

Lemma walk_covers (segs : list EdgeSeg) (p : Z) :
  segs <> [] ->
  consecutive (fun a b => offset b = offset a + size a) segs ->
  offset (firstOf segs) <= p < offset (lastOf segs) + size (lastOf segs) ->
  exists s, In s segs /\ covers s p.
Proof.
  induction segs as [|a [|b rest] IH]; intros Hne Hwalk Hp; [congruence| |].
  - exists a. split; [left; reflexivity | exact Hp].
  - destruct Hwalk as [Eab Hwalk].
    destruct (Z.lt_ge_cases p (offset a + size a)) as [Hlt|Hge].
    + exists a. split; [left; reflexivity|]. unfold covers, firstOf in *. cbn [hd] in Hp. lia.
    + destruct IH as (s & Hin & Hs); [discriminate | exact Hwalk | |].
      * unfold firstOf, lastOf in *. cbn [hd] in *.
        change (last (a :: b :: rest) noSeg) with (last (b :: rest) noSeg) in Hp. lia.
      * exists s. split; [right; exact Hin | exact Hs].
Qed.

Lemma gaps_cover_once (segs : list EdgeSeg) (p : Z) (s s' : EdgeSeg) :
  StronglySorted (fun a b => offset a + size a <= offset b) segs ->
  In s segs -> In s' segs -> covers s p -> covers s' p -> s' = s.
Proof.
  unfold covers. induction 1 as [|a l _ IH Ha]; intros Hs Hs' Hc Hc'; [contradiction|].
  rewrite Forall_forall in Ha.
  destruct Hs as [->|Hs], Hs' as [->|Hs'].
  - reflexivity.
  - specialize (Ha s' Hs'). lia.
  - specialize (Ha s Hs). lia.
  - apply IH; assumption.
Qed.

Lemma accepted_edges_pass (c : Z) (es : list (list EdgeSeg)) (allowedSizes : list Z)
      (e : list EdgeSeg) :
  validate (mkCorona (Int c) es) allowedSizes = Normal success ->
  In e es -> 0 < c /\ EdgePasses c allowedSizes e.
Proof.
  intros Hv Hin. apply validate_success_iff in Hv.
  destruct Hv as (c' & [= <-] & Hc & _ & Hp & _). cbn [edges] in Hp.
  rewrite Forall_forall in Hp. auto.
Qed.

(** X22.  The segments of an edge of an accepted corona, all of whose
    numbers and sums are safe integers, tile the side of the center: every
    unit of the side, from 0 up to the center's length, lies under exactly
    one segment of the edge. *)
Theorem accepted_edge_tiles_side (c : Z) (es : list (list EdgeSeg)) (allowedSizes : list Z)
        (e : list EdgeSeg) (p : Z) :
  SafeSegments c es ->
  validate (mkCorona (Int c) es) allowedSizes = Normal success ->
  In e es ->
  0 <= p < c ->
  exists s, In s e /\ covers s p /\ forall s', In s' e -> covers s' p -> s' = s.
Proof.
  intros _ Hv Hin Hp.
  destruct (accepted_edges_pass c es allowedSizes e Hv Hin) as [Hc Hpass].
  pose proof Hpass as (Hne & Hleg & _ & _ & Hstart & Hwalk & Hreach).
  pose proof (sortBy_perm byOffsetThenSize e) as Hperm.
  set (segs := sortBy byOffsetThenSize e) in *.
  assert (Hpos : Forall (fun s => 0 < size s) segs).
  { eapply Forall_impl; [|exact Hleg]. cbv beta. intros s (_ & Hs & _). exact Hs. }
  destruct (walk_covers segs p) as (s & Hs & Hcov).
  - intros E. apply Hne. apply (sortBy_nil_iff byOffsetThenSize). exact E.
  - exact Hwalk.
  - lia.
  - exists s. split; [exact (Permutation_in _ (Permutation_sym Hperm) Hs)|].
    split; [exact Hcov|]. intros s' Hs' Hcov'.
    apply (gaps_cover_once segs p s s' (walk_apart segs Hpos Hwalk) Hs
                           (Permutation_in _ Hperm Hs') Hcov Hcov').
Qed.

Lemma accepted_edge_tiles_side_witness :
  exists s, In s [mkSeg 2 1; mkSeg 1 0] /\ covers s 1 /\
            forall s', In s' [mkSeg 2 1; mkSeg 1 0] -> covers s' 1 -> s' = s.
Proof.
  apply (accepted_edge_tiles_side 2 [[mkSeg 2 1; mkSeg 1 0]; [mkSeg 3 0]; [mkSeg 3 0]; [mkSeg 4 0]]
                                  defaultSizes).
  - safe_numbers.
  - vm_compute. reflexivity.
  - simpl. auto.
  - lia.
Defined.

Lemma totalSize_perm (e e' : list EdgeSeg) : Permutation e e' -> totalSize e = totalSize e'.
Proof.
  unfold totalSize. induction 1; simpl; lia.
Qed.

Lemma walk_total (segs : list EdgeSeg) :
  segs <> [] ->
  consecutive (fun a b => offset b = offset a + size a) segs ->
  totalSize segs = offset (lastOf segs) + size (lastOf segs) - offset (firstOf segs).
Proof.
  induction segs as [|a [|b rest] IH]; intros Hne Hwalk; [congruence| |].
  - unfold totalSize, lastOf, firstOf. simpl. lia.
  - destruct Hwalk as [Eab Hwalk].
    specialize (IH ltac:(discriminate) Hwalk).
    unfold lastOf, firstOf in *. cbn [hd] in *.
    change (last (a :: b :: rest) noSeg) with (last (b :: rest) noSeg).
    change (totalSize (a :: b :: rest)) with (size a + totalSize (b :: rest)). lia.
Qed.

Lemma lastOf_In (segs : list EdgeSeg) : segs <> [] -> In (lastOf segs) segs.
Proof.
  unfold lastOf. induction segs as [|a [|b rest] IH]; intros Hne; [congruence| |].
  - left. reflexivity.
  - right. apply IH. discriminate.
Qed.

(** X23.  Along an edge of an accepted corona, all of whose numbers and
    sums are safe integers, the sizes add up to the center's length plus the
    overhang the corner step computes, and that overhang is not negative and
    not more than the size of the last segment. *)
Theorem accepted_edge_length (c : Z) (es : list (list EdgeSeg)) (allowedSizes : list Z)
        (e : list EdgeSeg) :
  SafeSegments c es ->
  validate (mkCorona (Int c) es) allowedSizes = Normal success ->
  In e es ->
  totalSize e = c + overhang c e /\ 0 <= overhang c e <= lastSegmentSize e.
Proof.
  intros _ Hv Hin.
  destruct (accepted_edges_pass c es allowedSizes e Hv Hin) as [Hc Hpass].
  unfold overhang, lastSegmentSize. cbv zeta.
  rewrite (byOffset_sort_of_passing c allowedSizes e Hpass).
  pose proof Hpass as (Hne & Hleg & _ & _ & Hstart & Hwalk & Hreach).
  pose proof (sortBy_perm byOffsetThenSize e) as Hperm.
  set (segs := sortBy byOffsetThenSize e) in *.
  assert (Hne' : segs <> []).
  { intros E. apply Hne. apply (sortBy_nil_iff byOffsetThenSize). exact E. }
  rewrite (totalSize_perm e segs Hperm), (walk_total segs Hne' Hwalk).
  rewrite Forall_forall in Hleg.
  destruct (Hleg _ (lastOf_In segs Hne')) as (_ & _ & _ & Hoff).
  lia.
Qed.

Lemma accepted_edge_length_witness :
  totalSize [mkSeg 2 1; mkSeg 1 0] = 2 + overhang 2 [mkSeg 2 1; mkSeg 1 0] /\
  0 <= overhang 2 [mkSeg 2 1; mkSeg 1 0] <= lastSegmentSize [mkSeg 2 1; mkSeg 1 0].
Proof.
  apply (accepted_edge_length 2 [[mkSeg 2 1; mkSeg 1 0]; [mkSeg 3 0]; [mkSeg 3 0]; [mkSeg 4 0]]
                              defaultSizes).
  - safe_numbers.
  - vm_compute. reflexivity.
  - simpl. auto.
Defined.

(* ================================================================= *)
(** ** Where the corner step cannot fail *)

Lemma firstSegment_passing (c : Z) (allowedSizes : list Z) (e : list EdgeSeg) :
  EdgePasses c allowedSizes e ->
  In (firstSegmentSize e) allowedSizes /\ firstSegmentSize e <> c.
Proof.
  intros Hp. unfold firstSegmentSize.
  rewrite (byOffset_sort_of_passing c allowedSizes e Hp).
  destruct Hp as (Hne & Hleg & Hali & _ & Hstart & _).
  destruct (sortBy byOffsetThenSize e) as [|a rest] eqn:Hs.
  { apply sortBy_nil_iff in Hs. contradiction. }
  unfold firstOf in *. cbn [hd] in *.
  inversion Hleg as [|? ? (Hin & _) _]; subst.
  inversion Hali as [|? ? Hna _]; subst.
  split; [exact Hin|]. intros E. apply Hna. auto.
Qed.

Lemma no_corner_gap (c : Z) (allowedSizes : list Z) (es : list (list EdgeSeg)) :
  c = 1 \/ ~ In 1 allowedSizes ->
  List.length es = 4%nat ->
  Forall (EdgePasses c allowedSizes) es ->
  anyCornerGap c es = false.
Proof.
  intros Hor Hlen Hp.
  assert (Hfirst : forall e, In e es -> (firstSegmentSize e =? 1) = false).
  { intros e He. rewrite Forall_forall in Hp.
    destruct (firstSegment_passing c allowedSizes e (Hp e He)) as [Hin Hnc].
    apply Z.eqb_neq. intros E. rewrite E in *.
    destruct Hor as [->|Hno]; [congruence | contradiction]. }
  destruct (four_edges es Hlen) as (e0 & e1 & e2 & e3 & ->).
  unfold anyCornerGap, cornerGapb, nextEdgeAt. cbn [existsb].
  change ((0 + 1) mod 4)%nat with 1%nat. change ((1 + 1) mod 4)%nat with 2%nat.
  change ((2 + 1) mod 4)%nat with 3%nat. change ((3 + 1) mod 4)%nat with 0%nat.
  cbn [nth].
  rewrite (Hfirst e0), (Hfirst e1), (Hfirst e2), (Hfirst e3) by (simpl; auto).
  rewrite !andb_false_r. reflexivity.
Qed.

(** X24.  The corner step can only fail with a center larger than 1 and
    with 1 among the allowed sizes: for center 1, or when size 1 is not
    allowed, [Corona.validate] and the copy in [generate.js] that has no
    corner step return the same result on every corona. *)
Theorem corner_step_unreachable (cor : Corona) (allowedSizes : list Z) :
  center cor = Int 1 \/ ~ In 1 allowedSizes ->
  validate cor allowedSizes = GenerateJs.validate cor allowedSizes.
Proof.
  intros Hor. unfold validate, GenerateJs.validate, validateBody. cbv zeta.
  destruct (negb (Number_isInteger (center cor)) || (integerOf (center cor) <=? 0));
    [reflexivity|].
  destruct (Nat.eqb_spec (List.length (edges cor)) 4) as [Hlen|Hlen];
    cbn [negb returnIf bind]; [|reflexivity].
  destruct (checkEdges _ _ 0 (edges cor)) as [[]|r|err] eqn:Hedges; cbn [bind call];
    [|reflexivity..].
  apply checkEdges_Next_iff in Hedges.
  assert (Hne : Forall (fun edge : list EdgeSeg => edge <> []) (edges cor)).
  { eapply Forall_impl; [|exact Hedges]. intros e He. destruct He as [Hn _]. exact Hn. }
  pose proof (cornerGapCheck_agrees (integerOf (center cor)) (edges cor) Hlen Hne) as Ha.
  unfold cornerCheck in Ha.
  rewrite (no_corner_gap (integerOf (center cor)) allowedSizes (edges cor)) in Ha;
    [| | exact Hlen | exact Hedges].
  - cbn [negb orb failsWith] in Ha. unfold agrees in Ha.
    destruct (cornerGapCheck _ _) as [[]|r|err]; try contradiction. reflexivity.
  - destruct Hor as [E|Hno]; [left; rewrite E; reflexivity | right; exact Hno].
Qed.

Lemma corner_step_unreachable_witness :
  validate (mkCorona (Int 1) [[mkSeg 2 0]; [mkSeg 3 0]; [mkSeg 4 0]; [mkSeg 2 0]]) defaultSizes
  = GenerateJs.validate (mkCorona (Int 1) [[mkSeg 2 0]; [mkSeg 3 0]; [mkSeg 4 0]; [mkSeg 2 0]])
                        defaultSizes.
Proof.
  apply corner_step_unreachable. left. reflexivity.
Defined.

(* ================================================================= *)
(** ** When the drawing ends with a fault *)

Lemma drawEdges_fault (cx cy cs : Z) (es : list (list EdgeSeg)) (idxs : list nat)
      (ops : list DrawOp) :
  snd (drawEdges cx cy cs es idxs ops)
  = if forallb (fun i => (i <? List.length es)%nat) idxs then None else Some TypeError.
Proof.
  revert ops. induction idxs as [|i idxs IH]; intros ops; cbn [drawEdges forallb];
    [reflexivity|].
  destruct (nth_error es i) as [edge|] eqn:E.
  - assert (Hi : (i < List.length es)%nat) by (apply nth_error_Some; congruence).
    apply Nat.ltb_lt in Hi. rewrite Hi. cbn [andb]. apply IH.
  - apply nth_error_None in E.
    assert (Hi : (i <? List.length es)%nat = false) by (apply Nat.ltb_ge; exact E).
    rewrite Hi. reflexivity.
Qed.

